(** * rpg_e2vid: inference utilities (utils/inference_utils.py)

    A shallow embedding of the size aligner ([optimal_crop_size],
    [CropParameters]), the channel compositor ([shift_image],
    [merge_channels_into_color_image]), the two voxel-grid builders
    ([events_to_voxel_grid], [events_to_voxel_grid_pytorch]), the display
    border, the intensity rescaler, the image filter and the event
    preprocessor.

    Conventions.  Python [int]s are [Z].  A flat NumPy buffer is a list
    read and updated by index; a 2-D array is the list of its rows.

    The numeric code is embedded twice.

    - In the first embedding a floating point value is an exact rational
      [Q] and every operation is taken at its mathematical value.  It
      serves for what does not depend on rounding: sizes, shapes, indices,
      which cells and which objects are written, which exception is
      raised.
    - Module [IEEE] embeds the voxel-grid builders and the channel
      compositor over IEEE 754 values ([spec_float]): every operation is
      rounded, in the format in which the source computes it.  It serves
      for the values that the grids and the 8-bit images hold. *)

From Stdlib Require Import ZArith QArith Qround Lia Lqa List SpecFloat Zpower.
From stdpp Require Import base list strings gmap.

Local Open Scope Z_scope.

(** ** Numeric primitives *)

(** [math.ceil] and [math.floor] on a float. *)
Definition ceil (q : Q) : Z := Qceiling q.
Definition floor (q : Q) : Z := Qfloor q.

(** [x.astype(np.int)]: conversion of a float to an integer, which
    truncates toward zero. *)
Definition astype_int (q : Q) : Z := Z.quot (Qnum q) (Z.pos (Qden q)).

(** [torch.floor]. *)
Definition torch_floor (q : Q) : Z := Qfloor q.

(** ** Size aligner *)

(** [optimal_crop_size(max_size, max_subsample_factor, safety_margin)];
    [pow(2, k)] is an integer for the non-negative [k] of the callers. *)
Definition optimal_crop_size (max_size max_subsample_factor safety_margin : Z) : Z :=
  let crop_size :=
    2 ^ max_subsample_factor
    * ceil (inject_Z max_size / inject_Z (2 ^ max_subsample_factor)) in
  crop_size + safety_margin * 2 ^ max_subsample_factor.

Record CropParameters := {
  height : Z;
  width : Z;
  num_encoders : Z;
  width_crop_size : Z;
  height_crop_size : Z;
  padding_top : Z;
  padding_bottom : Z;
  padding_left : Z;
  padding_right : Z;
  cx : Z;
  cy : Z;
  ix0 : Z;
  ix1 : Z;
  iy0 : Z;
  iy1 : Z
}.

(** [CropParameters.__init__(width, height, num_encoders, safety_margin)]. *)
Definition CropParameters__init__ (width height num_encoders safety_margin : Z)
  : CropParameters :=
  let width_crop_size := optimal_crop_size width num_encoders safety_margin in
  let height_crop_size := optimal_crop_size height num_encoders safety_margin in
  let cx := floor (inject_Z width_crop_size / 2) in
  let cy := floor (inject_Z height_crop_size / 2) in
  {| height := height;
     width := width;
     num_encoders := num_encoders;
     width_crop_size := width_crop_size;
     height_crop_size := height_crop_size;
     padding_top := ceil ((1 # 2) * inject_Z (height_crop_size - height));
     padding_bottom := floor ((1 # 2) * inject_Z (height_crop_size - height));
     padding_left := ceil ((1 # 2) * inject_Z (width_crop_size - width));
     padding_right := floor ((1 # 2) * inject_Z (width_crop_size - width));
     cx := cx;
     cy := cy;
     ix0 := cx - floor (inject_Z width / 2);
     ix1 := cx + ceil (inject_Z width / 2);
     iy0 := cy - floor (inject_Z height / 2);
     iy1 := cy + ceil (inject_Z height / 2) |}.

(** Python slicing [l[a:b]] with integer bounds: a negative bound counts
    from the end, and both bounds are clamped to the length. *)
Definition slice_bound (n i : Z) : Z :=
  if i <? 0 then Z.max 0 (i + n) else Z.min i n.

Definition py_slice {A} (a b : Z) (l : list A) : list A :=
  let n := Z.of_nat (length l) in
  let a' := slice_bound n a in
  let b' := slice_bound n b in
  take (Z.to_nat (b' - a')) (drop (Z.to_nat a') l).

(** Modelled from the spec: the padding operator applied before
    inference (the source stores [ZeroPad2d((padding_left, padding_right,
    padding_top, padding_bottom))] and its callers apply it).  The border
    value at canvas position (row, column) is [fill row column], so that
    every way of filling the border is covered; [ZeroPad2d] is the
    constant zero fill. *)
Definition pad_row {A} (fill : nat -> A) (l r : nat) (row : list A) : list A :=
  map fill (seq 0 l) ++ row ++ map fill (seq (l + length row) r).

Definition pad {A} (fill : nat -> nat -> A) (cp : CropParameters)
    (img : list (list A)) : list (list A) :=
  let l := Z.to_nat (padding_left cp) in
  let r := Z.to_nat (padding_right cp) in
  let t := Z.to_nat (padding_top cp) in
  let b := Z.to_nat (padding_bottom cp) in
  let w := Z.to_nat (width cp) in
  map (fun Y => map (fill Y) (seq 0 (l + w + r))) (seq 0 t)
  ++ imap (fun y row => pad_row (fill (t + y)%nat) l r row) img
  ++ map (fun Y => map (fill Y) (seq 0 (l + w + r))) (seq (t + length img) b).

(** Modelled from the spec: the cropping operator applied after
    inference, [img[iy0:iy1, ix0:ix1]]. *)
Definition crop {A} (cp : CropParameters) (img : list (list A)) : list (list A) :=
  map (py_slice (ix0 cp) (ix1 cp)) (py_slice (iy0 cp) (iy1 cp) img).

(** ** Channel compositor *)

(** A 2-D float array: the list of its rows. *)
Abbreviation image := (list (list Q)).

(** [np.roll(l, shift)] along the leading axis: the offset is
    [shift % (n or 1)], the result is [l[n-offset:]] followed by
    [l[:n-offset]]. *)
Definition np_roll {A} (l : list A) (shift : Z) : list A :=
  let n := Z.of_nat (length l) in
  let offset := shift mod (if n =? 0 then 1 else n) in
  drop (Z.to_nat (n - offset)) l ++ take (Z.to_nat (n - offset)) l.

(** Slice assignment [l[a:b] = ...]: the elements whose index lies in the
    slice are replaced through [f]. *)
Definition set_slice {A} (a b : Z) (f : A -> A) (l : list A) : list A :=
  let n := Z.of_nat (length l) in
  let a' := slice_bound n a in
  let b' := slice_bound n b in
  imap (fun i x => if (a' <=? Z.of_nat i) && (Z.of_nat i <? b') then f x else x) l.

Definition zero_row (row : list Q) : list Q := map (fun _ => 0%Q) row.

Definition shift_image (X : image) (dx dy : Z) : image :=
  let X := np_roll X dy in
  let X := map (fun row => np_roll row dx) X in
  let X :=
    if 0 <? dy then set_slice 0 dy zero_row X
    else if dy <? 0 then set_slice dy (Z.of_nat (length X)) zero_row X
    else X in
  let X :=
    if 0 <? dx then map (set_slice 0 dx (fun _ => 0%Q)) X
    else if dx <? 0 then
      map (fun row => set_slice dx (Z.of_nat (length row)) (fun _ => 0%Q) row) X
    else X in
  X.

(** [x.astype(np.uint8)] on a float: truncation toward zero; a value
    outside the range of the type is reduced modulo 256. *)
Definition astype_uint8 (q : Q) : Z := astype_int q mod 256.

Abbreviation bgr A := (A * A * A)%type.

(** [np.dstack([b, g, r])] of three arrays of one shape. *)
Definition dstack {A} (b g r : list (list A)) : list (list (bgr A)) :=
  zip_with (fun brow gr => zip_with (fun bv '(gv, rv) => (bv, gv, rv)) brow gr)
    b (zip_with zip g r).

(** [0.5 * (G + W)], elementwise. *)
Definition green_estimate (G W : image) : image :=
  zip_with (zip_with (fun g w => (1 # 2) * (g + w))%Q) G W.

(** [reconstruction_bgr], after its conversion to 8 bits. *)
Definition reconstruction_bgr (B G W R : image) : list (list (bgr Z)) :=
  let reconstruction_bgr := dstack B (green_estimate G W) R in
  map (map (fun '(b, g, r) =>
    (astype_uint8 (255 * b), astype_uint8 (255 * g), astype_uint8 (255 * r))))
    reconstruction_bgr.

(** [reconstruction_grayscale]. *)
Definition reconstruction_grayscale (grayscale : image) : list (list Z) :=
  map (map (fun v => astype_uint8 (255 * v))) grayscale.

Inductive colorspace := LAB | HSV | HLS.

Inductive conversion_code :=
  | COLOR_BGR2LAB | COLOR_LAB2BGR
  | COLOR_BGR2HSV | COLOR_HSV2BGR
  | COLOR_BGR2HLS | COLOR_HLS2BGR.

Inductive exn := AssertionError | IndexError.

(** [a[:, :, k] = plane], for a plane of the shape of [a]. *)
Definition set_plane (k : nat) (a : list (list (bgr Z))) (plane : list (list Z))
  : list (list (bgr Z)) :=
  zip_with (zip_with (fun '(c0, c1, c2) v =>
    match k with
    | O => (v, c1, c2)
    | S O => (c0, v, c2)
    | _ => (c0, c1, v)
    end)) a plane.

Section Compositor.
(** OpenCV is outside the repository: [cv2.resize(X, dsize=None, fx=2,
    fy=2, interpolation=cv2.INTER_CUBIC)] and [cv2.cvtColor] are
    parameters of the model. *)
Variable cv2_resize : image -> image.
Variable cv2_cvtColor : conversion_code -> list (list (bgr Z)) -> list (list (bgr Z)).

Definition upsample_color_image (grayscale_highres : list (list Z))
    (color_lowres_bgr : list (list (bgr Z))) (cs : colorspace)
  : list (list (bgr Z)) :=
  match cs with
  | LAB =>
      let lab := cv2_cvtColor COLOR_BGR2LAB color_lowres_bgr in
      let lab := set_plane 0 lab grayscale_highres in
      cv2_cvtColor COLOR_LAB2BGR lab
  | HSV =>
      let hsv := cv2_cvtColor COLOR_BGR2HSV color_lowres_bgr in
      let hsv := set_plane 2 hsv grayscale_highres in
      cv2_cvtColor COLOR_HSV2BGR hsv
  | HLS =>
      let hls := cv2_cvtColor COLOR_BGR2HLS color_lowres_bgr in
      let hls := set_plane 1 hls grayscale_highres in
      cv2_cvtColor COLOR_HLS2BGR hls
  end.

(** [merge_channels_into_color_image(channels)].  The dictionary is the
    caller's object: the function returns its final contents next to
    the image (or the exception raised). *)
Definition merge_channels_into_color_image (channels : gmap string image)
  : gmap string image * (exn + list (list (bgr Z))) :=
  if negb (bool_decide (is_Some (channels !! "R"))) then (channels, inl AssertionError)
  else if negb (bool_decide (is_Some (channels !! "G"))) then (channels, inl AssertionError)
  else if negb (bool_decide (is_Some (channels !! "W"))) then (channels, inl AssertionError)
  else if negb (bool_decide (is_Some (channels !! "B"))) then (channels, inl AssertionError)
  else if negb (bool_decide (is_Some (channels !! "grayscale"))) then
    (channels, inl AssertionError)
  else
    let channels :=
      foldl (fun channels channel => alter cv2_resize channel channels)
        channels ["R"; "G"; "W"; "B"] in
    let channels := alter (fun X => shift_image X 1 1) "B" channels in
    let channels := alter (fun X => shift_image X 1 0) "G" channels in
    let channels := alter (fun X => shift_image X 0 1) "W" channels in
    let reconstruction_bgr :=
      reconstruction_bgr (channels !!! "B") (channels !!! "G")
        (channels !!! "W") (channels !!! "R") in
    let reconstruction_grayscale :=
      reconstruction_grayscale (channels !!! "grayscale") in
    (channels,
     inr (upsample_color_image reconstruction_grayscale reconstruction_bgr LAB)).
End Compositor.

(** ** Voxel-grid builders *)

(** A row [[timestamp, x, y, polarity]] of the [N x 4] event array. *)
Record event := { ev_t : Q; ev_x : Q; ev_y : Q; ev_p : Q }.

(** A NumPy array / a tensor of rank 3: its shape and its flat,
    row-major buffer. *)
Record ndarray := { shape : Z * Z * Z; data : list Q }.

(** Boolean-mask indexing [a[valid]]. *)
Fixpoint mask {A} (valid : list bool) (a : list A) : list A :=
  match valid, a with
  | v :: valid, x :: a => if v then x :: mask valid a else mask valid a
  | _, _ => []
  end.

(** [np.add.at(a, indices, values)]: unbuffered [a[i] += v] for each pair
    in turn.  An index in [[-n, 0)] counts from the end; any other index
    outside [[0, n)] raises [IndexError] ([None]). *)
Definition np_add_at (a : list Q) (indices : list Z) (values : list Q)
  : option (list Q) :=
  foldl (fun acc '(i, v) =>
    a ← acc;
    let n := Z.of_nat (length a) in
    if (- n <=? i) && (i <? n) then
      Some (alter (fun c => c + v)%Q (Z.to_nat (if i <? 0 then i + n else i)) a)
    else None)
    (Some a) (zip indices values).

(** [a.index_add_(dim=0, index, source)]: [a[i] += v] for each pair; an
    index outside [[0, n)] is an error ([None]). *)
Definition index_add_ (a : list Q) (index : list Z) (source : list Q)
  : option (list Q) :=
  foldl (fun acc '(i, v) =>
    a ← acc;
    let n := Z.of_nat (length a) in
    if (0 <=? i) && (i <? n) then
      Some (alter (fun c => c + v)%Q (Z.to_nat i) a)
    else None)
    (Some a) (zip index source).

(** The flat index [x + y * width + t * width * height], elementwise. *)
Definition flat_indices (width height : Z) (xs ys tis : list Z) : list Z :=
  zip_with Z.add
    (zip_with Z.add xs (map (fun y => y * width) ys))
    (map (fun ti => ti * width * height) tis).

(** [(num_bins - 1) * (t - first_stamp) / deltaT]. *)
Definition normalize_stamp (num_bins : Z) (first_stamp deltaT t : Q) : Q :=
  inject_Z (num_bins - 1) * (t - first_stamp) / deltaT.

Definition set_ev_t (e : event) (t : Q) : event :=
  {| ev_t := t; ev_x := ev_x e; ev_y := ev_y e; ev_p := ev_p e |}.

Definition set_ev_p (e : event) (p : Q) : event :=
  {| ev_t := ev_t e; ev_x := ev_x e; ev_y := ev_y e; ev_p := p |}.

(** [pols[pols == 0] = -1] on one element. *)
Definition fix_polarity (p : Q) : Q := if Qeq_bool p 0 then (-1)%Q else p.

(** [events_to_voxel_grid(events, num_bins, width, height)].  The event
    array is the caller's object and the function writes into it (the
    timestamp column by the assignment to [events[:, 0]], the polarity
    column through the view [pols]): the function returns the final
    contents of the array next to the grid (or the exception raised). *)
Definition events_to_voxel_grid (events : list event) (num_bins width height : Z)
  : list event * (exn + ndarray) :=
  if negb (0 <? num_bins) then (events, inl AssertionError)
  else if negb (0 <? width) then (events, inl AssertionError)
  else if negb (0 <? height) then (events, inl AssertionError)
  else
    let voxel_grid := replicate (Z.to_nat (num_bins * height * width)) 0%Q in
    match last events, head events with
    | Some e_last, Some e_first =>
        let last_stamp := ev_t e_last in
        let first_stamp := ev_t e_first in
        let deltaT := (last_stamp - first_stamp)%Q in
        let deltaT := if Qeq_bool deltaT 0 then 1%Q else deltaT in
        let events :=
          map (fun e => set_ev_t e (normalize_stamp num_bins first_stamp deltaT (ev_t e)))
            events in
        let ts := map ev_t events in
        let xs := map (fun e => astype_int (ev_x e)) events in
        let ys := map (fun e => astype_int (ev_y e)) events in
        let events := map (fun e => set_ev_p e (fix_polarity (ev_p e))) events in
        let pols := map ev_p events in
        let tis := map astype_int ts in
        let dts := zip_with (fun t ti => t - inject_Z ti)%Q ts tis in
        let vals_left := zip_with (fun p dt => p * (1 - dt))%Q pols dts in
        let vals_right := zip_with (fun p dt => p * dt)%Q pols dts in
        let valid_indices := map (fun ti => ti <? num_bins) tis in
        match np_add_at voxel_grid
                (flat_indices width height (mask valid_indices xs)
                   (mask valid_indices ys) (mask valid_indices tis))
                (mask valid_indices vals_left) with
        | None => (events, inl IndexError)
        | Some voxel_grid =>
            let valid_indices := map (fun ti => ti + 1 <? num_bins) tis in
            match np_add_at voxel_grid
                    (flat_indices width height (mask valid_indices xs)
                       (mask valid_indices ys)
                       (map (fun ti => ti + 1) (mask valid_indices tis)))
                    (mask valid_indices vals_right) with
            | None => (events, inl IndexError)
            | Some voxel_grid =>
                (events,
                 inr {| shape := (num_bins, height, width); data := voxel_grid |})
            end
        end
    | _, _ => (events, inl IndexError)
    end.

Inductive device := cpu | cuda.

(** [events_to_voxel_grid_pytorch(events, num_bins, width, height, device)]
    on a float64 event array.  [torch.from_numpy] shares the caller's
    buffer and [.to(device)] copies it only when the device is not the
    CPU, so that the assignment to [events_torch[:, 0]] reaches the
    caller's array on the CPU; [pols] is a float32 copy. *)
Definition events_to_voxel_grid_pytorch (events : list event)
    (num_bins width height : Z) (dev : device)
  : list event * (exn + ndarray) :=
  if negb (0 <? num_bins) then (events, inl AssertionError)
  else if negb (0 <? width) then (events, inl AssertionError)
  else if negb (0 <? height) then (events, inl AssertionError)
  else
    let events_torch := events in
    let voxel_grid := replicate (Z.to_nat (num_bins * height * width)) 0%Q in
    match last events_torch, head events_torch with
    | Some e_last, Some e_first =>
        let last_stamp := ev_t e_last in
        let first_stamp := ev_t e_first in
        let deltaT := (last_stamp - first_stamp)%Q in
        let deltaT := if Qeq_bool deltaT 0 then 1%Q else deltaT in
        let events_torch :=
          map (fun e => set_ev_t e (normalize_stamp num_bins first_stamp deltaT (ev_t e)))
            events_torch in
        let events := match dev with cpu => events_torch | cuda => events end in
        let ts := map ev_t events_torch in
        let xs := map (fun e => astype_int (ev_x e)) events_torch in
        let ys := map (fun e => astype_int (ev_y e)) events_torch in
        let pols := map (fun e => fix_polarity (ev_p e)) events_torch in
        let tis := map torch_floor ts in
        let tis_long := tis in
        let dts := zip_with (fun t ti => t - inject_Z ti)%Q ts tis in
        let vals_left := zip_with (fun p dt => p * (1 - dt))%Q pols dts in
        let vals_right := zip_with (fun p dt => p * dt)%Q pols dts in
        let valid_indices := map (fun ti => (ti <? num_bins) && (0 <=? ti)) tis in
        match index_add_ voxel_grid
                (flat_indices width height (mask valid_indices xs)
                   (mask valid_indices ys) (mask valid_indices tis_long))
                (mask valid_indices vals_left) with
        | None => (events, inl IndexError)
        | Some voxel_grid =>
            let valid_indices :=
              map (fun ti => (ti + 1 <? num_bins) && (0 <=? ti)) tis in
            match index_add_ voxel_grid
                    (flat_indices width height (mask valid_indices xs)
                       (mask valid_indices ys)
                       (map (fun ti => ti + 1) (mask valid_indices tis_long)))
                    (mask valid_indices vals_right) with
            | None => (events, inl IndexError)
            | Some voxel_grid =>
                (events,
                 inr {| shape := (num_bins, height, width); data := voxel_grid |})
            end
        end
    | _, _ => (events, inl IndexError)
    end.

(** The sum of a list of values. *)
Definition Qsum (l : list Q) : Q := foldr Qplus 0%Q l.

(** ** Display border *)

(** [ImageDisplay.crop_outer_border(img, border)]; [self_border] is the
    field [self.border] that the test reads. *)
Definition crop_outer_border {A} (self_border : Z) (img : list (list A)) (border : Z)
  : list (list A) :=
  if self_border =? 0 then img
  else map (py_slice border (- border)) (py_slice border (- border) img).

(** ** Intensity rescaler *)

Record rescaler_options := {
  opt_auto_hdr : bool;
  opt_color : bool;
  opt_auto_hdr_min_percentile : Q;
  opt_auto_hdr_max_percentile : Q;
  opt_auto_hdr_moving_average_size : Z;
  opt_auto_hdr_border : Z
}.

(** The fields of an [IntensityRescaler]; [intensity_bounds] is the deque,
    oldest entry first. *)
Record IntensityRescaler := {
  auto_hdr : bool;
  auto_hdr_min_percentile : Q;
  auto_hdr_max_percentile : Q;
  auto_hdr_moving_average_size : Z;
  auto_hdr_border : Z;
  intensity_bounds : list (Q * Q)
}.

(** [IntensityRescaler.__init__(options)]. *)
Definition IntensityRescaler__init__ (options : rescaler_options)
  : exn + IntensityRescaler :=
  let auto_hdr := opt_auto_hdr options in
  let auto_hdr := if opt_color options then true else auto_hdr in
  let min_percentile := opt_auto_hdr_min_percentile options in
  if negb (Qle_bool 0 min_percentile && negb (Qle_bool 30 min_percentile))
  then inl AssertionError else
  let max_percentile := opt_auto_hdr_max_percentile options in
  if negb (Qle_bool 70 max_percentile && Qle_bool max_percentile 100)
  then inl AssertionError else
  let size := opt_auto_hdr_moving_average_size options in
  if negb ((0 <? size) && (size <=? 100)) then inl AssertionError else
  let border := opt_auto_hdr_border options in
  if negb ((0 <=? border) && (border <? 50)) then inl AssertionError else
  inr {| auto_hdr := auto_hdr;
         auto_hdr_min_percentile := min_percentile;
         auto_hdr_max_percentile := max_percentile;
         auto_hdr_moving_average_size := size;
         auto_hdr_border := border;
         intensity_bounds := [] |}.

(** [np.clip(v, lo, hi)] on a float. *)
Definition np_clip_float (lo hi v : Q) : Q :=
  let v := if Qle_bool lo v then v else lo in
  if Qle_bool v hi then v else hi.

(** [img[border:-border, border:-border].ravel()]. *)
Definition hdr_region (border : Z) (img : image) : list Q :=
  concat (map (py_slice border (- border)) (py_slice border (- border) img)).

Section Rescaler.
(** [robust_min] and [robust_max] come from the module [.util], which is
    not part of the file, and [np.median] from NumPy: they are parameters
    of the model.  A call of [robust_min] or of [robust_max] returns a
    bound or raises an exception, as a percentile of an empty region
    does. *)
Variable robust_min : list Q -> Q -> exn + Q.
Variable robust_max : list Q -> Q -> exn + Q.
Variable np_median : list Q -> Q.

(** The object with another deque. *)
Definition set_intensity_bounds (self : IntensityRescaler) (bounds : list (Q * Q))
  : IntensityRescaler :=
  {| auto_hdr := auto_hdr self;
     auto_hdr_min_percentile := auto_hdr_min_percentile self;
     auto_hdr_max_percentile := auto_hdr_max_percentile self;
     auto_hdr_moving_average_size := auto_hdr_moving_average_size self;
     auto_hdr_border := auto_hdr_border self;
     intensity_bounds := bounds |}.

(** [IntensityRescaler.__call__(img)]: the object after the call, next to
    the image returned or the exception raised.  [popleft] comes before
    the calls of [robust_min] and [robust_max], [append] after them: an
    exception of theirs leaves the deque without its oldest entry and
    without a new one.  [popleft] on an empty deque raises [IndexError].
    The pixels of the returned image are exact rationals. *)
Definition IntensityRescaler__call__ (self : IntensityRescaler) (img : image)
  : IntensityRescaler * (exn + image) :=
  if auto_hdr self then
    let bounds := intensity_bounds self in
    let popped :=
      if auto_hdr_moving_average_size self <? Z.of_nat (length bounds)
      then match bounds with [] => None | _ :: rest => Some rest end
      else Some bounds in
    match popped with
    | None => (self, inl IndexError)
    | Some bounds =>
        let self := set_intensity_bounds self bounds in
        let border := auto_hdr_border self in
        match robust_min (hdr_region border img) (auto_hdr_min_percentile self) with
        | inl e => (self, inl e)
        | inr rmin =>
            match robust_max (hdr_region border img) (auto_hdr_max_percentile self) with
            | inl e => (self, inl e)
            | inr rmax =>
                let bounds := bounds ++ [(rmin, rmax)] in
                let self := set_intensity_bounds self bounds in
                let mean_rmin := np_median (map fst bounds) in
                let mean_rmax := np_median (map snd bounds) in
                let img :=
                  map (map (fun v => (v - mean_rmin) / (mean_rmax - mean_rmin))%Q) img in
                let img := map (map (np_clip_float 0 1)) img in
                (self, inr img)
            end
        end
    end
  else (self, inr img).

(** A sequence of calls on the same object, one per image, up to the
    first exception: the object at the end and the exception, if any. *)
Fixpoint rescale_all (self : IntensityRescaler) (imgs : list image)
  : IntensityRescaler * option exn :=
  match imgs with
  | [] => (self, None)
  | img :: rest =>
      match IntensityRescaler__call__ self img with
      | (self, inl e) => (self, Some e)
      | (self, inr _) => rescale_all self rest
      end
  end.
End Rescaler.

(** ** Unsharp mask and image filter *)

(** [x.round()] on a float: to the nearest integer, a tie going to the
    even neighbour. *)
Definition np_round (q : Q) : Z :=
  let f := Qfloor q in
  let d := (q - inject_Z f)%Q in
  if Qle_bool d (1 # 2) then
    if Qle_bool (1 # 2) d then (if Z.even f then f else f + 1) else f
  else f + 1.

Section Filter.
(** [cv2.GaussianBlur(image, kernel_size, sigma)] and
    [cv2.bilateralFilter(img, d, sigmaColor, sigmaSpace)] on 8-bit
    images are parameters of the model. *)
Variable cv2_GaussianBlur : list (list Z) -> Z * Z -> Q -> list (list Z).
Variable cv2_bilateralFilter : list (list Z) -> Z -> Q -> Q -> list (list Z).

(** [unsharp_mask(image, kernel_size, sigma, amount, threshold)] on an
    8-bit image (the element type for which [np.copyto] into the 8-bit
    result is defined): the products are computed in floating point,
    [image - blurred] in 8-bit arithmetic, modulo 256. *)
Definition unsharp_mask (image : list (list Z)) (kernel_size : Z * Z)
    (sigma amount threshold : Q) : list (list Z) :=
  let blurred := cv2_GaussianBlur image kernel_size sigma in
  let sharpened :=
    zip_with (zip_with (fun v b =>
      ((amount + 1) * inject_Z v - amount * inject_Z b)%Q)) image blurred in
  let sharpened := map (map (fun s => if Qle_bool 0 s then s else 0%Q)) sharpened in
  let sharpened := map (map (fun s => if Qle_bool s 255 then s else 255%Q)) sharpened in
  let sharpened := map (map (fun s => astype_uint8 (inject_Z (np_round s)))) sharpened in
  if negb (Qle_bool threshold 0) then
    let low_contrast_mask :=
      zip_with (zip_with (fun v b =>
        negb (Qle_bool threshold (inject_Z ((v - b) mod 256))))) image blurred in
    zip_with (fun srow mrow => zip_with (fun (sv : Z) '((m, v) : bool * Z) => if m then v else sv)
                                 srow mrow)
      sharpened (zip_with zip low_contrast_mask image)
  else sharpened.

Record ImageFilter := {
  unsharp_mask_amount : Q;
  unsharp_mask_sigma : Q;
  bilateral_filter_sigma : Q
}.

(** [ImageFilter.__call__(img)]. *)
Definition ImageFilter__call__ (self : ImageFilter) (img : list (list Z))
  : list (list Z) :=
  let img :=
    if negb (Qle_bool (unsharp_mask_amount self) 0)
    then unsharp_mask img (5, 5) (unsharp_mask_sigma self) (unsharp_mask_amount self) 0
    else img in
  let img :=
    if negb (Qeq_bool (bilateral_filter_sigma self) 0)
    then cv2_bilateralFilter img 5 (25 * bilateral_filter_sigma self)
           (25 * bilateral_filter_sigma self)
    else img in
  img.
End Filter.

(** ** Event preprocessor *)

(** An integer index into an axis of length [n]: a negative index counts
    from the end, an index outside [[-n, n)] is an error. *)
Definition py_index (n i : Z) : option nat :=
  if (- n <=? i) && (i <? n) then Some (Z.to_nat (if i <? 0 then i + n else i))
  else None.

(** [plane[y, x] = 0] on one plane of the tensor. *)
Definition zero_pixel (y x : Z) (plane : image) : option image :=
  iy ← py_index (Z.of_nat (length plane)) y;
  row ← plane !! iy;
  ix ← py_index (Z.of_nat (length row)) x;
  Some (<[iy := <[ix := 0%Q]> row]> plane).

(** The loop [for x, y in hot_pixel_locations: events[:, :, y, x] = 0] on
    a tensor of shape (N, C, H, W) with at least one plane: the tensor
    after the loop, and whether the loop ended without [IndexError]
    (the pixels before the failing one are already cleared). *)
Fixpoint zero_hot_pixels (locations : list (Z * Z)) (events : list (list image))
  : list (list image) * bool :=
  match locations with
  | [] => (events, true)
  | (x, y) :: rest =>
      match mapM (mapM (zero_pixel y x)) events with
      | None => (events, false)
      | Some events => zero_hot_pixels rest events
      end
  end.

(** [torch.flip(events, dims=[2, 3])]. *)
Definition torch_flip (events : list (list image)) : list (list image) :=
  map (map (fun plane => reverse (map reverse plane))) events.

(** [events[events != 0]], the non-zero entries in row-major order. *)
Definition nonzero_entries (events : list (list image)) : list Q :=
  filter (fun v => negb (Qeq_bool v 0)) (concat (concat (concat events))).

Record EventPreprocessor := {
  no_normalize : bool;
  hot_pixel_locations : list (Z * Z);
  flip : bool
}.

Section Preprocessor.
(** [Tensor.std()] involves a square root: it is a parameter of the
    model, a function of the entries it is applied to. *)
Variable torch_std : list Q -> Q.

(** The normalization of the non-zero entries, in place. *)
Definition normalize_nonzero (events : list (list image)) : list (list image) :=
  let nz := nonzero_entries events in
  let mean := (Qsum nz / inject_Z (Z.of_nat (length nz)))%Q in
  let stddev := torch_std nz in
  map (map (map (map (fun v =>
    if negb (Qeq_bool v 0) then ((v - mean) / stddev)%Q else v)))) events.

(** [EventPreprocessor.__call__(events)]: the caller's tensor after the
    call, and the tensor returned (or the exception raised). *)
Definition EventPreprocessor__call__ (self : EventPreprocessor)
    (events : list (list image))
  : list (list image) * (exn + list (list image)) :=
  match zero_hot_pixels (hot_pixel_locations self) events with
  | (events, false) => (events, inl IndexError)
  | (events, true) =>
      if flip self then
        let flipped := torch_flip events in
        let flipped :=
          if negb (no_normalize self) then normalize_nonzero flipped else flipped in
        (events, inr flipped)
      else
        let events :=
          if negb (no_normalize self) then normalize_nonzero events else events in
        (events, inr events)
  end.
End Preprocessor.

(** ** IEEE 754 embedding of the voxel-grid builders and the compositor *)

(** The values of the grids and of the 8-bit images depend on the
    rounding of every operation.  This module embeds the same functions
    over [spec_float], the IEEE 754 values of the Standard Library:
    float64 is the format of precision 53 and maximal exponent 1024,
    float32 the format of precision 24 and maximal exponent 128, and
    every operation rounds to nearest, ties to even.

    The event array is a float64 array ([np.float64]), so that [.float()]
    in the PyTorch builder is a conversion to a new float32 tensor. *)

Module IEEE.

(** *** Floating point values and operations *)

Definition zero : spec_float := S754_zero false.

Definition add64 : spec_float -> spec_float -> spec_float := SFadd 53 1024.
Definition sub64 : spec_float -> spec_float -> spec_float := SFsub 53 1024.
Definition mul64 : spec_float -> spec_float -> spec_float := SFmul 53 1024.
Definition div64 : spec_float -> spec_float -> spec_float := SFdiv 53 1024.
Definition add32 : spec_float -> spec_float -> spec_float := SFadd 24 128.
Definition sub32 : spec_float -> spec_float -> spec_float := SFsub 24 128.
Definition mul32 : spec_float -> spec_float -> spec_float := SFmul 24 128.

(** Conversion of an integer to float64, rounding to nearest. *)
Definition of_Z64 (n : Z) : spec_float := binary_normalize 53 1024 n 0 false.

(** Conversion between the two formats: [.float()] and
    [astype(np.float32)] round a float64 to float32; the conversion of a
    float32 to float64 is exact. *)
Definition cast32 (x : spec_float) : spec_float :=
  match x with
  | S754_finite s m e => binary_normalize 24 128 (cond_Zopp s (Z.pos m)) e s
  | _ => x
  end.

Definition cast64 (x : spec_float) : spec_float :=
  match x with
  | S754_finite s m e => binary_normalize 53 1024 (cond_Zopp s (Z.pos m)) e s
  | _ => x
  end.

(** The Python literal [1.0] as a float64 and as a float32. *)
Definition one64 : spec_float := of_Z64 1.
Definition one32 : spec_float := cast32 one64.

(** The integer part of a finite value, toward zero. *)
Definition truncate (x : spec_float) : option Z :=
  match x with
  | S754_zero _ => Some 0
  | S754_finite s m e =>
      Some (cond_Zopp s (match e with
                         | Z.neg p => Z.pos m / 2 ^ Z.pos p
                         | _ => Z.pos m * 2 ^ e
                         end))
  | _ => None
  end.

(** The largest integer not above a finite value. *)
Definition floorZ (x : spec_float) : Z :=
  match x with
  | S754_finite s m e =>
      match e with
      | Z.neg p => cond_Zopp s (Z.pos m) / 2 ^ Z.pos p
      | _ => cond_Zopp s (Z.pos m) * 2 ^ e
      end
  | _ => 0
  end.

Definition int64_min : Z := - 2 ^ 63.

(** [x.astype(np.int)] and [x.long()]: conversion of a float64 to a 64-bit
    integer, which truncates toward zero.  The conversion of a NaN, of an
    infinity or of a value outside the 64-bit range is left open by C; the
    value taken here is the one of the x86-64 conversion instruction,
    [-2^63]. *)
Definition astype_int (x : spec_float) : Z :=
  match truncate x with
  | Some n => if (int64_min <=? n) && (n <? 2 ^ 63) then n else int64_min
  | None => int64_min
  end.

(** [torch.floor] on a float64: NaN and the infinities are returned as
    they are. *)
Definition torch_floor (x : spec_float) : spec_float :=
  match x with
  | S754_finite _ _ _ => of_Z64 (floorZ x)
  | _ => x
  end.

(** Arithmetic on 64-bit integers wraps around. *)
Definition wrap64 (n : Z) : Z := (n + 2 ^ 63) mod 2 ^ 64 - 2 ^ 63.

(** *** Voxel-grid builders *)

(** A row [[timestamp, x, y, polarity]] of the float64 event array. *)
Record event := {
  ev_t : spec_float; ev_x : spec_float; ev_y : spec_float; ev_p : spec_float
}.

(** A float32 array of rank 3: its shape and its flat, row-major buffer. *)
Record ndarray := { shape : Z * Z * Z; data : list spec_float }.

(** [grid[b, y, x]], for non-negative indices. *)
Definition voxel (g : ndarray) (b y x : Z) : option spec_float :=
  let '(_, h, w) := shape g in
  data g !! Z.to_nat (x + y * w + b * w * h).

(** One step [a[i] += v] of [np.add.at] on a float32 array [a] with
    float64 values: the addition is resolved for the operand types
    (float32, float64), that is in float64, and its result is converted
    back to the float32 of the array. *)
Definition add_at_cell (c v : spec_float) : spec_float := cast32 (add64 (cast64 c) v).

(** [np.add.at(a, indices, values)]: unbuffered [a[i] += v] for each pair
    in turn.  An index in [[-n, 0)] counts from the end; any other index
    outside [[0, n)] raises [IndexError] ([None]). *)
Definition np_add_at (a : list spec_float) (indices : list Z) (values : list spec_float)
  : option (list spec_float) :=
  foldl (fun acc '(i, v) =>
    a ← acc;
    let n := Z.of_nat (length a) in
    if (- n <=? i) && (i <? n) then
      Some (alter (fun c => add_at_cell c v) (Z.to_nat (if i <? 0 then i + n else i)) a)
    else None)
    (Some a) (zip indices values).

(** [a.index_add_(dim=0, index, source)] on a float32 tensor with a
    float32 source, on the CPU: [a[i] += v] for each pair in turn; an
    index outside [[0, n)] is an error ([None]). *)
Definition index_add_ (a : list spec_float) (index : list Z) (source : list spec_float)
  : option (list spec_float) :=
  foldl (fun acc '(i, v) =>
    a ← acc;
    let n := Z.of_nat (length a) in
    if (0 <=? i) && (i <? n) then
      Some (alter (fun c => add32 c v) (Z.to_nat i) a)
    else None)
    (Some a) (zip index source).

(** The flat index [x + y * width + t * width * height], elementwise, in
    64-bit integers. *)
Definition flat_indices (width height : Z) (xs ys tis : list Z) : list Z :=
  map wrap64 (flat_indices width height xs ys tis).

(** [(num_bins - 1) * (t - first_stamp) / deltaT] in float64: the integer
    [num_bins - 1] is converted to float64, the product is rounded, then
    the quotient. *)
Definition normalize_stamp (num_bins : Z) (first_stamp deltaT t : spec_float)
  : spec_float :=
  div64 (mul64 (of_Z64 (num_bins - 1)) (sub64 t first_stamp)) deltaT.

Definition set_ev_t (e : event) (t : spec_float) : event :=
  {| ev_t := t; ev_x := ev_x e; ev_y := ev_y e; ev_p := ev_p e |}.

Definition set_ev_p (e : event) (p : spec_float) : event :=
  {| ev_t := ev_t e; ev_x := ev_x e; ev_y := ev_y e; ev_p := p |}.

(** [pols[pols == 0] = -1] on one element of a float64 and of a float32
    array. *)
Definition fix_polarity (p : spec_float) : spec_float :=
  if SFeqb p zero then SFopp one64 else p.

Definition fix_polarity32 (p : spec_float) : spec_float :=
  if SFeqb p zero then SFopp one32 else p.

(** [events_to_voxel_grid(events, num_bins, width, height)]: the final
    contents of the caller's event array, next to the grid or the
    exception raised.  [ts], [pols], [dts], [vals_left] and [vals_right]
    are float64 arrays, [xs], [ys] and [tis] 64-bit integer arrays, and
    the grid is a float32 array. *)
Definition events_to_voxel_grid (events : list event) (num_bins width height : Z)
  : list event * (exn + ndarray) :=
  if negb (0 <? num_bins) then (events, inl AssertionError)
  else if negb (0 <? width) then (events, inl AssertionError)
  else if negb (0 <? height) then (events, inl AssertionError)
  else
    let voxel_grid := replicate (Z.to_nat (num_bins * height * width)) zero in
    match last events, head events with
    | Some e_last, Some e_first =>
        let last_stamp := ev_t e_last in
        let first_stamp := ev_t e_first in
        let deltaT := sub64 last_stamp first_stamp in
        let deltaT := if SFeqb deltaT zero then one64 else deltaT in
        let events :=
          map (fun e => set_ev_t e (normalize_stamp num_bins first_stamp deltaT (ev_t e)))
            events in
        let ts := map ev_t events in
        let xs := map (fun e => astype_int (ev_x e)) events in
        let ys := map (fun e => astype_int (ev_y e)) events in
        let events := map (fun e => set_ev_p e (fix_polarity (ev_p e))) events in
        let pols := map ev_p events in
        let tis := map astype_int ts in
        let dts := zip_with (fun t ti => sub64 t (of_Z64 ti)) ts tis in
        let vals_left := zip_with (fun p dt => mul64 p (sub64 one64 dt)) pols dts in
        let vals_right := zip_with (fun p dt => mul64 p dt) pols dts in
        let valid_indices := map (fun ti => ti <? num_bins) tis in
        match np_add_at voxel_grid
                (flat_indices width height (mask valid_indices xs)
                   (mask valid_indices ys) (mask valid_indices tis))
                (mask valid_indices vals_left) with
        | None => (events, inl IndexError)
        | Some voxel_grid =>
            let valid_indices := map (fun ti => ti + 1 <? num_bins) tis in
            match np_add_at voxel_grid
                    (flat_indices width height (mask valid_indices xs)
                       (mask valid_indices ys)
                       (map (fun ti => ti + 1) (mask valid_indices tis)))
                    (mask valid_indices vals_right) with
            | None => (events, inl IndexError)
            | Some voxel_grid =>
                (events,
                 inr {| shape := (num_bins, height, width); data := voxel_grid |})
            end
        end
    | _, _ => (events, inl IndexError)
    end.

(** [events_to_voxel_grid_pytorch(events, num_bins, width, height, device)].
    [torch.from_numpy] shares the caller's buffer and [.to(device)] copies
    it only when the device is not the CPU.  [ts], [tis] and [dts] are
    float64 tensors; [pols] is a float32 copy of the polarity column and
    the weights [vals_left] and [vals_right] are computed in float32 from
    [pols] and [dts.float()]; the bounds checks compare the float64 [tis]
    with [num_bins] converted to float64. *)
Definition events_to_voxel_grid_pytorch (events : list event)
    (num_bins width height : Z) (dev : device)
  : list event * (exn + ndarray) :=
  if negb (0 <? num_bins) then (events, inl AssertionError)
  else if negb (0 <? width) then (events, inl AssertionError)
  else if negb (0 <? height) then (events, inl AssertionError)
  else
    let events_torch := events in
    let voxel_grid := replicate (Z.to_nat (num_bins * height * width)) zero in
    match last events_torch, head events_torch with
    | Some e_last, Some e_first =>
        let last_stamp := ev_t e_last in
        let first_stamp := ev_t e_first in
        let deltaT := sub64 last_stamp first_stamp in
        let deltaT := if SFeqb deltaT zero then one64 else deltaT in
        let events_torch :=
          map (fun e => set_ev_t e (normalize_stamp num_bins first_stamp deltaT (ev_t e)))
            events_torch in
        let events := match dev with cpu => events_torch | cuda => events end in
        let ts := map ev_t events_torch in
        let xs := map (fun e => astype_int (ev_x e)) events_torch in
        let ys := map (fun e => astype_int (ev_y e)) events_torch in
        let pols := map (fun e => fix_polarity32 (cast32 (ev_p e))) events_torch in
        let tis := map torch_floor ts in
        let tis_long := map astype_int tis in
        let dts := zip_with sub64 ts tis in
        let vals_left :=
          zip_with (fun p dt => mul32 p (sub32 one32 (cast32 dt))) pols dts in
        let vals_right := zip_with (fun p dt => mul32 p (cast32 dt)) pols dts in
        let valid_indices :=
          map (fun ti => SFltb ti (of_Z64 num_bins) && SFleb zero ti) tis in
        match index_add_ voxel_grid
                (flat_indices width height (mask valid_indices xs)
                   (mask valid_indices ys) (mask valid_indices tis_long))
                (mask valid_indices vals_left) with
        | None => (events, inl IndexError)
        | Some voxel_grid =>
            let valid_indices :=
              map (fun ti => SFltb (add64 ti one64) (of_Z64 num_bins) && SFleb zero ti)
                tis in
            match index_add_ voxel_grid
                    (flat_indices width height (mask valid_indices xs)
                       (mask valid_indices ys)
                       (map (fun ti => ti + 1) (mask valid_indices tis_long)))
                    (mask valid_indices vals_right) with
            | None => (events, inl IndexError)
            | Some voxel_grid =>
                (events,
                 inr {| shape := (num_bins, height, width); data := voxel_grid |})
            end
        end
    | _, _ => (events, inl IndexError)
    end.

(** *** Channel compositor *)

(** [x.astype(np.uint8)] on a float: the value is truncated toward zero.
    The conversion of a value outside [[0, 256)], of a NaN or of an infinity
    is left open by C; here the integer part is reduced modulo 256, and a
    NaN or an infinity gives 0. *)
Definition astype_uint8 (x : spec_float) : Z :=
  match truncate x with
  | Some n => n mod 256
  | None => 0
  end.

Definition zero_row (row : list spec_float) : list spec_float :=
  map (fun _ => zero) row.

(** [shift_image(X, dx, dy)] on a float array. *)
Definition shift_image (X : list (list spec_float)) (dx dy : Z)
  : list (list spec_float) :=
  let X := np_roll X dy in
  let X := map (fun row => np_roll row dx) X in
  let X :=
    if 0 <? dy then set_slice 0 dy zero_row X
    else if dy <? 0 then set_slice dy (Z.of_nat (length X)) zero_row X
    else X in
  let X :=
    if 0 <? dx then map (set_slice 0 dx (fun _ => zero)) X
    else if dx <? 0 then
      map (fun row => set_slice dx (Z.of_nat (length row)) (fun _ => zero) row) X
    else X in
  X.

Section Format.
(** The channels are arrays of one floating point format, of precision
    [prec] and maximal exponent [emax]: float32 or float64.  A Python
    float literal that multiplies such an array is converted to its
    format. *)
Variables prec emax : Z.
Variable cv2_resize : list (list spec_float) -> list (list spec_float).
Variable cv2_cvtColor : conversion_code -> list (list (bgr Z)) -> list (list (bgr Z)).

Definition of_Z (n : Z) : spec_float := binary_normalize prec emax n 0 false.

(** The literal [0.5]. *)
Definition half : spec_float := SFdiv prec emax (of_Z 1) (of_Z 2).

(** [255.0 * x], rounded to the format of the array. *)
Definition scale_255 (x : spec_float) : spec_float := SFmul prec emax (of_Z 255) x.

(** [0.5 * (channels['G'] + channels['W'])]. *)
Definition green_estimate (G W : list (list spec_float)) : list (list spec_float) :=
  zip_with (zip_with (fun g w => SFmul prec emax half (SFadd prec emax g w))) G W.

(** [(255.0 * np.dstack([B, 0.5 * (G + W), R])).astype(np.uint8)]. *)
Definition reconstruction_bgr (B G W R : list (list spec_float)) : list (list (bgr Z)) :=
  let reconstruction_bgr := dstack B (green_estimate G W) R in
  map (map (fun '(b, g, r) =>
    (astype_uint8 (scale_255 b),
     astype_uint8 (scale_255 g),
     astype_uint8 (scale_255 r))))
    reconstruction_bgr.

(** [(255.0 * channels['grayscale']).astype(np.uint8)]. *)
Definition reconstruction_grayscale (grayscale : list (list spec_float))
  : list (list Z) :=
  map (map (fun v => astype_uint8 (scale_255 v))) grayscale.

(** [merge_channels_into_color_image(channels)]: the caller's mapping
    after the call, and the image returned or the exception raised. *)
Definition merge_channels_into_color_image
    (channels : gmap string (list (list spec_float)))
  : gmap string (list (list spec_float)) * (exn + list (list (bgr Z))) :=
  if negb (bool_decide (is_Some (channels !! "R"))) then (channels, inl AssertionError)
  else if negb (bool_decide (is_Some (channels !! "G"))) then (channels, inl AssertionError)
  else if negb (bool_decide (is_Some (channels !! "W"))) then (channels, inl AssertionError)
  else if negb (bool_decide (is_Some (channels !! "B"))) then (channels, inl AssertionError)
  else if negb (bool_decide (is_Some (channels !! "grayscale"))) then
    (channels, inl AssertionError)
  else
    let channels :=
      foldl (fun channels channel => alter cv2_resize channel channels)
        channels ["R"; "G"; "W"; "B"] in
    let channels := alter (fun X => shift_image X 1 1) "B" channels in
    let channels := alter (fun X => shift_image X 1 0) "G" channels in
    let channels := alter (fun X => shift_image X 0 1) "W" channels in
    let reconstruction_bgr :=
      reconstruction_bgr (channels !!! "B") (channels !!! "G")
        (channels !!! "W") (channels !!! "R") in
    let reconstruction_grayscale :=
      reconstruction_grayscale (channels !!! "grayscale") in
    (channels,
     inr (upsample_color_image cv2_cvtColor reconstruction_grayscale reconstruction_bgr LAB)).
End Format.

End IEEE.

(** ** Notions used in the statements *)

(** What the specification asks of one dimension: the working size is
    [unit * ceil(true / unit) + margin * unit], and the padding is the
    ceiling and the floor of half the difference. *)
Definition aligned_dimension (true unit margin working before after : Z) : Prop :=
  (exists c, unit * (c - 1) < true <= unit * c /\ working = unit * c + margin * unit)
  /\ (unit | working)
  /\ (margin = 0 -> true <= working /\ forall m, (unit | m) -> true <= m -> working <= m)
  /\ before = (working - true + 1) / 2
  /\ after = (working - true) / 2
  /\ before + after = working - true
  /\ before - after = (working - true) mod 2.

(** Rounding to the nearest integer, as the specification words the
    conversion to 8 bits. *)
Definition round_to_nearest (q : Q) : Z := Qfloor (q + (1 # 2)).

(** A stand-in for the factor-two upsampling, used where a concrete
    instance of the OpenCV parameter is needed: every pixel is
    repeated twice along both axes. *)
Definition pixel_doubling (X : image) : image :=
  flat_map (fun row => let row2 := flat_map (fun v => [v; v]) row in [row2; row2]) X.

(** The time bounds of a batch, as both builders compute them. *)
Definition first_stamp (events : list event) : Q := from_option ev_t 0%Q (head events).
Definition last_stamp (events : list event) : Q := from_option ev_t 0%Q (last events).
Definition deltaT (events : list event) : Q :=
  let d := (last_stamp events - first_stamp events)%Q in
  if Qeq_bool d 0 then 1%Q else d.

(** The normalized bin position and the effective polarity of an event of
    a batch. *)
Definition bin_position (num_bins : Z) (events : list event) (e : event) : Q :=
  normalize_stamp num_bins (first_stamp events) (deltaT events) (ev_t e).
Definition signed_polarity (e : event) : Q := fix_polarity (ev_p e).

(** The two contributions of an event whose integer bin is [b]. *)
Definition left_value (num_bins : Z) (events : list event) (b : Z) (e : event) : Q :=
  (signed_polarity e * (1 - (bin_position num_bins events e - inject_Z b)))%Q.
Definition right_value (num_bins : Z) (events : list event) (b : Z) (e : event) : Q :=
  (signed_polarity e * (bin_position num_bins events e - inject_Z b))%Q.

(** The caller's event array after the writes of the NumPy builder, and
    after those of the PyTorch builder on the CPU. *)
Definition rewritten (num_bins : Z) (events : list event) : list event :=
  map (fun e => {| ev_t := bin_position num_bins events e; ev_x := ev_x e;
                   ev_y := ev_y e; ev_p := signed_polarity e |}) events.
Definition restamped (num_bins : Z) (events : list event) : list event :=
  map (fun e => set_ev_t e (bin_position num_bins events e)) events.

(** The accumulation of both builders, event by event: [bin] is the
    conversion of a bin position to its integer bin, [valid_left] and
    [valid_right] the bound checks and [add] the scatter-add. *)
Definition voting (bin : Q -> Z) (valid_left valid_right : Z -> bool)
    (add : list Q -> list Z -> list Q -> option (list Q))
    (events : list event) (num_bins width height : Z) : option (list Q) :=
  let b e := bin (bin_position num_bins events e) in
  let cell e := astype_int (ev_x e) + astype_int (ev_y e) * width in
  let left := mask (map (fun e => valid_left (b e)) events) events in
  let right := mask (map (fun e => valid_right (b e)) events) events in
  g ← add (replicate (Z.to_nat (num_bins * height * width)) 0%Q)
        (map (fun e => cell e + b e * width * height) left)
        (map (fun e => left_value num_bins events (b e) e) left);
  add g (map (fun e => cell e + (b e + 1) * width * height) right)
    (map (fun e => right_value num_bins events (b e) e) right).

Definition grid_of (num_bins width height : Z) (r : option (list Q)) : exn + ndarray :=
  match r with
  | Some g => inr {| shape := (num_bins, height, width); data := g |}
  | None => inl IndexError
  end.

(** The accumulation [a[i] += v] over a list of (index, value) pairs
    whose indices are all in range. *)
Definition scatter (a : list Q) (updates : list (Z * Q)) : list Q :=
  foldl (fun a '(i, v) => alter (fun c => c + v)%Q (Z.to_nat i) a) a updates.

(** The (index, value) pairs that the left and the right accumulation of
    [voting] pass to the scatter-add. *)
Definition left_updates (bin : Q -> Z) (valid_left : Z -> bool)
    (events : list event) (num_bins width height : Z) : list (Z * Q) :=
  let b e := bin (bin_position num_bins events e) in
  map (fun e => (astype_int (ev_x e) + astype_int (ev_y e) * width + b e * width * height,
                 left_value num_bins events (b e) e))
    (mask (map (fun e => valid_left (b e)) events) events).

Definition right_updates (bin : Q -> Z) (valid_right : Z -> bool)
    (events : list event) (num_bins width height : Z) : list (Z * Q) :=
  let b e := bin (bin_position num_bins events e) in
  map (fun e => (astype_int (ev_x e) + astype_int (ev_y e) * width
                 + (b e + 1) * width * height,
                 right_value num_bins events (b e) e))
    (mask (map (fun e => valid_right (b e)) events) events).

(** The coordinates of every event address a pixel of the grid. *)
Definition in_frame (width height : Z) (events : list event) : Prop :=
  Forall (fun e => 0 <= astype_int (ev_x e) < width
                   /\ 0 <= astype_int (ev_y e) < height) events.

(** Entry [(n, c, y, x)] of a tensor of shape (N, C, H, W). *)
Definition tensor_entry (events : list (list image)) (n c y x : nat) : option Q :=
  sample ← events !! n; plane ← sample !! c; row ← plane !! y; row !! x.

(** The tensor has [C] planes of [H] rows of [W] entries in each sample. *)
Definition tensor_shape (C H W : nat) (events : list (list image)) : Prop :=
  Forall (fun sample =>
    length sample = C
    /\ Forall (fun plane =>
         length plane = H /\ Forall (fun row => length row = W) plane) sample)
    events.

(** The position an index in [[-n, n)] stands for. *)
Definition wrap_index (n : nat) (i : Z) : nat :=
  Z.to_nat (if i <? 0 then i + Z.of_nat n else i).

Definition index_in_range (n : nat) (i : Z) : Prop :=
  - Z.of_nat n <= i < Z.of_nat n.

(** Pixel [(y, x)] is one of the listed hot pixels. *)
Definition is_hot (H W : nat) (locations : list (Z * Z)) (y x : nat) : bool :=
  existsb (fun '(hx, hy) =>
    Nat.eqb (wrap_index H hy) y && Nat.eqb (wrap_index W hx) x) locations.

(** One plane with entry [(y, x)] cleared. *)
Definition clear_pixel (y x : nat) (plane : image) : image :=
  alter (fun row => <[x := 0%Q]> row) y plane.

(** The window of an [IntensityRescaler] once [__call__] has dropped the
    oldest entry, which it does when the window holds more than
    [auto_hdr_moving_average_size] entries. *)
Definition window_after_popleft (self : IntensityRescaler) : list (Q * Q) :=
  if auto_hdr_moving_average_size self <? Z.of_nat (length (intensity_bounds self))
  then tail (intensity_bounds self)
  else intensity_bounds self.

(** Both [robust_min] and [robust_max] return a bound on the region that
    [__call__] computes from an image. *)
Definition robust_bounds_return (robust_min robust_max : list Q -> Q -> exn + Q)
    (self : IntensityRescaler) (img : image) : Prop :=
  (exists rmin, robust_min (hdr_region (auto_hdr_border self) img)
                  (auto_hdr_min_percentile self) = inr rmin)
  /\ (exists rmax, robust_max (hdr_region (auto_hdr_border self) img)
                     (auto_hdr_max_percentile self) = inr rmax).

(** A stand-in for [robust_min] and [robust_max], used where a concrete
    instance of the parameters is needed: the first pixel of the region,
    and [IndexError] on an empty region. *)
Definition first_pixel (region : list Q) (percentile : Q) : exn + Q :=
  match region with
  | [] => inl IndexError
  | v :: _ => inr v
  end.

(** ** Notions used in the statements about the IEEE embedding *)

(** A sequence of additions [a[i] += v] at cells that exist, with the
    addition [upd] of the scatter-add. *)
Definition accumulate (upd : spec_float -> spec_float -> spec_float)
    (a : list spec_float) (updates : list (Z * spec_float)) : list spec_float :=
  foldl (fun a '(i, v) => alter (fun c => upd c v) (Z.to_nat i) a) a updates.

(** The outcome of a scatter-add as the result of a builder. *)
Definition grid_of64 (num_bins width height : Z) (r : option (list spec_float))
  : exn + IEEE.ndarray :=
  match r with
  | Some g => inr {| IEEE.shape := (num_bins, height, width); IEEE.data := g |}
  | None => inl IndexError
  end.

Definition is_finite (x : spec_float) : bool :=
  match x with
  | S754_zero _ | S754_finite _ _ _ => true
  | _ => false
  end.

(** A zero or a positive finite value. *)
Definition nonneg_finite (x : spec_float) : bool :=
  match x with
  | S754_zero _ => true
  | S754_finite s _ _ => negb s
  | _ => false
  end.

(** The rational value of a finite float. *)
Definition to_Q (x : spec_float) : Q :=
  match x with
  | S754_finite s m e => inject_Z (cond_Zopp s (Z.pos m)) * 2 ^ e
  | _ => 0
  end.

(** The float64 of a positive integer below [2^53], which is exact:
    the mantissa is shifted to 53 bits. *)
Definition canon64 (n : Z) : spec_float :=
  S754_finite false (Z.to_pos (n * 2 ^ (52 - Z.log2 n))) (Z.log2 n - 52).

(** The float64 nearest to [a / b], the value Python gives to a decimal
    literal such as [0.1]; and the float32 nearest to [a / b]. *)
Definition float64_of_ratio (a b : Z) : spec_float :=
  IEEE.div64 (IEEE.of_Z64 a) (IEEE.of_Z64 b).

Definition f32 (a b : Z) : spec_float :=
  SFdiv 24 128 (binary_normalize 24 128 a 0 false) (binary_normalize 24 128 b 0 false).

(** An event with integer coordinates and polarity. *)
Definition ev64 (t : spec_float) (x y p : Z) : IEEE.event :=
  {| IEEE.ev_t := t; IEEE.ev_x := IEEE.of_Z64 x; IEEE.ev_y := IEEE.of_Z64 y;
     IEEE.ev_p := IEEE.of_Z64 p |}.

(** The bin position that both builders store for an event of a batch:
    [(num_bins - 1) * (t - first_stamp) / deltaT] in float64, with the
    substitution of [1.0] for a [deltaT] of zero. *)
Definition position (num_bins : Z) (events : list IEEE.event) (e : IEEE.event)
  : spec_float :=
  let first_stamp := from_option IEEE.ev_t IEEE.zero (head events) in
  let last_stamp := from_option IEEE.ev_t IEEE.zero (last events) in
  let deltaT := IEEE.sub64 last_stamp first_stamp in
  let deltaT := if SFeqb deltaT IEEE.zero then IEEE.one64 else deltaT in
  IEEE.normalize_stamp num_bins first_stamp deltaT (IEEE.ev_t e).

(** The floor bin of an event. *)
Definition floor_bin (num_bins : Z) (events : list IEEE.event) (e : IEEE.event) : Z :=
  IEEE.floorZ (position num_bins events e).

(** The flat index of the cell of bin [b] at the pixel of an event. *)
Definition cell_index (width height : Z) (e : IEEE.event) (b : Z) : Z :=
  IEEE.astype_int (IEEE.ev_x e) + IEEE.astype_int (IEEE.ev_y e) * width
  + b * width * height.

Definition at_pixel (x y : Z) (e : IEEE.event) : bool :=
  (IEEE.astype_int (IEEE.ev_x e) =? x) && (IEEE.astype_int (IEEE.ev_y e) =? y).

(** The coordinates of every event lie inside the frame. *)
Definition in_frame64 (width height : Z) (events : list IEEE.event) : Prop :=
  Forall (fun e => 0 <= IEEE.astype_int (IEEE.ev_x e) < width
                   /\ 0 <= IEEE.astype_int (IEEE.ev_y e) < height) events.

(** The two weights of an event in the NumPy builder, float64 values:
    [pols * (1.0 - dts)] and [pols * dts] with [dts = ts - tis]. *)
Definition numpy_fraction (num_bins : Z) (events : list IEEE.event) (e : IEEE.event)
  : spec_float :=
  let p := position num_bins events e in
  IEEE.sub64 p (IEEE.of_Z64 (IEEE.astype_int p)).

Definition numpy_left (num_bins : Z) (events : list IEEE.event) (e : IEEE.event)
  : spec_float :=
  IEEE.mul64 (IEEE.fix_polarity (IEEE.ev_p e))
    (IEEE.sub64 IEEE.one64 (numpy_fraction num_bins events e)).

Definition numpy_right (num_bins : Z) (events : list IEEE.event) (e : IEEE.event)
  : spec_float :=
  IEEE.mul64 (IEEE.fix_polarity (IEEE.ev_p e)) (numpy_fraction num_bins events e).

(** The two weights of an event in the PyTorch builder, float32 values:
    [pols * (1.0 - dts.float())] and [pols * dts.float()] with
    [dts = ts - torch.floor(ts)] and [pols] the float32 polarity. *)
Definition torch_fraction (num_bins : Z) (events : list IEEE.event) (e : IEEE.event)
  : spec_float :=
  let p := position num_bins events e in
  IEEE.cast32 (IEEE.sub64 p (IEEE.torch_floor p)).

Definition torch_left (num_bins : Z) (events : list IEEE.event) (e : IEEE.event)
  : spec_float :=
  IEEE.mul32 (IEEE.fix_polarity32 (IEEE.cast32 (IEEE.ev_p e)))
    (IEEE.sub32 IEEE.one32 (torch_fraction num_bins events e)).

Definition torch_right (num_bins : Z) (events : list IEEE.event) (e : IEEE.event)
  : spec_float :=
  IEEE.mul32 (IEEE.fix_polarity32 (IEEE.cast32 (IEEE.ev_p e)))
    (torch_fraction num_bins events e).

(** The caller's event array after the writes of the NumPy builder. *)
Definition rewritten64 (num_bins : Z) (events : list IEEE.event) : list IEEE.event :=
  map (fun e => {| IEEE.ev_t := position num_bins events e; IEEE.ev_x := IEEE.ev_x e;
                   IEEE.ev_y := IEEE.ev_y e;
                   IEEE.ev_p := IEEE.fix_polarity (IEEE.ev_p e) |}) events.

(** A product [255.0 * v] that is finite, not negative and below 256. *)
Definition in_8bit_range (x : spec_float) : bool :=
  nonneg_finite x && (IEEE.floorZ x <? 256).

(** The stand-in for the factor-two upsampling, on a float array. *)
Definition pixel_doubling64 (X : list (list spec_float)) : list (list spec_float) :=
  flat_map (fun row => let row2 := flat_map (fun v => [v; v]) row in [row2; row2]) X.

(** * Properties *)

(** ** Rounding helpers *)

Lemma ceil_inject_div (a d : Z) :
  0 < d -> ceil (inject_Z a / inject_Z d) = (a + d - 1) / d.
Proof.
  intros Hd. unfold ceil, Qceiling.
  assert (E : (- (inject_Z a / inject_Z d) == (- a) # (Z.to_pos d))%Q).
  { unfold Qeq, Qdiv, Qinv, inject_Z, Qopp, Qmult; simpl.
    destruct d as [|p|p]; try lia. simpl. lia. }
  rewrite E. unfold Qfloor.
  replace (Z.pos (Z.to_pos d)) with d by lia.
  assert (H := Z.div_mod (- a) d ltac:(lia)).
  assert (H1 := Z.mod_pos_bound (- a) d Hd).
  assert (H2 := Z.div_mod (a + d - 1) d ltac:(lia)).
  assert (H3 := Z.mod_pos_bound (a + d - 1) d Hd).
  nia.
Qed.

Lemma floor_inject_half (a : Z) : floor (inject_Z a / 2) = a / 2.
Proof.
  unfold floor. assert (E : (inject_Z a / 2 == a # 2)%Q).
  { unfold Qeq, Qdiv, Qinv, inject_Z, Qmult; simpl. lia. }
  rewrite E. reflexivity.
Qed.

Lemma ceil_inject_half (a : Z) : ceil (inject_Z a / 2) = (a + 1) / 2.
Proof.
  change 2%Q with (inject_Z 2). rewrite ceil_inject_div by lia.
  f_equal. lia.
Qed.

Lemma floor_half_inject (a : Z) : floor ((1 # 2) * inject_Z a) = a / 2.
Proof.
  rewrite <- floor_inject_half. unfold floor. apply Qfloor_comp.
  unfold Qeq, Qdiv, Qinv, inject_Z, Qmult; simpl. lia.
Qed.

Lemma ceil_half_inject (a : Z) : ceil ((1 # 2) * inject_Z a) = (a + 1) / 2.
Proof.
  rewrite <- ceil_inject_half. unfold ceil. apply Qceiling_comp.
  unfold Qeq, Qdiv, Qinv, inject_Z, Qmult; simpl. lia.
Qed.

(** ** Size aligner *)

Lemma optimal_crop_size_eq (a k m : Z) :
  0 <= k ->
  optimal_crop_size a k m = 2 ^ k * ((a + 2 ^ k - 1) / 2 ^ k) + m * 2 ^ k.
Proof.
  intros Hk. unfold optimal_crop_size.
  rewrite ceil_inject_div by (apply Z.pow_pos_nonneg; lia). reflexivity.
Qed.

Lemma optimal_crop_size_bounds (a k : Z) :
  0 <= k ->
  a <= optimal_crop_size a k 0 < a + 2 ^ k.
Proof.
  intros Hk. rewrite optimal_crop_size_eq by assumption.
  assert (Hd : 0 < 2 ^ k) by (apply Z.pow_pos_nonneg; lia).
  assert (H := Z.div_mod (a + 2 ^ k - 1) (2 ^ k) ltac:(lia)).
  assert (H1 := Z.mod_pos_bound (a + 2 ^ k - 1) (2 ^ k) Hd).
  lia.
Qed.

Lemma optimal_crop_size_even_or_same (a k : Z) :
  0 <= k ->
  optimal_crop_size a k 0 = a \/ exists c, optimal_crop_size a k 0 = 2 * c.
Proof.
  intros Hk. rewrite optimal_crop_size_eq by assumption.
  destruct (Z.eq_dec k 0) as [-> | Hne].
  - left. change (2 ^ 0) with 1. rewrite Z.div_1_r. lia.
  - right. exists (2 ^ (k - 1) * ((a + 2 ^ k - 1) / 2 ^ k)).
    replace (2 ^ k) with (2 * 2 ^ (k - 1)) at 1.
    + lia.
    + rewrite <- Z.pow_succ_r by lia. f_equal. lia.
Qed.

(** With no safety margin the centre-based crop window starts right after
    the leading padding and spans the true size. *)
Lemma crop_window_is_padding (w h k : Z) :
  0 < w -> 0 < h -> 0 <= k ->
  let cp := CropParameters__init__ w h k 0 in
  ix0 cp = padding_left cp /\ ix1 cp = padding_left cp + w /\
  iy0 cp = padding_top cp /\ iy1 cp = padding_top cp + h /\
  0 <= padding_left cp /\ 0 <= padding_right cp /\
  0 <= padding_top cp /\ 0 <= padding_bottom cp.
Proof.
  intros Hw Hh Hk. cbn -[optimal_crop_size ceil floor Qdiv Qmult].
  rewrite !floor_inject_half, !ceil_inject_half, !floor_half_inject, !ceil_half_inject.
  pose proof (optimal_crop_size_bounds w k Hk) as Bw.
  pose proof (optimal_crop_size_bounds h k Hk) as Bh.
  pose proof (optimal_crop_size_even_or_same w k Hk) as Ew.
  pose proof (optimal_crop_size_even_or_same h k Hk) as Eh.
  generalize dependent (optimal_crop_size w k 0).
  generalize dependent (optimal_crop_size h k 0).
  intros H Bh Eh W Bw Ew.
  destruct Ew as [-> | [c ->]]; destruct Eh as [-> | [d ->]];
    Z.to_euclidean_division_equations; lia.
Qed.

Lemma aligned_dimension_intro (a k m : Z) :
  0 <= k ->
  aligned_dimension a (2 ^ k) m (optimal_crop_size a k m)
    (ceil ((1 # 2) * inject_Z (optimal_crop_size a k m - a)))
    (floor ((1 # 2) * inject_Z (optimal_crop_size a k m - a))).
Proof.
  intros Hk. rewrite ceil_half_inject, floor_half_inject.
  rewrite optimal_crop_size_eq by assumption.
  assert (Hd : 0 < 2 ^ k) by (apply Z.pow_pos_nonneg; lia).
  set (d := 2 ^ k) in *. set (c := (a + d - 1) / d).
  assert (Hc : d * (c - 1) < a <= d * c).
  { subst c. assert (H := Z.div_mod (a + d - 1) d ltac:(lia)).
    assert (H1 := Z.mod_pos_bound (a + d - 1) d Hd). lia. }
  repeat split.
  - exists c. lia.
  - exists (c + m). lia.
  - subst m. lia.
  - intros n [q ->] Hn. subst m. assert (c <= q) by nia. nia.
  - Z.to_euclidean_division_equations; lia.
  - Z.to_euclidean_division_equations; lia.
Qed.

(** C6: for a positive true size, [num_levels >= 0] and a non-negative
    safety margin, each working dimension is
    [2^num_levels * ceil(true / 2^num_levels) + safety_margin * 2^num_levels]
    (a multiple of [2^num_levels], the least one that is at least the true
    size when the margin is zero), the leading padding is the ceiling and
    the trailing padding the floor of half the difference, they add up to
    the difference, and the leading side takes the extra pixel when the
    difference is odd. *)
Theorem working_size_and_padding (true_width true_height num_levels safety_margin : Z) :
  0 < true_width -> 0 < true_height -> 0 <= num_levels -> 0 <= safety_margin ->
  let cp := CropParameters__init__ true_width true_height num_levels safety_margin in
  width_crop_size cp = optimal_crop_size true_width num_levels safety_margin
  /\ height_crop_size cp = optimal_crop_size true_height num_levels safety_margin
  /\ aligned_dimension true_width (2 ^ num_levels) safety_margin
       (width_crop_size cp) (padding_left cp) (padding_right cp)
  /\ aligned_dimension true_height (2 ^ num_levels) safety_margin
       (height_crop_size cp) (padding_top cp) (padding_bottom cp).
Proof.
  intros _ _ Hk _ cp. subst cp. cbn -[optimal_crop_size ceil floor Qmult].
  split; [reflexivity |]. split; [reflexivity |].
  split; apply aligned_dimension_intro; assumption.
Qed.

Lemma working_size_and_padding_witness :
  let cp := CropParameters__init__ 13 10 2 1 in
  width_crop_size cp = 20 /\ height_crop_size cp = 16
  /\ aligned_dimension 13 4 1 20 4 3 /\ aligned_dimension 10 4 1 16 3 3.
Proof.
  pose proof (working_size_and_padding 13 10 2 1
                ltac:(lia) ltac:(lia) ltac:(lia) ltac:(lia)) as H.
  exact H.
Defined.

(** ** Crop window *)

Lemma slice_bound_id (n i : Z) : 0 <= i <= n -> slice_bound n i = i.
Proof. intros H. unfold slice_bound. destruct (Z.ltb_spec i 0); lia. Qed.

Lemma py_slice_take_drop {A} (a b : Z) (l : list A) :
  0 <= a <= b -> b <= Z.of_nat (length l) ->
  py_slice a b l = take (Z.to_nat (b - a)) (drop (Z.to_nat a) l).
Proof.
  intros Hab Hb. unfold py_slice. rewrite !slice_bound_id by lia. reflexivity.
Qed.

Lemma crop_take_drop {A} (cp : CropParameters) (canvas : list (list A)) (H W : nat) :
  length canvas = H -> Forall (fun row => length row = W) canvas ->
  0 <= iy0 cp <= iy1 cp -> iy1 cp <= Z.of_nat H ->
  0 <= ix0 cp <= ix1 cp -> ix1 cp <= Z.of_nat W ->
  crop cp canvas =
    map (fun row => take (Z.to_nat (ix1 cp - ix0 cp)) (drop (Z.to_nat (ix0 cp)) row))
      (take (Z.to_nat (iy1 cp - iy0 cp)) (drop (Z.to_nat (iy0 cp)) canvas)).
Proof.
  intros HH HW Hy0 Hy1 Hx0 Hx1. unfold crop.
  rewrite (py_slice_take_drop (iy0 cp)) by lia.
  apply Forall_fmap_ext_1. apply Forall_take, Forall_drop.
  eapply Forall_impl; [exact HW |]. intros row Hrow. simpl in Hrow.
  apply py_slice_take_drop; lia.
Qed.

Lemma crop_pixel {A} (cp : CropParameters) (canvas : list (list A)) (H W : nat) (y x : nat) :
  length canvas = H -> Forall (fun row => length row = W) canvas ->
  0 <= iy0 cp <= iy1 cp -> iy1 cp <= Z.of_nat H ->
  0 <= ix0 cp <= ix1 cp -> ix1 cp <= Z.of_nat W ->
  (y < Z.to_nat (iy1 cp - iy0 cp))%nat -> (x < Z.to_nat (ix1 cp - ix0 cp))%nat ->
  crop cp canvas !! y ≫= (.!! x)
  = canvas !! (Z.to_nat (iy0 cp) + y)%nat ≫= (.!! (Z.to_nat (ix0 cp) + x)%nat).
Proof.
  intros HH HW Hy0 Hy1 Hx0 Hx1 Hy Hx.
  rewrite (crop_take_drop cp canvas H W) by assumption.
  rewrite list_lookup_fmap, lookup_take_lt, lookup_drop by assumption.
  destruct (canvas !! _) as [row |]; [| reflexivity]. simpl.
  rewrite lookup_take_lt, lookup_drop by assumption. reflexivity.
Qed.

Lemma crop_shape {A} (cp : CropParameters) (canvas : list (list A)) (H W : nat) :
  length canvas = H -> Forall (fun row => length row = W) canvas ->
  0 <= iy0 cp <= iy1 cp -> iy1 cp <= Z.of_nat H ->
  0 <= ix0 cp <= ix1 cp -> ix1 cp <= Z.of_nat W ->
  length (crop cp canvas) = Z.to_nat (iy1 cp - iy0 cp)
  /\ Forall (fun row => length row = Z.to_nat (ix1 cp - ix0 cp)) (crop cp canvas).
Proof.
  intros HH HW Hy0 Hy1 Hx0 Hx1.
  rewrite (crop_take_drop cp canvas H W) by assumption. split.
  - rewrite length_fmap, length_take, length_drop. lia.
  - apply Forall_fmap, Forall_take, Forall_drop.
    eapply Forall_impl; [exact HW |]. intros row Hrow. simpl in *.
    rewrite length_take, length_drop. lia.
Qed.

(** C7: for a 13 x 13 true size and two levels (no safety margin) the
    working size is 16 x 16, the padding is 2 on the left and on top and 1
    on the right and at the bottom, the centre is (8, 8), the crop window
    is [2:15] along both axes, and applied to any 16 x 16 canvas it
    returns the 13 x 13 sub-image that starts at row 2, column 2. *)
Theorem alignment_13_13_2 {A} (canvas : list (list A)) :
  length canvas = 16%nat -> Forall (fun row => length row = 16%nat) canvas ->
  let cp := CropParameters__init__ 13 13 2 0 in
  width_crop_size cp = 16 /\ height_crop_size cp = 16
  /\ padding_left cp = 2 /\ padding_right cp = 1
  /\ padding_top cp = 2 /\ padding_bottom cp = 1
  /\ cx cp = 8 /\ cy cp = 8
  /\ ix0 cp = 2 /\ ix1 cp = 15 /\ iy0 cp = 2 /\ iy1 cp = 15
  /\ length (crop cp canvas) = 13%nat
  /\ Forall (fun row => length row = 13%nat) (crop cp canvas)
  /\ forall y x : nat, (y < 13)%nat -> (x < 13)%nat ->
       crop cp canvas !! y ≫= (.!! x) = canvas !! (2 + y)%nat ≫= (.!! (2 + x)%nat).
Proof.
  intros HH HW cp.
  do 12 (split; [reflexivity |]).
  destruct (crop_shape cp canvas 16 16 HH HW) as [Hl Hr];
    try (vm_compute; intuition congruence).
  split; [exact Hl |]. split; [exact Hr |].
  intros y x Hy Hx.
  apply (crop_pixel cp canvas 16 16 y x HH HW);
    try (vm_compute; intuition congruence); assumption.
Qed.

Lemma alignment_13_13_2_witness :
  let canvas := replicate 16 (replicate 16 0%Q) in
  let cp := CropParameters__init__ 13 13 2 0 in
  width_crop_size cp = 16 /\ height_crop_size cp = 16
  /\ padding_left cp = 2 /\ padding_right cp = 1
  /\ padding_top cp = 2 /\ padding_bottom cp = 1
  /\ cx cp = 8 /\ cy cp = 8
  /\ ix0 cp = 2 /\ ix1 cp = 15 /\ iy0 cp = 2 /\ iy1 cp = 15
  /\ length (crop cp canvas) = 13%nat
  /\ Forall (fun row => length row = 13%nat) (crop cp canvas)
  /\ forall y x : nat, (y < 13)%nat -> (x < 13)%nat ->
       crop cp canvas !! y ≫= (.!! x) = canvas !! (2 + y)%nat ≫= (.!! (2 + x)%nat).
Proof.
  intros canvas.
  apply (alignment_13_13_2 canvas).
  - reflexivity.
  - subst canvas. simpl. repeat constructor.
Defined.

(** ** Padding followed by cropping *)

Lemma pad_row_window {A} (fill : nat -> A) (l r : nat) (row : list A) :
  take (length row) (drop l (pad_row fill l r row)) = row.
Proof.
  unfold pad_row.
  rewrite drop_app_length' by (rewrite length_fmap, length_seq; reflexivity).
  apply take_app_length.
Qed.

Lemma pad_window {A} (fill : nat -> nat -> A) (cp : CropParameters) (img : list (list A)) :
  take (length img) (drop (Z.to_nat (padding_top cp)) (pad fill cp img))
  = imap (fun y row =>
            pad_row (fill (Z.to_nat (padding_top cp) + y)%nat)
              (Z.to_nat (padding_left cp)) (Z.to_nat (padding_right cp)) row) img.
Proof.
  unfold pad.
  rewrite drop_app_length' by (rewrite length_fmap, length_seq; reflexivity).
  apply take_app_length'. rewrite length_imap. reflexivity.
Qed.

Lemma pad_shape {A} (fill : nat -> nat -> A) (cp : CropParameters) (img : list (list A)) :
  Forall (fun row => length row = Z.to_nat (width cp)) img ->
  length (pad fill cp img)
  = (Z.to_nat (padding_top cp) + length img + Z.to_nat (padding_bottom cp))%nat
  /\ Forall (fun row => length row
       = (Z.to_nat (padding_left cp) + Z.to_nat (width cp) + Z.to_nat (padding_right cp))%nat)
       (pad fill cp img).
Proof.
  intros Hrows. unfold pad. split.
  - rewrite !length_app, !length_fmap, !length_seq, length_imap. lia.
  - rewrite !Forall_app. repeat split.
    + apply Forall_fmap, Forall_forall. intros Y _. simpl.
      rewrite length_fmap, length_seq. reflexivity.
    + apply Forall_lookup. intros i row Hi.
      apply list_lookup_imap_Some in Hi as (row0 & Hrow0 & ->).
      unfold pad_row. rewrite !length_app, !length_fmap, !length_seq.
      rewrite (Forall_lookup_1 _ _ _ _ Hrows Hrow0). lia.
    + apply Forall_fmap, Forall_forall. intros Y _. simpl.
      rewrite length_fmap, length_seq. reflexivity.
Qed.

(** C4: with no safety margin, padding a true-resolution image by the
    computed amounts, whatever the border is filled with, and cropping
    the result with the centre-based window gives the image back; the
    window is exactly the part of the canvas that the image occupies. *)
Theorem crop_pad_roundtrip {A} (fill : nat -> nat -> A) (img : list (list A))
    (true_width true_height num_levels : Z) :
  0 < true_width -> 0 < true_height -> 0 <= num_levels ->
  length img = Z.to_nat true_height ->
  Forall (fun row => length row = Z.to_nat true_width) img ->
  let cp := CropParameters__init__ true_width true_height num_levels 0 in
  crop cp (pad fill cp img) = img
  /\ ix0 cp = padding_left cp /\ ix1 cp = padding_left cp + true_width
  /\ iy0 cp = padding_top cp /\ iy1 cp = padding_top cp + true_height.
Proof.
  intros Hw Hh Hk Hlen Hrows cp.
  destruct (crop_window_is_padding true_width true_height num_levels Hw Hh Hk)
    as (Hx0 & Hx1 & Hy0 & Hy1 & Hl & Hr & Ht & Hb).
  fold cp in Hx0, Hx1, Hy0, Hy1, Hl, Hr, Ht, Hb.
  assert (Hwcp : width cp = true_width) by reflexivity.
  clearbody cp. split; [| tauto].
  destruct (pad_shape fill cp img) as [HH HW]; [rewrite Hwcp; exact Hrows |].
  rewrite (crop_take_drop cp _ _ _ HH HW) by lia.
  rewrite Hy0, Hy1, Hx0, Hx1.
  replace (Z.to_nat (padding_top cp + true_height - padding_top cp))
    with (length img) by lia.
  rewrite pad_window, fmap_imap.
  rewrite <- (list_fmap_id img) at 2. rewrite <- imap_const.
  apply imap_ext. intros y row Hrow. simpl.
  replace (Z.to_nat (padding_left cp + true_width - padding_left cp))
    with (length row).
  - apply pad_row_window.
  - rewrite (Forall_lookup_1 _ _ _ _ Hrows Hrow). lia.
Qed.

Lemma crop_pad_roundtrip_witness :
  let img := [[1; 2; 3]; [4; 5; 6]]%Q in
  let cp := CropParameters__init__ 3 2 2 0 in
  crop cp (pad (fun _ _ => 7%Q) cp img) = img
  /\ ix0 cp = padding_left cp /\ ix1 cp = padding_left cp + 3
  /\ iy0 cp = padding_top cp /\ iy1 cp = padding_top cp + 2.
Proof.
  intros img.
  apply (crop_pad_roundtrip (fun _ _ => 7%Q) img 3 2 2).
  - lia.
  - lia.
  - lia.
  - reflexivity.
  - subst img. repeat constructor.
Defined.

(** ** Image shift *)

Lemma length_np_roll {A} (l : list A) (s : Z) : length (np_roll l s) = length l.
Proof.
  unfold np_roll. rewrite length_app, length_drop, length_take. lia.
Qed.

Lemma Forall_np_roll {A} (P : A -> Prop) (l : list A) (s : Z) :
  Forall P l -> Forall P (np_roll l s).
Proof.
  intros H. unfold np_roll. apply Forall_app. split.
  - apply Forall_drop, H.
  - apply Forall_take, H.
Qed.

Lemma np_roll_0 {A} (l : list A) : np_roll l 0 = l.
Proof.
  unfold np_roll. rewrite Z.mod_0_l by (destruct (Z.eqb_spec (Z.of_nat (length l)) 0); lia).
  rewrite Z.sub_0_r, Nat2Z.id, drop_all, firstn_all. reflexivity.
Qed.

Lemma lookup_np_roll_1 {A} (l : list A) (i : nat) :
  (0 < i < length l)%nat -> np_roll l 1 !! i = l !! (i - 1)%nat.
Proof.
  intros Hi. unfold np_roll.
  destruct (Z.eqb_spec (Z.of_nat (length l)) 0) as [E | _]; [lia |].
  rewrite Z.mod_1_l by lia.
  rewrite lookup_app_r; rewrite length_drop.
  - rewrite lookup_take_lt by lia. f_equal. lia.
  - lia.
Qed.

Lemma lookup_np_roll_01 {A} (l : list A) (d : Z) (i : nat) :
  d = 0 \/ d = 1 -> (i < length l)%nat -> d <= Z.of_nat i ->
  np_roll l d !! i = l !! (i - Z.to_nat d)%nat.
Proof.
  intros [-> | ->] Hi Hd.
  - rewrite np_roll_0. f_equal. lia.
  - rewrite lookup_np_roll_1 by lia. reflexivity.
Qed.

Lemma lookup_set_slice {A} (a b : Z) (f : A -> A) (l : list A) (i : nat) :
  set_slice a b f l !! i
  = (if (slice_bound (Z.of_nat (length l)) a <=? Z.of_nat i)
        && (Z.of_nat i <? slice_bound (Z.of_nat (length l)) b)
     then f else id) <$> l !! i.
Proof.
  unfold set_slice. rewrite list_lookup_imap.
  destruct (l !! i); simpl; [| reflexivity].
  destruct (_ && _); reflexivity.
Qed.

Lemma length_set_slice {A} (a b : Z) (f : A -> A) (l : list A) :
  length (set_slice a b f l) = length l.
Proof. unfold set_slice. apply length_imap. Qed.

(** The zero-filling step of [shift_image] along one axis, for a shift of
    zero or one. *)
Lemma lookup_zero_fill {A} (d : Z) (f : A -> A) (l : list A) (i : nat) :
  d = 0 \/ d = 1 ->
  (if 0 <? d then set_slice 0 d f l
   else if d <? 0 then set_slice d (Z.of_nat (length l)) f l else l) !! i
  = (if Z.of_nat i <? d then f else id) <$> l !! i.
Proof.
  intros [-> | ->].
  - change (0 <? 0) with false. cbv iota.
    destruct (Z.ltb_spec (Z.of_nat i) 0); [lia |].
    destruct (l !! i); reflexivity.
  - change (0 <? 1) with true. cbv iota.
    rewrite lookup_set_slice.
    destruct (l !! i) eqn:E; [| reflexivity].
    apply lookup_lt_Some in E. unfold slice_bound.
    change (0 <? 0) with false. change (1 <? 0) with false. cbv iota.
    destruct (Z.leb_spec (Z.min 0 (Z.of_nat (length l))) (Z.of_nat i)); [| lia].
    destruct (Z.ltb_spec (Z.of_nat i) (Z.min 1 (Z.of_nat (length l))));
      destruct (Z.ltb_spec (Z.of_nat i) 1); try reflexivity; lia.
Qed.

Lemma shift_image_unfold (X : image) (dx dy : Z) :
  shift_image X dx dy =
  let X1 := map (fun row => np_roll row dx) (np_roll X dy) in
  let X2 := if 0 <? dy then set_slice 0 dy zero_row X1
            else if dy <? 0 then set_slice dy (Z.of_nat (length X1)) zero_row X1
            else X1 in
  map (fun row => if 0 <? dx then set_slice 0 dx (fun _ => 0%Q) row
                  else if dx <? 0 then
                    set_slice dx (Z.of_nat (length row)) (fun _ => 0%Q) row
                  else row) X2.
Proof.
  unfold shift_image. cbv zeta.
  destruct (0 <? dx); [reflexivity |].
  destruct (dx <? 0); [reflexivity |].
  rewrite list_fmap_id. reflexivity.
Qed.

(** The pixel of [shift_image X dx dy] at (y, x), for shifts of zero or
    one on an [h x w] array. *)
Lemma shift_image_pixel (X : image) (h w : nat) (dx dy : Z) (y x : nat) :
  length X = h -> Forall (fun row => length row = w) X ->
  dx = 0 \/ dx = 1 -> dy = 0 \/ dy = 1 ->
  (y < h)%nat -> (x < w)%nat ->
  shift_image X dx dy !! y ≫= (.!! x)
  = if (Z.of_nat y <? dy) || (Z.of_nat x <? dx) then Some 0%Q
    else X !! (y - Z.to_nat dy)%nat ≫= (.!! (x - Z.to_nat dx)%nat).
Proof.
  intros Hh Hw Hdx Hdy Hy Hx.
  rewrite shift_image_unfold. cbv zeta.
  rewrite list_lookup_fmap, (lookup_zero_fill dy) by assumption.
  rewrite list_lookup_fmap.
  assert (Hrolled : Forall (fun row => length row = w) (np_roll X dy))
    by (apply Forall_np_roll, Hw).
  destruct (np_roll X dy !! y) as [r |] eqn:Er.
  2:{ apply lookup_ge_None in Er. rewrite length_np_roll in Er. lia. }
  assert (Hr : length r = w) by (exact (Forall_lookup_1 _ _ _ _ Hrolled Er)).
  simpl. rewrite (lookup_zero_fill dx) by assumption.
  destruct (Z.ltb_spec (Z.of_nat y) dy) as [Hlt | Hge]; simpl.
  - unfold zero_row. rewrite list_lookup_fmap.
    destruct (np_roll r dx !! x) eqn:Ex.
    + simpl. destruct (Z.of_nat x <? dx); reflexivity.
    + apply lookup_ge_None in Ex. rewrite length_np_roll in Ex. lia.
  - rewrite lookup_np_roll_01 in Er by (assumption || lia).
    rewrite Er. simpl.
    destruct (Z.ltb_spec (Z.of_nat x) dx) as [Hxlt | Hxge].
    + destruct (np_roll r dx !! x) eqn:Ex; [reflexivity |].
      apply lookup_ge_None in Ex. rewrite length_np_roll in Ex. lia.
    + rewrite lookup_np_roll_01 by (assumption || lia).
      destruct (r !! _); reflexivity.
Qed.

Lemma shift_image_shape (X : image) (h w : nat) (dx dy : Z) :
  length X = h -> Forall (fun row => length row = w) X ->
  length (shift_image X dx dy) = h
  /\ Forall (fun row => length row = w) (shift_image X dx dy).
Proof.
  intros Hh Hw. rewrite shift_image_unfold. cbv zeta.
  set (X1 := map (fun row => np_roll row dx) (np_roll X dy)).
  assert (H1 : length X1 = h /\ Forall (fun row => length row = w) X1).
  { subst X1. split.
    - rewrite length_fmap, length_np_roll. exact Hh.
    - apply Forall_fmap. eapply Forall_impl; [apply Forall_np_roll, Hw |].
      intros row Hrow. simpl. rewrite length_np_roll. exact Hrow. }
  destruct H1 as [Hl1 Hw1].
  assert (Hz : forall a b, length (set_slice a b zero_row X1) = h
            /\ Forall (fun row => length row = w) (set_slice a b zero_row X1)).
  { intros a b. split; [rewrite length_set_slice; exact Hl1 |].
    apply Forall_lookup. intros i row Hi. rewrite lookup_set_slice in Hi.
    destruct (X1 !! i) as [r |] eqn:Er; [| discriminate].
    pose proof (Forall_lookup_1 _ _ _ _ Hw1 Er) as Hlen. simpl in Hlen.
    simpl in Hi. destruct (_ && _); injection Hi as <-; [| exact Hlen].
    unfold zero_row. rewrite length_fmap. exact Hlen. }
  match goal with
  | |- context [map _ ?X2] =>
      assert (H2 : length X2 = h /\ Forall (fun row => length row = w) X2)
  end.
  { destruct (0 <? dy); [apply Hz |]. destruct (dy <? 0); [apply Hz |]. tauto. }
  destruct H2 as [Hl2 Hw2]. split.
  - rewrite length_fmap. exact Hl2.
  - apply Forall_fmap. eapply Forall_impl; [exact Hw2 |].
    intros row Hrow. simpl in *.
    destruct (0 <? dx); [rewrite length_set_slice; exact Hrow |].
    destruct (dx <? 0); [rewrite length_set_slice; exact Hrow | exact Hrow].
Qed.

(** ** Channel compositor *)

Section CompositorFacts.
Variable cv2_resize : image -> image.
Variable cv2_cvtColor : conversion_code -> list (list (bgr Z)) -> list (list (bgr Z)).
Variable channels : gmap string image.
Variables r g w b gray : image.
Hypothesis HR : channels !! "R" = Some r.
Hypothesis HG : channels !! "G" = Some g.
Hypothesis HW : channels !! "W" = Some w.
Hypothesis HB : channels !! "B" = Some b.
Hypothesis Hgray : channels !! "grayscale" = Some gray.

Let run := merge_channels_into_color_image cv2_resize cv2_cvtColor channels.

Lemma merge_channels_state :
  run.1 =
    alter (fun X => shift_image X 0 1) "W"
      (alter (fun X => shift_image X 1 0) "G"
         (alter (fun X => shift_image X 1 1) "B"
            (alter cv2_resize "B"
               (alter cv2_resize "W"
                  (alter cv2_resize "G" (alter cv2_resize "R" channels)))))).
Proof using HR HG HW HB Hgray.
  subst run. unfold merge_channels_into_color_image.
  rewrite HR, HG, HW, HB, Hgray.
  rewrite !bool_decide_eq_true_2 by (eexists; reflexivity).
  reflexivity.
Qed.

Lemma merge_channels_lookup :
  run.1 !! "R" = Some (cv2_resize r)
  /\ run.1 !! "G" = Some (shift_image (cv2_resize g) 1 0)
  /\ run.1 !! "W" = Some (shift_image (cv2_resize w) 0 1)
  /\ run.1 !! "B" = Some (shift_image (cv2_resize b) 1 1)
  /\ run.1 !! "grayscale" = Some gray.
Proof using HR HG HW HB Hgray.
  rewrite merge_channels_state.
  repeat split;
    repeat (rewrite lookup_alter_eq || rewrite lookup_alter_ne by discriminate);
    rewrite ?HR, ?HG, ?HW, ?HB, ?Hgray; reflexivity.
Qed.

Lemma merge_channels_result :
  run.2 =
    inr (upsample_color_image cv2_cvtColor
           (reconstruction_grayscale gray)
           (reconstruction_bgr
              (shift_image (cv2_resize b) 1 1) (shift_image (cv2_resize g) 1 0)
              (shift_image (cv2_resize w) 0 1) (cv2_resize r))
           LAB).
Proof using HR HG HW HB Hgray.
  destruct merge_channels_lookup as (ER & EG & EW & EB & Egr).
  rewrite merge_channels_state in ER, EG, EW, EB, Egr.
  subst run. unfold merge_channels_into_color_image.
  rewrite HR, HG, HW, HB, Hgray.
  rewrite !bool_decide_eq_true_2 by (eexists; reflexivity).
  cbn [negb foldl snd].
  rewrite (lookup_total_correct _ _ _ ER), (lookup_total_correct _ _ _ EG),
    (lookup_total_correct _ _ _ EW), (lookup_total_correct _ _ _ EB),
    (lookup_total_correct _ _ _ Egr).
  reflexivity.
Qed.
End CompositorFacts.

Lemma pixel_inv {A} (X : list (list A)) (y x : nat) (v : A) :
  X !! y ≫= (.!! x) = Some v -> exists row, X !! y = Some row /\ row !! x = Some v.
Proof.
  destruct (X !! y) as [row |]; simpl; [| discriminate]. eauto.
Qed.

(** C9: the shift of [shift_image] is clamped, not circular: for shifts
    [dx], [dy] of zero or one on an [h x w] array, the output keeps the
    shape, its pixel (y, x) is [X[y - dy][x - dx]] when [dy <= y] and
    [dx <= x], and zero in the [dy] top rows and the [dx] left columns.
    The compositor shifts B by (1, 1), G by (1, 0), W by (0, 1) and
    leaves R unshifted, and builds the color estimate from these. *)
Theorem shift_image_clamped
    (cv2_resize : image -> image)
    (cv2_cvtColor : conversion_code -> list (list (bgr Z)) -> list (list (bgr Z)))
    (channels : gmap string image) (r g w b gray : image)
    (X : image) (h wd : nat) (dx dy : Z) (y x : nat) :
  channels !! "R" = Some r -> channels !! "G" = Some g ->
  channels !! "W" = Some w -> channels !! "B" = Some b ->
  channels !! "grayscale" = Some gray ->
  length X = h -> Forall (fun row => length row = wd) X ->
  dx = 0 \/ dx = 1 -> dy = 0 \/ dy = 1 -> (y < h)%nat -> (x < wd)%nat ->
  let run := merge_channels_into_color_image cv2_resize cv2_cvtColor channels in
  shift_image X dx dy !! y ≫= (.!! x)
    = (if (Z.of_nat y <? dy) || (Z.of_nat x <? dx) then Some 0%Q
       else X !! (y - Z.to_nat dy)%nat ≫= (.!! (x - Z.to_nat dx)%nat))
  /\ length (shift_image X dx dy) = h
  /\ Forall (fun row => length row = wd) (shift_image X dx dy)
  /\ run.1 !! "B" = Some (shift_image (cv2_resize b) 1 1)
  /\ run.1 !! "G" = Some (shift_image (cv2_resize g) 1 0)
  /\ run.1 !! "W" = Some (shift_image (cv2_resize w) 0 1)
  /\ run.1 !! "R" = Some (cv2_resize r)
  /\ run.2 = inr (upsample_color_image cv2_cvtColor
                    (reconstruction_grayscale gray)
                    (reconstruction_bgr
                       (shift_image (cv2_resize b) 1 1)
                       (shift_image (cv2_resize g) 1 0)
                       (shift_image (cv2_resize w) 0 1) (cv2_resize r))
                    LAB).
Proof.
  intros HR HG HW HB Hgray Hh Hwd Hdx Hdy Hy Hx run.
  destruct (merge_channels_lookup cv2_resize cv2_cvtColor channels r g w b gray
              HR HG HW HB Hgray) as (ER & EG & EW & EB & _).
  destruct (shift_image_shape X h wd dx dy Hh Hwd) as [Hl Hrows].
  split; [apply (shift_image_pixel X h wd); assumption |].
  split; [exact Hl |]. split; [exact Hrows |].
  split; [exact EB |]. split; [exact EG |]. split; [exact EW |].
  split; [exact ER |].
  apply merge_channels_result; assumption.
Qed.

Lemma shift_image_clamped_witness :
  let channels : gmap string image :=
    <["R" := [[1 # 2]]%Q]> (<["G" := [[1 # 4]]%Q]> (<["W" := [[3 # 4]]%Q]>
      (<["B" := [[1 # 8]]%Q]> (<["grayscale" := [[3 # 8; 1]; [0; 1 # 2]]%Q]> ∅)))) in
  let X := [[1; 2; 3]; [4; 5; 6]]%Q in
  let run := merge_channels_into_color_image pixel_doubling (fun _ img => img) channels in
  shift_image X 1 1 !! 1%nat ≫= (.!! 2%nat) = Some 2%Q
  /\ length (shift_image X 1 1) = 2%nat
  /\ Forall (fun row => length row = 3%nat) (shift_image X 1 1)
  /\ run.1 !! "B" = Some (shift_image (pixel_doubling [[1 # 8]]%Q) 1 1)
  /\ run.1 !! "G" = Some (shift_image (pixel_doubling [[1 # 4]]%Q) 1 0)
  /\ run.1 !! "W" = Some (shift_image (pixel_doubling [[3 # 4]]%Q) 0 1)
  /\ run.1 !! "R" = Some (pixel_doubling [[1 # 2]]%Q)
  /\ run.2 = inr (upsample_color_image (fun _ img => img)
                    (reconstruction_grayscale [[3 # 8; 1]; [0; 1 # 2]]%Q)
                    (reconstruction_bgr
                       (shift_image (pixel_doubling [[1 # 8]]%Q) 1 1)
                       (shift_image (pixel_doubling [[1 # 4]]%Q) 1 0)
                       (shift_image (pixel_doubling [[3 # 4]]%Q) 0 1)
                       (pixel_doubling [[1 # 2]]%Q))
                    LAB).
Proof.
  intros channels X.
  apply (shift_image_clamped pixel_doubling (fun _ img => img) channels
           [[1 # 2]]%Q [[1 # 4]]%Q [[3 # 4]]%Q [[1 # 8]]%Q
           [[3 # 8; 1]; [0; 1 # 2]]%Q X 2 3 1 1 1 2).
  - vm_compute. reflexivity.
  - vm_compute. reflexivity.
  - vm_compute. reflexivity.
  - vm_compute. reflexivity.
  - vm_compute. reflexivity.
  - reflexivity.
  - subst X. repeat constructor.
  - right. reflexivity.
  - right. reflexivity.
  - lia.
  - lia.
Defined.

(** ** Voxel-grid builders: from columns to events *)

Lemma mask_map {A B} (f : A -> B) (valid : list bool) (l : list A) :
  mask valid (map f l) = map f (mask valid l).
Proof.
  revert l. induction valid as [| v valid IH]; intros [| x l]; simpl; try reflexivity.
  destruct v; simpl; rewrite IH; reflexivity.
Qed.

Lemma zip_with_map_same {A B C D} (f : B -> C -> D) (g : A -> B) (h : A -> C) (l : list A) :
  zip_with f (map g l) (map h l) = map (fun x => f (g x) (h x)) l.
Proof. induction l as [| x l IH]; simpl; [| rewrite IH]; reflexivity. Qed.

Lemma flat_indices_map {A} (width height : Z) (fx fy ft : A -> Z) (l : list A) :
  flat_indices width height (map fx l) (map fy l) (map ft l)
  = map (fun e => fx e + fy e * width + ft e * width * height) l.
Proof.
  unfold flat_indices. rewrite !map_map, !zip_with_map_same. reflexivity.
Qed.

Lemma first_stamp_head (events : list event) (e : event) :
  head events = Some e -> first_stamp events = ev_t e.
Proof. intros H. unfold first_stamp. rewrite H. reflexivity. Qed.

Lemma last_stamp_last (events : list event) (e : event) :
  last events = Some e -> last_stamp events = ev_t e.
Proof. intros H. unfold last_stamp. rewrite H. reflexivity. Qed.

Lemma events_to_voxel_grid_voting (events : list event) (num_bins width height : Z) :
  0 < num_bins -> 0 < width -> 0 < height -> events <> [] ->
  events_to_voxel_grid events num_bins width height
  = (rewritten num_bins events,
     grid_of num_bins width height
       (voting astype_int (fun ti => ti <? num_bins) (fun ti => ti + 1 <? num_bins)
          np_add_at events num_bins width height)).
Proof.
  intros Hn Hw Hh Hne. unfold events_to_voxel_grid.
  destruct (Z.ltb_spec 0 num_bins); [| lia].
  destruct (Z.ltb_spec 0 width); [| lia].
  destruct (Z.ltb_spec 0 height); [| lia].
  cbn [negb].
  destruct (last events) as [e1 |] eqn:Hlast.
  2:{ apply last_None in Hlast. contradiction. }
  destruct (head events) as [e0 |] eqn:Hhead.
  2:{ apply head_None in Hhead. contradiction. }
  cbv zeta. unfold voting, rewritten, left_value, right_value, bin_position,
    signed_polarity, deltaT.
  rewrite (first_stamp_head _ _ Hhead), (last_stamp_last _ _ Hlast).
  rewrite !map_map, !zip_with_map_same, !mask_map, !map_map, !flat_indices_map.
  cbn [ev_t ev_x ev_y ev_p set_ev_t set_ev_p].
  destruct (np_add_at _ _ _) as [g |]; [| reflexivity].
  cbn [mbind option_bind].
  match goal with
  | |- match ?r with Some _ => _ | None => (?es, _) end = _ =>
      transitivity (es, grid_of num_bins width height r);
        [destruct r; reflexivity |]
  end.
  reflexivity.
Qed.

Lemma events_to_voxel_grid_pytorch_voting (events : list event)
    (num_bins width height : Z) (dev : device) :
  0 < num_bins -> 0 < width -> 0 < height -> events <> [] ->
  events_to_voxel_grid_pytorch events num_bins width height dev
  = (match dev with cpu => restamped num_bins events | cuda => events end,
     grid_of num_bins width height
       (voting torch_floor (fun ti => (ti <? num_bins) && (0 <=? ti))
          (fun ti => (ti + 1 <? num_bins) && (0 <=? ti))
          index_add_ events num_bins width height)).
Proof.
  intros Hn Hw Hh Hne. unfold events_to_voxel_grid_pytorch.
  destruct (Z.ltb_spec 0 num_bins); [| lia].
  destruct (Z.ltb_spec 0 width); [| lia].
  destruct (Z.ltb_spec 0 height); [| lia].
  cbn [negb].
  destruct (last events) as [e1 |] eqn:Hlast.
  2:{ apply last_None in Hlast. contradiction. }
  destruct (head events) as [e0 |] eqn:Hhead.
  2:{ apply head_None in Hhead. contradiction. }
  cbv zeta. unfold voting, restamped, left_value, right_value, bin_position,
    signed_polarity, deltaT.
  rewrite (first_stamp_head _ _ Hhead), (last_stamp_last _ _ Hlast).
  rewrite !map_map, !zip_with_map_same, !mask_map, !map_map, !flat_indices_map.
  cbn [ev_t ev_x ev_y ev_p set_ev_t set_ev_p].
  destruct (index_add_ _ _ _) as [g |]; [| reflexivity].
  cbn [mbind option_bind].
  match goal with
  | |- match ?r with Some _ => _ | None => (?es, _) end = _ =>
      transitivity (es, grid_of num_bins width height r);
        [destruct r; reflexivity |]
  end.
  reflexivity.
Qed.

(** ** Scatter-add *)

Lemma foldl_option_None {A B} (f : option A -> B -> option A) (l : list B) :
  (forall x, f None x = None) -> foldl f None l = None.
Proof. intros Hf. induction l as [| x l IH]; simpl; [| rewrite Hf]; auto. Qed.

Lemma np_add_at_cons (a : list Q) (i : Z) (idx : list Z) (v : Q) (vals : list Q) :
  np_add_at a (i :: idx) (v :: vals)
  = if (- Z.of_nat (length a) <=? i) && (i <? Z.of_nat (length a))
    then np_add_at
           (alter (fun c => c + v)%Q
              (Z.to_nat (if i <? 0 then i + Z.of_nat (length a) else i)) a)
           idx vals
    else None.
Proof.
  unfold np_add_at. simpl. destruct (_ && _); [reflexivity |].
  apply foldl_option_None. intros [j u]. reflexivity.
Qed.

Lemma index_add_cons (a : list Q) (i : Z) (idx : list Z) (v : Q) (vals : list Q) :
  index_add_ a (i :: idx) (v :: vals)
  = if (0 <=? i) && (i <? Z.of_nat (length a))
    then index_add_ (alter (fun c => c + v)%Q (Z.to_nat i) a) idx vals
    else None.
Proof.
  unfold index_add_. simpl. destruct (_ && _); [reflexivity |].
  apply foldl_option_None. intros [j u]. reflexivity.
Qed.

Lemma length_scatter (a : list Q) (updates : list (Z * Q)) :
  length (scatter a updates) = length a.
Proof.
  revert a. induction updates as [| [i v] updates IH]; intros a; simpl; [reflexivity |].
  unfold scatter in *. simpl. rewrite IH, length_alter. reflexivity.
Qed.

(** With every index in [[0, n)] both scatter-adds succeed and compute
    the same accumulation. *)
Lemma add_in_range (a : list Q) (idx : list Z) (vals : list Q) :
  Forall (fun i => 0 <= i < Z.of_nat (length a)) idx ->
  np_add_at a idx vals = Some (scatter a (zip idx vals))
  /\ index_add_ a idx vals = Some (scatter a (zip idx vals)).
Proof.
  revert a vals. induction idx as [| i idx IH]; intros a vals Hidx.
  - split; reflexivity.
  - destruct vals as [| v vals]; [split; reflexivity |].
    apply Forall_cons in Hidx as [Hi Hidx].
    rewrite np_add_at_cons, index_add_cons.
    destruct (Z.leb_spec (- Z.of_nat (length a)) i); [| lia].
    destruct (Z.leb_spec 0 i); [| lia].
    destruct (Z.ltb_spec i (Z.of_nat (length a))); [| lia].
    destruct (Z.ltb_spec i 0); [lia |].
    cbn [andb zip zip_with]. unfold scatter. cbn [foldl]. apply IH.
    rewrite length_alter. exact Hidx.
Qed.

(** ** Accumulation of a batch *)

Lemma mask_all {A} (v : A -> bool) (l : list A) :
  Forall (fun e => v e = true) l -> mask (map v l) l = l.
Proof.
  induction 1 as [| e l Hv _ IH]; simpl; [reflexivity |].
  rewrite Hv, IH. reflexivity.
Qed.

Lemma Forall_mask {A} (P : A -> Prop) (v : A -> bool) (l : list A) :
  Forall P l -> Forall (fun e => P e /\ v e = true) (mask (map v l) l).
Proof.
  induction 1 as [| e l HP _ IH]; simpl; [constructor |].
  destruct (v e) eqn:Hv; [constructor; auto | exact IH].
Qed.

Lemma index_in_grid (x y b num_bins width height : Z) :
  0 <= x < width -> 0 <= y < height -> 0 <= b < num_bins ->
  0 <= x + y * width + b * width * height
     < Z.of_nat (length (replicate (Z.to_nat (num_bins * height * width)) 0%Q)).
Proof.
  intros Hx Hy Hb. rewrite length_replicate.
  assert (0 < width * height) by (apply Z.mul_pos_pos; lia).
  assert (0 <= num_bins * (width * height)) by (apply Z.mul_nonneg_nonneg; lia).
  replace (num_bins * height * width) with (num_bins * (width * height)) by ring.
  replace (b * width * height) with (b * (width * height)) by ring.
  rewrite Z2Nat.id by assumption.
  assert (0 <= y * width <= (height - 1) * width) by nia.
  assert (0 <= b * (width * height) <= (num_bins - 1) * (width * height)) by nia.
  lia.
Qed.

Lemma two_adds_in_range (a : list Q) (L R : list (Z * Q)) :
  Forall (fun u => 0 <= u.1 < Z.of_nat (length a)) L ->
  Forall (fun u => 0 <= u.1 < Z.of_nat (length a)) R ->
  (g ← np_add_at a (map fst L) (map snd L); np_add_at g (map fst R) (map snd R))
    = Some (scatter (scatter a L) R)
  /\ (g ← index_add_ a (map fst L) (map snd L); index_add_ g (map fst R) (map snd R))
    = Some (scatter (scatter a L) R).
Proof.
  intros HL HR.
  destruct (add_in_range a (map fst L) (map snd L)) as [E1 E2].
  { apply Forall_fmap. exact HL. }
  destruct (add_in_range (scatter a L) (map fst R) (map snd R)) as [E3 E4].
  { apply Forall_fmap. rewrite length_scatter. exact HR. }
  assert (Z : forall l : list (Z * Q), zip (map fst l) (map snd l) = l)
    by (intros l; apply zip_fst_snd).
  rewrite Z in E1, E2, E3, E4.
  rewrite E1, E2. cbn [mbind option_bind]. rewrite E3, E4. split; reflexivity.
Qed.

Lemma voting_in_range (bin : Q -> Z) (vl vr : Z -> bool)
    (events : list event) (num_bins width height : Z) :
  let zeros := replicate (Z.to_nat (num_bins * height * width)) 0%Q in
  let L := left_updates bin vl events num_bins width height in
  let R := right_updates bin vr events num_bins width height in
  Forall (fun u => 0 <= u.1 < Z.of_nat (length zeros)) L ->
  Forall (fun u => 0 <= u.1 < Z.of_nat (length zeros)) R ->
  voting bin vl vr np_add_at events num_bins width height
    = Some (scatter (scatter zeros L) R)
  /\ voting bin vl vr index_add_ events num_bins width height
    = Some (scatter (scatter zeros L) R).
Proof.
  intros zeros L R HL HR.
  destruct (two_adds_in_range zeros L R HL HR) as [E1 E2].
  rewrite <- E1 at 1. rewrite <- E2.
  unfold voting, L, R, left_updates, right_updates.
  rewrite !map_map. split; reflexivity.
Qed.

(** ** Out-of-range bins *)

(** The PyTorch builder never raises on a batch inside the frame, and
    only the events that pass its bound checks (with [0 <= b]) reach the
    grid. *)
Lemma pytorch_builder_clips (events : list event) (num_bins width height : Z)
    (dev : device) :
  0 < num_bins -> 0 < width -> 0 < height -> events <> [] ->
  in_frame width height events ->
  (events_to_voxel_grid_pytorch events num_bins width height dev).2
  = inr {| shape := (num_bins, height, width);
           data :=
             scatter
               (scatter (replicate (Z.to_nat (num_bins * height * width)) 0%Q)
                  (left_updates torch_floor (fun ti => (ti <? num_bins) && (0 <=? ti))
                     events num_bins width height))
               (right_updates torch_floor
                  (fun ti => (ti + 1 <? num_bins) && (0 <=? ti))
                  events num_bins width height) |}.
Proof.
  intros Hn Hw Hh Hne Hframe.
  rewrite events_to_voxel_grid_pytorch_voting by assumption. cbn [snd].
  destruct (voting_in_range torch_floor (fun ti => (ti <? num_bins) && (0 <=? ti))
              (fun ti => (ti + 1 <? num_bins) && (0 <=? ti))
              events num_bins width height) as [_ E].
  - unfold left_updates. apply Forall_fmap.
    eapply Forall_impl; [exact (Forall_mask _ _ _ Hframe) |].
    intros e [[Hx Hy] Hv]. unfold compose. cbv beta zeta. cbn [fst].
    apply andb_true_iff in Hv as [H1 H2].
    apply Z.ltb_lt in H1. apply Z.leb_le in H2. apply index_in_grid; lia.
  - unfold right_updates. apply Forall_fmap.
    eapply Forall_impl; [exact (Forall_mask _ _ _ Hframe) |].
    intros e [[Hx Hy] Hv]. unfold compose. cbv beta zeta. cbn [fst].
    apply andb_true_iff in Hv as [H1 H2].
    apply Z.ltb_lt in H1. apply Z.leb_le in H2. apply index_in_grid; lia.
  - rewrite E. reflexivity.
Qed.

(** C1: the NumPy builder does not drop an event whose bin is negative.
    In the first batch below the second event lies before the first
    timestamp and its bin position is -1: the flat index -1 wraps around
    and its polarity is added to the last cell, in bin 2, where the
    PyTorch builder (which checks [0 <= b]) returns the grid of the two
    other events.  With a bin position of -1/2 (floor bin -1) the
    conversion to an integer truncates to bin 0, and 3/2 and -1/2 are
    added to bins 0 and 1.  With a bin position of -4 the index is out of
    bounds and the NumPy builder raises. *)
Theorem negative_bin_is_not_dropped :
  let e0 := {| ev_t := 0; ev_x := 0; ev_y := 0; ev_p := 1 |}%Q in
  let early := {| ev_t := -1; ev_x := 0; ev_y := 0; ev_p := 1 |}%Q in
  let half := {| ev_t := -1 # 2; ev_x := 0; ev_y := 0; ev_p := 1 |}%Q in
  let earlier := {| ev_t := -4; ev_x := 0; ev_y := 0; ev_p := 1 |}%Q in
  let e2 := {| ev_t := 2; ev_x := 0; ev_y := 0; ev_p := 1 |}%Q in
  (exists g, (events_to_voxel_grid [e0; e2] 3 1 1).2 = inr g
             /\ map Qred (data g) = [1; 0; 1]%Q)
  /\ (bin_position 3 [e0; early; e2] early == -1)%Q
  /\ (exists g, (events_to_voxel_grid [e0; early; e2] 3 1 1).2 = inr g
                /\ map Qred (data g) = [1; 0; 2]%Q)
  /\ (exists g, (events_to_voxel_grid_pytorch [e0; early; e2] 3 1 1 cpu).2 = inr g
                /\ map Qred (data g) = [1; 0; 1]%Q)
  /\ (bin_position 3 [e0; half; e2] half == -1 # 2)%Q
  /\ (exists g, (events_to_voxel_grid [e0; half; e2] 3 1 1).2 = inr g
                /\ map Qred (data g) = [5 # 2; -1 # 2; 1]%Q)
  /\ (exists g, (events_to_voxel_grid_pytorch [e0; half; e2] 3 1 1 cpu).2 = inr g
                /\ map Qred (data g) = [1; 0; 1]%Q)
  /\ (bin_position 3 [e0; earlier; e2] earlier == -4)%Q
  /\ (events_to_voxel_grid [e0; earlier; e2] 3 1 1).2 = inl IndexError.
Proof.
  cbv zeta.
  split; [eexists; split; [vm_compute; reflexivity | vm_compute; reflexivity] |].
  split; [reflexivity |].
  split; [eexists; split; [vm_compute; reflexivity | vm_compute; reflexivity] |].
  split; [eexists; split; [vm_compute; reflexivity | vm_compute; reflexivity] |].
  split; [reflexivity |].
  split; [eexists; split; [vm_compute; reflexivity | vm_compute; reflexivity] |].
  split; [eexists; split; [vm_compute; reflexivity | vm_compute; reflexivity] |].
  split; [reflexivity |]. vm_compute. reflexivity.
Qed.

(** ** Side effects *)

(** The NumPy builder changes the caller's event array: the timestamps
    0 and 1 become the bin positions 0 and 2, and the polarity 0
    becomes -1. *)
Lemma builder_rewrites_caller_events :
  let events := [ {| ev_t := 0; ev_x := 0; ev_y := 0; ev_p := 0 |};
                  {| ev_t := 1; ev_x := 0; ev_y := 0; ev_p := 1 |} ]%Q in
  let after := (events_to_voxel_grid events 3 1 1).1 in
  map (fun e => Qred (ev_t e)) after = [0; 2]%Q
  /\ map ev_p after = [-1; 1]%Q
  /\ after <> events.
Proof.
  vm_compute. repeat split; discriminate.
Qed.

(** C5 (amended): the NumPy builder writes into the caller's event
    array, which afterwards holds the bin positions in its timestamp
    column and -1 in place of every polarity 0, the coordinates being
    unchanged; the compositor replaces the R, G, W and B entries of the
    caller's mapping by the upsampled (and, for B, G and W, shifted)
    arrays and leaves every other entry as it was. *)
Theorem builder_and_compositor_write_through
    (cv2_resize : image -> image)
    (cv2_cvtColor : conversion_code -> list (list (bgr Z)) -> list (list (bgr Z)))
    (channels : gmap string image) (r g w b gray : image)
    (events : list event) (num_bins width height : Z) :
  0 < num_bins -> 0 < width -> 0 < height -> events <> [] ->
  channels !! "R" = Some r -> channels !! "G" = Some g ->
  channels !! "W" = Some w -> channels !! "B" = Some b ->
  channels !! "grayscale" = Some gray ->
  let after := (events_to_voxel_grid events num_bins width height).1 in
  let mapping := (merge_channels_into_color_image cv2_resize cv2_cvtColor channels).1 in
  after = rewritten num_bins events
  /\ map ev_t after = map (bin_position num_bins events) events
  /\ map ev_p after = map signed_polarity events
  /\ map ev_x after = map ev_x events
  /\ map ev_y after = map ev_y events
  /\ mapping !! "R" = Some (cv2_resize r)
  /\ mapping !! "G" = Some (shift_image (cv2_resize g) 1 0)
  /\ mapping !! "W" = Some (shift_image (cv2_resize w) 0 1)
  /\ mapping !! "B" = Some (shift_image (cv2_resize b) 1 1)
  /\ mapping !! "grayscale" = Some gray
  /\ forall k, k <> "R" -> k <> "G" -> k <> "W" -> k <> "B" ->
       mapping !! k = channels !! k.
Proof.
  intros Hn Hw Hh Hne HR HG HW HB Hgray after mapping.
  assert (Eafter : after = rewritten num_bins events).
  { unfold after. rewrite events_to_voxel_grid_voting by assumption. reflexivity. }
  split; [exact Eafter |]. rewrite Eafter. unfold rewritten. rewrite !map_map.
  do 4 (split; [reflexivity |]).
  destruct (merge_channels_lookup cv2_resize cv2_cvtColor channels r g w b gray
              HR HG HW HB Hgray) as (ER & EG & EW & EB & Egr).
  do 5 (split; [assumption |]).
  intros k kR kG kW kB. unfold mapping.
  rewrite (merge_channels_state cv2_resize cv2_cvtColor channels r g w b gray)
    by assumption.
  rewrite !lookup_alter_ne by congruence. reflexivity.
Qed.

Lemma builder_and_compositor_write_through_witness :
  let channels : gmap string image :=
    <["R" := [[1 # 2]]%Q]> (<["G" := [[1 # 4]]%Q]> (<["W" := [[3 # 4]]%Q]>
      (<["B" := [[1 # 8]]%Q]> (<["grayscale" := [[3 # 8; 1]; [0; 1 # 2]]%Q]> ∅)))) in
  let events := [ {| ev_t := 0; ev_x := 0; ev_y := 0; ev_p := 0 |};
                  {| ev_t := 1; ev_x := 0; ev_y := 0; ev_p := 1 |} ]%Q in
  let after := (events_to_voxel_grid events 3 1 1).1 in
  let mapping :=
    (merge_channels_into_color_image pixel_doubling (fun _ img => img) channels).1 in
  after = rewritten 3 events
  /\ map ev_t after = map (bin_position 3 events) events
  /\ map ev_p after = map signed_polarity events
  /\ map ev_x after = map ev_x events
  /\ map ev_y after = map ev_y events
  /\ mapping !! "R" = Some (pixel_doubling [[1 # 2]]%Q)
  /\ mapping !! "G" = Some (shift_image (pixel_doubling [[1 # 4]]%Q) 1 0)
  /\ mapping !! "W" = Some (shift_image (pixel_doubling [[3 # 4]]%Q) 0 1)
  /\ mapping !! "B" = Some (shift_image (pixel_doubling [[1 # 8]]%Q) 1 1)
  /\ mapping !! "grayscale" = Some [[3 # 8; 1]; [0; 1 # 2]]%Q
  /\ forall k, k <> "R" -> k <> "G" -> k <> "W" -> k <> "B" ->
       mapping !! k = channels !! k.
Proof.
  intros channels events.
  apply (builder_and_compositor_write_through pixel_doubling (fun _ img => img)
           channels [[1 # 2]]%Q [[1 # 4]]%Q [[3 # 4]]%Q [[1 # 8]]%Q
           [[3 # 8; 1]; [0; 1 # 2]]%Q events 3 1 1).
  1-3: lia.
  - discriminate.
  - vm_compute. reflexivity.
  - vm_compute. reflexivity.
  - vm_compute. reflexivity.
  - vm_compute. reflexivity.
  - vm_compute. reflexivity.
Defined.

(** * Further properties *)

(** ** Size aligner: closure and composition *)

(** X1: without safety margin [optimal_crop_size] is a closure operator
    on sizes: it is monotone and idempotent, its fixed points are exactly
    the multiples of [2^k], and a safety margin adds [margin * 2^k] to
    its result. *)
Theorem optimal_crop_size_closure (a b k m : Z) :
  0 <= k ->
  optimal_crop_size (optimal_crop_size a k 0) k 0 = optimal_crop_size a k 0
  /\ (optimal_crop_size a k 0 = a <-> (2 ^ k | a))
  /\ (a <= b -> optimal_crop_size a k 0 <= optimal_crop_size b k 0)
  /\ optimal_crop_size a k m = optimal_crop_size a k 0 + m * 2 ^ k.
Proof.
  intros Hk.
  assert (Hd : 0 < 2 ^ k) by (apply Z.pow_pos_nonneg; lia).
  assert (Hfix : forall c, (2 ^ k | c) -> optimal_crop_size c k 0 = c).
  { intros c [q ->]. rewrite optimal_crop_size_eq by assumption.
    replace (q * 2 ^ k + 2 ^ k - 1) with (2 ^ k - 1 + q * 2 ^ k) by ring.
    rewrite Z.div_add by lia. rewrite Z.div_small by lia. ring. }
  assert (Hdiv : forall c, (2 ^ k | optimal_crop_size c k 0)).
  { intros c. rewrite optimal_crop_size_eq by assumption.
    exists ((c + 2 ^ k - 1) / 2 ^ k). ring. }
  split; [apply Hfix, Hdiv |]. split; [| split].
  - split; [intros <-; apply Hdiv | apply Hfix].
  - intros Hab. rewrite !optimal_crop_size_eq by assumption.
    assert ((a + 2 ^ k - 1) / 2 ^ k <= (b + 2 ^ k - 1) / 2 ^ k)
      by (apply Z.div_le_mono; lia).
    nia.
  - rewrite !optimal_crop_size_eq by assumption. ring.
Qed.

Lemma optimal_crop_size_closure_witness :
  optimal_crop_size (optimal_crop_size 13 2 0) 2 0 = optimal_crop_size 13 2 0
  /\ (optimal_crop_size 13 2 0 = 13 <-> (2 ^ 2 | 13))
  /\ (13 <= 17 -> optimal_crop_size 13 2 0 <= optimal_crop_size 17 2 0)
  /\ optimal_crop_size 13 2 3 = optimal_crop_size 13 2 0 + 3 * 2 ^ 2.
Proof.
  apply (optimal_crop_size_closure 13 17 2 3). lia.
Defined.

Lemma optimal_crop_size_margin_facts (a k m : Z) :
  0 <= k -> 0 <= m ->
  a <= optimal_crop_size a k m
  /\ (1 <= k -> exists c, optimal_crop_size a k m = 2 * c)
  /\ (k = 0 -> optimal_crop_size a k m = a + m).
Proof.
  intros Hk Hm.
  assert (Hd : 0 < 2 ^ k) by (apply Z.pow_pos_nonneg; lia).
  destruct (optimal_crop_size_closure a a k m Hk) as (_ & _ & _ & E).
  pose proof (optimal_crop_size_bounds a k Hk) as B.
  rewrite E. split; [nia |]. split.
  - intros H1. rewrite optimal_crop_size_eq by assumption.
    assert (E2 : 2 ^ k = 2 * 2 ^ (k - 1)).
    { rewrite <- Z.pow_succ_r by lia. f_equal. lia. }
    exists (2 ^ (k - 1) * ((a + 2 ^ k - 1) / 2 ^ k) + m * 2 ^ (k - 1)).
    generalize dependent ((a + 2 ^ k - 1) / 2 ^ k). intros q.
    rewrite E2. ring.
  - intros ->. rewrite optimal_crop_size_eq by lia.
    change (2 ^ 0) with 1. rewrite Z.div_1_r. lia.
Qed.

(** The crop window for any safety margin: it has the true size, lies
    inside the working canvas, and starts at the leading padding or one
    pixel before it. *)
Lemma crop_window_general (w h k m : Z) :
  0 < w -> 0 < h -> 0 <= k -> 0 <= m ->
  let cp := CropParameters__init__ w h k m in
  (ix1 cp - ix0 cp = w /\ 0 <= ix0 cp /\ ix1 cp <= width_crop_size cp)
  /\ (iy1 cp - iy0 cp = h /\ 0 <= iy0 cp /\ iy1 cp <= height_crop_size cp)
  /\ (0 <= padding_left cp /\ 0 <= padding_right cp
      /\ 0 <= padding_top cp /\ 0 <= padding_bottom cp)
  /\ padding_left cp + w + padding_right cp = width_crop_size cp
  /\ padding_top cp + h + padding_bottom cp = height_crop_size cp
  /\ padding_left cp - ix0 cp
     = (if (k =? 0) && Z.odd m && Z.even w then 1 else 0)
  /\ padding_top cp - iy0 cp
     = (if (k =? 0) && Z.odd m && Z.even h then 1 else 0).
Proof.
  intros Hw Hh Hk Hm. cbn -[optimal_crop_size ceil floor Qdiv Qmult].
  rewrite !floor_inject_half, !ceil_inject_half, !floor_half_inject, !ceil_half_inject.
  destruct (optimal_crop_size_margin_facts w k m Hk Hm) as (Bw & Ew & Sw).
  destruct (optimal_crop_size_margin_facts h k m Hk Hm) as (Bh & Eh & Sh).
  generalize dependent (optimal_crop_size w k m).
  generalize dependent (optimal_crop_size h k m).
  intros H Bh Eh Sh W Bw Ew Sw.
  rewrite (Zodd_even_bool m).
  pose proof (Zeven_bool_iff m) as Pm. pose proof (Zeven_bool_iff w) as Pw.
  pose proof (Zeven_bool_iff h) as Ph.
  pose proof (Zeven_odd_dec m) as Dm. pose proof (Zeven_odd_dec w) as Dw.
  pose proof (Zeven_odd_dec h) as Dh.
  destruct (Z.eqb_spec k 0) as [K0 | K1].
  - specialize (Sw K0). specialize (Sh K0). subst W H. clear Ew Eh.
    destruct (Z.even m) eqn:Em, (Z.even w) eqn:Ev, (Z.even h) eqn:Eu; cbn [negb andb];
      repeat match goal with
      | H : Z.even ?z = true |- _ =>
          apply Z.even_spec in H; destruct H as [? ->]
      | H : Z.even ?z = false |- _ =>
          rewrite <- Z.negb_odd in H; apply negb_false_iff in H;
          apply Z.odd_spec in H; destruct H as [? ->]
      end;
      Z.to_euclidean_division_equations; lia.
  - destruct (Ew ltac:(lia)) as [c ->]. destruct (Eh ltac:(lia)) as [d ->].
    cbn [andb]. Z.to_euclidean_division_equations; lia.
Qed.

Lemma pad_pixel {A} (fill : nat -> nat -> A) (cp : CropParameters)
    (img : list (list A)) (y x : nat) :
  Forall (fun row => length row = Z.to_nat (width cp)) img ->
  (y < length img)%nat -> (x < Z.to_nat (width cp))%nat ->
  pad fill cp img !! (Z.to_nat (padding_top cp) + y)%nat
    ≫= (.!! (Z.to_nat (padding_left cp) + x)%nat)
  = img !! y ≫= (.!! x).
Proof.
  intros Hrows Hy Hx. unfold pad.
  rewrite lookup_app_r; rewrite length_fmap, length_seq; [| lia].
  replace (Z.to_nat (padding_top cp) + y - Z.to_nat (padding_top cp))%nat with y by lia.
  rewrite lookup_app_l by (rewrite length_imap; exact Hy).
  rewrite list_lookup_imap.
  destruct (img !! y) as [row |] eqn:Hrow; [| reflexivity]. simpl.
  pose proof (Forall_lookup_1 _ _ _ _ Hrows Hrow) as Hlen. simpl in Hlen.
  unfold pad_row.
  rewrite lookup_app_r; rewrite length_fmap, length_seq; [| lia].
  replace (Z.to_nat (padding_left cp) + x - Z.to_nat (padding_left cp))%nat with x by lia.
  apply lookup_app_l. lia.
Qed.

Lemma crop_pad_aligned {A} (fill : nat -> nat -> A) (cp : CropParameters)
    (img : list (list A)) :
  length img = Z.to_nat (height cp) ->
  Forall (fun row => length row = Z.to_nat (width cp)) img ->
  0 < width cp -> 0 < height cp ->
  0 <= padding_left cp -> 0 <= padding_right cp ->
  0 <= padding_top cp -> 0 <= padding_bottom cp ->
  ix0 cp = padding_left cp -> ix1 cp = padding_left cp + width cp ->
  iy0 cp = padding_top cp -> iy1 cp = padding_top cp + height cp ->
  crop cp (pad fill cp img) = img.
Proof.
  intros Hlen Hrows Hw Hh Hl Hr Ht Hb Hx0 Hx1 Hy0 Hy1.
  destruct (pad_shape fill cp img Hrows) as [HH HW].
  rewrite (crop_take_drop cp _ _ _ HH HW) by lia.
  rewrite Hy0, Hy1, Hx0, Hx1.
  replace (Z.to_nat (padding_top cp + height cp - padding_top cp))
    with (length img) by lia.
  rewrite pad_window, fmap_imap.
  rewrite <- (list_fmap_id img) at 2. rewrite <- imap_const.
  apply imap_ext. intros y row Hrow. simpl.
  replace (Z.to_nat (padding_left cp + width cp - padding_left cp))
    with (length row).
  - apply pad_row_window.
  - rewrite (Forall_lookup_1 _ _ _ _ Hrows Hrow). lia.
Qed.

(** X2: the round trip of padding and cropping also holds with a safety
    margin, as long as there is at least one level or the margin is
    even: the centre-based crop window is then the place of the image in
    the padded canvas. *)
Theorem crop_pad_roundtrip_with_margin {A} (fill : nat -> nat -> A)
    (img : list (list A)) (true_width true_height num_levels safety_margin : Z) :
  0 < true_width -> 0 < true_height -> 0 <= num_levels -> 0 <= safety_margin ->
  1 <= num_levels \/ Z.even safety_margin = true ->
  length img = Z.to_nat true_height ->
  Forall (fun row => length row = Z.to_nat true_width) img ->
  let cp := CropParameters__init__ true_width true_height num_levels safety_margin in
  crop cp (pad fill cp img) = img.
Proof.
  intros Hw Hh Hk Hm Hal Hlen Hrows cp.
  destruct (crop_window_general true_width true_height num_levels safety_margin
              Hw Hh Hk Hm)
    as ((Sx & Px & _) & (Sy & Py & _) & (Hl & Hr & Ht & Hb) & _ & _ & Dx & Dy).
  fold cp in Sx, Px, Sy, Py, Hl, Hr, Ht, Hb, Dx, Dy.
  assert (Hwcp : width cp = true_width) by reflexivity.
  assert (Hhcp : height cp = true_height) by reflexivity.
  assert (Hz : (num_levels =? 0) && Z.odd safety_margin = false).
  { destruct Hal as [H1 | He].
    - destruct (Z.eqb_spec num_levels 0); [lia | reflexivity].
    - rewrite <- Z.negb_even, He. apply andb_false_r. }
  rewrite Hz in Dx, Dy. cbn [andb] in Dx, Dy.
  clearbody cp.
  apply crop_pad_aligned; rewrite ?Hwcp, ?Hhcp; try assumption; lia.
Qed.

Lemma crop_pad_roundtrip_with_margin_witness :
  let img := [[1; 2; 3]; [4; 5; 6]]%Q in
  let cp := CropParameters__init__ 3 2 1 3 in
  crop cp (pad (fun _ _ => 7%Q) cp img) = img.
Proof.
  intros img.
  apply (crop_pad_roundtrip_with_margin (fun _ _ => 7%Q) img 3 2 1 3).
  - lia.
  - lia.
  - lia.
  - lia.
  - left. lia.
  - reflexivity.
  - subst img. repeat constructor.
Defined.

(** X3: in general the crop window has the true size and lies inside the
    canvas, but it starts one pixel before the image along an axis
    whose true size is even when there is no level and the margin is
    odd: pixel (y, x) of the image is found at (y + dy, x + dx) of the
    cropped canvas, the offsets being 0 or 1 as stated. *)
Theorem crop_after_pad_offset {A} (fill : nat -> nat -> A)
    (img : list (list A)) (true_width true_height num_levels safety_margin : Z)
    (y x : nat) :
  0 < true_width -> 0 < true_height -> 0 <= num_levels -> 0 <= safety_margin ->
  length img = Z.to_nat true_height ->
  Forall (fun row => length row = Z.to_nat true_width) img ->
  let cp := CropParameters__init__ true_width true_height num_levels safety_margin in
  let dx := if (num_levels =? 0) && Z.odd safety_margin && Z.even true_width
            then 1%nat else 0%nat in
  let dy := if (num_levels =? 0) && Z.odd safety_margin && Z.even true_height
            then 1%nat else 0%nat in
  (y + dy < Z.to_nat true_height)%nat -> (x + dx < Z.to_nat true_width)%nat ->
  ix0 cp = padding_left cp - Z.of_nat dx
  /\ iy0 cp = padding_top cp - Z.of_nat dy
  /\ length (crop cp (pad fill cp img)) = Z.to_nat true_height
  /\ Forall (fun row => length row = Z.to_nat true_width) (crop cp (pad fill cp img))
  /\ crop cp (pad fill cp img) !! (y + dy)%nat ≫= (.!! (x + dx)%nat)
     = img !! y ≫= (.!! x).
Proof.
  intros Hw Hh Hk Hm Hlen Hrows cp dx dy Hy Hx.
  destruct (crop_window_general true_width true_height num_levels safety_margin
              Hw Hh Hk Hm)
    as ((Sx & Px & Qx) & (Sy & Py & Qy) & (Hl & Hr & Ht & Hb) & Wx & Wy & Dx & Dy).
  fold cp in Sx, Px, Qx, Sy, Py, Qy, Hl, Hr, Ht, Hb, Wx, Wy, Dx, Dy.
  assert (Hwcp : width cp = true_width) by reflexivity.
  assert (Ex : padding_left cp - ix0 cp = Z.of_nat dx).
  { rewrite Dx. unfold dx.
    destruct ((num_levels =? 0) && Z.odd safety_margin && Z.even true_width);
      reflexivity. }
  assert (Ey : padding_top cp - iy0 cp = Z.of_nat dy).
  { rewrite Dy. unfold dy.
    destruct ((num_levels =? 0) && Z.odd safety_margin && Z.even true_height);
      reflexivity. }
  clearbody cp dx dy.
  destruct (pad_shape fill cp img) as [HH HW]; [rewrite Hwcp; exact Hrows |].
  split; [lia |]. split; [lia |].
  destruct (crop_shape cp _ _ _ HH HW) as [Cl Cr]; try lia.
  split; [rewrite Cl; lia |].
  split; [eapply Forall_impl; [exact Cr |]; intros row Hrow; simpl in *; lia |].
  rewrite (crop_pixel cp _ _ _ (y + dy) (x + dx) HH HW) by lia.
  replace (Z.to_nat (iy0 cp) + (y + dy))%nat
    with (Z.to_nat (padding_top cp) + y)%nat by lia.
  replace (Z.to_nat (ix0 cp) + (x + dx))%nat
    with (Z.to_nat (padding_left cp) + x)%nat by lia.
  apply pad_pixel; [rewrite Hwcp; exact Hrows | lia | lia].
Qed.

Lemma crop_after_pad_offset_witness :
  let img := [[1; 2]; [3; 4]; [5; 6]]%Q in
  let cp := CropParameters__init__ 2 3 0 1 in
  ix0 cp = padding_left cp - Z.of_nat 1
  /\ iy0 cp = padding_top cp - Z.of_nat 0
  /\ length (crop cp (pad (fun _ _ => 7%Q) cp img)) = Z.to_nat 3
  /\ Forall (fun row => length row = Z.to_nat 2) (crop cp (pad (fun _ _ => 7%Q) cp img))
  /\ crop cp (pad (fun _ _ => 7%Q) cp img) !! (1 + 0)%nat ≫= (.!! (0 + 1)%nat)
     = img !! 1%nat ≫= (.!! 0%nat).
Proof.
  intros img.
  apply (crop_after_pad_offset (fun _ _ => 7%Q) img 2 3 0 1 1 0).
  - lia.
  - lia.
  - lia.
  - lia.
  - reflexivity.
  - subst img. repeat constructor.
  - vm_compute. lia.
  - vm_compute. lia.
Defined.

(** ** Image shift by any amount *)

Lemma lookup_np_roll {A} (l : list A) (s : Z) (i : nat) :
  (i < length l)%nat ->
  np_roll l s !! i = l !! Z.to_nat ((Z.of_nat i - s) mod Z.of_nat (length l)).
Proof.
  intros Hi. unfold np_roll.
  set (n := Z.of_nat (length l)).
  assert (Hn : 0 < n) by (unfold n; lia).
  destruct (Z.eqb_spec n 0) as [E | _]; [lia |].
  pose proof (Z.mod_pos_bound s n Hn) as Ho.
  pose proof (Z.div_mod s n ltac:(lia)) as Hs.
  set (o := s mod n) in *.
  assert (Hmod : (Z.of_nat i - s) mod n = (Z.of_nat i - o) mod n).
  { replace (Z.of_nat i - s) with (Z.of_nat i - o + (- (s / n)) * n) by lia.
    apply Z.mod_add. lia. }
  rewrite Hmod.
  destruct (Z.lt_ge_cases (Z.of_nat i) o) as [Hlt | Hge].
  - rewrite lookup_app_l by (rewrite length_drop; lia).
    rewrite lookup_drop. f_equal.
    replace (Z.of_nat i - o) with (Z.of_nat i - o + n + (-1) * n) by lia.
    rewrite Z.mod_add by lia. rewrite Z.mod_small by lia. lia.
  - rewrite lookup_app_r by (rewrite length_drop; lia).
    rewrite length_drop, lookup_take_lt by lia.
    f_equal. rewrite Z.mod_small by lia. lia.
Qed.

Lemma lookup_zero_fill_general {A} (d : Z) (f : A -> A) (l : list A) (i : nat) :
  (if 0 <? d then set_slice 0 d f l
   else if d <? 0 then set_slice d (Z.of_nat (length l)) f l else l) !! i
  = (if (0 <=? Z.of_nat i - d) && (Z.of_nat i - d <? Z.of_nat (length l))
     then id else f) <$> l !! i.
Proof.
  destruct (l !! i) as [v |] eqn:E.
  2:{ destruct (0 <? d); [| destruct (d <? 0)];
        rewrite ?lookup_set_slice, E; reflexivity. }
  pose proof (lookup_lt_Some _ _ _ E) as Hi.
  destruct (Z.ltb_spec 0 d) as [Hpos | Hnp].
  - rewrite lookup_set_slice, E. unfold slice_bound.
    destruct (Z.ltb_spec d 0); [lia |]. change (0 <? 0) with false. cbv iota.
    destruct (Z.leb_spec (Z.min 0 (Z.of_nat (length l))) (Z.of_nat i)); [| lia].
    destruct (Z.ltb_spec (Z.of_nat i) (Z.min d (Z.of_nat (length l))));
      destruct (Z.leb_spec 0 (Z.of_nat i - d));
      destruct (Z.ltb_spec (Z.of_nat i - d) (Z.of_nat (length l)));
      try reflexivity; lia.
  - destruct (Z.ltb_spec d 0) as [Hneg | Hz].
    + rewrite lookup_set_slice, E. unfold slice_bound.
      destruct (Z.ltb_spec d 0); [| lia].
      destruct (Z.ltb_spec (Z.of_nat (length l)) 0); [lia |].
      destruct (Z.leb_spec (Z.max 0 (d + Z.of_nat (length l))) (Z.of_nat i));
        destruct (Z.ltb_spec (Z.of_nat i)
                    (Z.min (Z.of_nat (length l)) (Z.of_nat (length l))));
        destruct (Z.leb_spec 0 (Z.of_nat i - d));
        destruct (Z.ltb_spec (Z.of_nat i - d) (Z.of_nat (length l)));
        try reflexivity; lia.
    + rewrite E. assert (d = 0) as -> by lia.
      destruct (Z.leb_spec 0 (Z.of_nat i - 0)); [| lia].
      destruct (Z.ltb_spec (Z.of_nat i - 0) (Z.of_nat (length l))); [| lia].
      reflexivity.
Qed.

(** X4: for every pair of integer shifts [shift_image] is a translation
    that fills with zeros: on an [h x w] array the pixel (y, x) of the
    result is [X[y - dy][x - dx]] when that position exists, and 0
    otherwise; nothing wraps around, and a shift as large as the array
    leaves only zeros. *)
Theorem shift_image_translation (X : image) (h w : nat) (dx dy : Z) (y x : nat) :
  length X = h -> Forall (fun row => length row = w) X ->
  (y < h)%nat -> (x < w)%nat ->
  shift_image X dx dy !! y ≫= (.!! x)
  = if (0 <=? Z.of_nat y - dy) && (Z.of_nat y - dy <? Z.of_nat h)
       && ((0 <=? Z.of_nat x - dx) && (Z.of_nat x - dx <? Z.of_nat w))
    then X !! Z.to_nat (Z.of_nat y - dy) ≫= (.!! Z.to_nat (Z.of_nat x - dx))
    else Some 0%Q.
Proof.
  intros Hh Hw Hy Hx.
  rewrite shift_image_unfold. cbv zeta.
  rewrite list_lookup_fmap, lookup_zero_fill_general, list_lookup_fmap.
  rewrite length_fmap, length_np_roll, Hh.
  assert (Hrolled : Forall (fun row => length row = w) (np_roll X dy))
    by (apply Forall_np_roll, Hw).
  destruct (np_roll X dy !! y) as [r |] eqn:Er.
  2:{ apply lookup_ge_None in Er. rewrite length_np_roll in Er. lia. }
  assert (Hr : length r = w) by (exact (Forall_lookup_1 _ _ _ _ Hrolled Er)).
  cbn [fmap option_fmap option_map mbind option_bind].
  destruct ((0 <=? Z.of_nat y - dy) && (Z.of_nat y - dy <? Z.of_nat h)) eqn:Cy.
  - apply andb_true_iff in Cy as [C1 C2].
    apply Z.leb_le in C1. apply Z.ltb_lt in C2.
    rewrite lookup_np_roll in Er by lia.
    rewrite Hh, Z.mod_small in Er by lia. rewrite Er.
    cbn [id andb mbind option_bind].
    rewrite lookup_zero_fill_general, length_np_roll, Hr.
    rewrite lookup_np_roll by lia. rewrite Hr.
    destruct ((0 <=? Z.of_nat x - dx) && (Z.of_nat x - dx <? Z.of_nat w)) eqn:Cx.
    + apply andb_true_iff in Cx as [D1 D2].
      apply Z.leb_le in D1. apply Z.ltb_lt in D2.
      rewrite Z.mod_small by lia. destruct (r !! _); reflexivity.
    + destruct (r !! _) eqn:Ev; [reflexivity |].
      apply lookup_ge_None in Ev.
      pose proof (Z.mod_pos_bound (Z.of_nat x - dx) (Z.of_nat w) ltac:(lia)). lia.
  - cbn [andb]. rewrite lookup_zero_fill_general.
    unfold zero_row. rewrite list_lookup_fmap.
    destruct (np_roll r dx !! x) eqn:Ex.
    + cbn [fmap option_fmap option_map].
      match goal with |- context [if ?c then id else _] => destruct c end;
        reflexivity.
    + apply lookup_ge_None in Ex. rewrite length_np_roll in Ex. lia.
Qed.

Lemma shift_image_translation_witness :
  let X := [[1; 2; 3]; [4; 5; 6]]%Q in
  shift_image X (-2) 1 !! 1%nat ≫= (.!! 0%nat)
  = if (0 <=? Z.of_nat 1 - 1) && (Z.of_nat 1 - 1 <? Z.of_nat 2)
       && ((0 <=? Z.of_nat 0 - (-2)) && (Z.of_nat 0 - (-2) <? Z.of_nat 3))
    then X !! Z.to_nat (Z.of_nat 1 - 1) ≫= (.!! Z.to_nat (Z.of_nat 0 - (-2)))
    else Some 0%Q.
Proof.
  intros X.
  apply (shift_image_translation X 2 3 (-2) 1 1 0).
  - reflexivity.
  - subst X. repeat constructor.
  - lia.
  - lia.
Defined.

(** ** Voxel-grid builders: errors and effects *)

(** X5: both builders check their arguments before anything else: a
    non-positive [num_bins], [width] or [height] raises [AssertionError],
    an empty batch (with valid sizes) raises [IndexError], and in both
    cases the caller's event array is left as it was. *)
Theorem builders_argument_errors
    (events : list event) (num_bins width height : Z) (dev : device) :
  num_bins <= 0 \/ width <= 0 \/ height <= 0 \/ events = [] ->
  let e := if (0 <? num_bins) && (0 <? width) && (0 <? height)
           then IndexError else AssertionError in
  events_to_voxel_grid events num_bins width height = (events, inl e)
  /\ events_to_voxel_grid_pytorch events num_bins width height dev = (events, inl e).
Proof.
  intros H. unfold events_to_voxel_grid, events_to_voxel_grid_pytorch.
  destruct (0 <? num_bins) eqn:En; [| split; reflexivity].
  destruct (0 <? width) eqn:Ew; [| split; reflexivity].
  destruct (0 <? height) eqn:Eh; [| split; reflexivity].
  apply Z.ltb_lt in En, Ew, Eh.
  destruct H as [H | [H | [H | ->]]]; try lia.
  split; reflexivity.
Qed.

Lemma builders_argument_errors_witness :
  let events := [ {| ev_t := 0; ev_x := 0; ev_y := 0; ev_p := 1 |} ]%Q in
  let e := if (0 <? 3) && (0 <? 0) && (0 <? 2) then IndexError else AssertionError in
  events_to_voxel_grid events 3 0 2 = (events, inl e)
  /\ events_to_voxel_grid_pytorch events 3 0 2 cuda = (events, inl e).
Proof.
  intros events.
  apply (builders_argument_errors events 3 0 2 cuda).
  right. left. lia.
Defined.

(** ** Voxel-grid builders: the value of a cell *)

Lemma flat_index_unique (w h x y b x' y' b' : Z) :
  0 <= x < w -> 0 <= x' < w -> 0 <= y < h -> 0 <= y' < h ->
  x + y * w + b * w * h = x' + y' * w + b' * w * h ->
  x = x' /\ y = y' /\ b = b'.
Proof.
  intros Hx Hx' Hy Hy' E.
  assert (E1 : x + (y + b * h) * w = x' + (y' + b' * h) * w) by lia.
  assert (E2 : y + b * h = y' + b' * h) by nia.
  assert (E3 : b = b') by nia.
  subst b'. split; [nia |]. split; [lia | reflexivity].
Qed.

(** ** Outer border *)

Lemma py_slice_border {A} (border : Z) (l : list A) :
  0 < border ->
  py_slice border (- border) l
  = take (length l - 2 * Z.to_nat border) (drop (Z.to_nat border) l).
Proof.
  intros Hb. unfold py_slice, slice_bound.
  destruct (Z.ltb_spec border 0); [lia |].
  destruct (Z.ltb_spec (- border) 0); [| lia].
  destruct (Z.le_gt_cases (Z.of_nat (length l)) border) as [Hge | Hlt].
  - rewrite !drop_ge by lia. rewrite !take_nil. reflexivity.
  - replace (Z.to_nat (Z.min border (Z.of_nat (length l)))) with (Z.to_nat border) by lia.
    f_equal. lia.
Qed.

Lemma border_pixel {A} (border : Z) (img : list (list A)) (h w : nat) (y x : nat) :
  0 < border ->
  length img = h -> Forall (fun row => length row = w) img ->
  let out := map (py_slice border (- border)) (py_slice border (- border) img) in
  length out = (h - 2 * Z.to_nat border)%nat
  /\ Forall (fun row => length row = (w - 2 * Z.to_nat border)%nat) out
  /\ ((y < h - 2 * Z.to_nat border)%nat -> (x < w - 2 * Z.to_nat border)%nat ->
      out !! y ≫= (.!! x)
      = img !! (Z.to_nat border + y)%nat ≫= (.!! (Z.to_nat border + x)%nat)).
Proof.
  intros Hb Hh Hw out. subst out.
  rewrite (py_slice_border border img Hb), Hh.
  split; [rewrite length_fmap, length_take, length_drop; lia |]. split.
  - apply Forall_fmap, Forall_take, Forall_drop.
    eapply Forall_impl; [exact Hw |]. intros row Hrow. simpl in *.
    rewrite py_slice_border by assumption.
    rewrite length_take, length_drop. lia.
  - intros Hy Hx.
    rewrite list_lookup_fmap, lookup_take_lt, lookup_drop by lia.
    destruct (img !! _) as [row |] eqn:Hrow; [| reflexivity]. simpl.
    pose proof (Forall_lookup_1 _ _ _ _ Hw Hrow) as Hlen. simpl in Hlen.
    rewrite py_slice_border by assumption.
    rewrite Hlen, lookup_take_lt, lookup_drop by lia. reflexivity.
Qed.

(** X12: [crop_outer_border] with a positive border removes [border]
    rows and columns on each side of an [h x w] image: the result has
    shape (h - 2 border) x (w - 2 border), empty when the border takes
    half the image or more, and its pixel (y, x) is the pixel
    (y + border, x + border) of the image; with [self.border = 0] the
    image is returned whole. *)
Theorem crop_outer_border_spec {A} (border : Z) (img : list (list A))
    (h w : nat) (y x : nat) :
  0 < border ->
  length img = h -> Forall (fun row => length row = w) img ->
  let out := crop_outer_border border img border in
  length out = (h - 2 * Z.to_nat border)%nat
  /\ Forall (fun row => length row = (w - 2 * Z.to_nat border)%nat) out
  /\ ((y < h - 2 * Z.to_nat border)%nat -> (x < w - 2 * Z.to_nat border)%nat ->
      out !! y ≫= (.!! x)
      = img !! (Z.to_nat border + y)%nat ≫= (.!! (Z.to_nat border + x)%nat))
  /\ crop_outer_border 0 img 0 = img.
Proof.
  intros Hb Hh Hw out. subst out. unfold crop_outer_border.
  destruct (Z.eqb_spec border 0); [lia |].
  destruct (border_pixel border img h w y x Hb Hh Hw) as (H1 & H2 & H3).
  repeat split; assumption.
Qed.

Lemma crop_outer_border_spec_witness :
  let img := [[1; 2; 3; 4]; [5; 6; 7; 8]; [9; 10; 11; 12]]%Q in
  let out := crop_outer_border 1 img 1 in
  length out = (3 - 2 * Z.to_nat 1)%nat
  /\ Forall (fun row => length row = (4 - 2 * Z.to_nat 1)%nat) out
  /\ ((0 < 3 - 2 * Z.to_nat 1)%nat -> (1 < 4 - 2 * Z.to_nat 1)%nat ->
      out !! 0%nat ≫= (.!! 1%nat)
      = img !! (Z.to_nat 1 + 0)%nat ≫= (.!! (Z.to_nat 1 + 1)%nat))
  /\ crop_outer_border 0 img 0 = img.
Proof.
  intros img.
  apply (crop_outer_border_spec 1 img 3 4 0 1).
  - lia.
  - reflexivity.
  - subst img. repeat constructor.
Defined.

(** ** Unsharp mask *)

Lemma np_round_floor_or_next (q : Q) :
  np_round q = Qfloor q \/ np_round q = Qfloor q + 1.
Proof.
  unfold np_round. cbv zeta.
  destruct (Qle_bool _ (1 # 2)); [| right; reflexivity].
  destruct (Qle_bool (1 # 2) _); [| left; reflexivity].
  destruct (Z.even _); [left | right]; reflexivity.
Qed.

Lemma np_round_ge (q : Q) (n : Z) : (inject_Z n <= q)%Q -> n <= np_round q.
Proof.
  intros H. apply Qfloor_resp_le in H. rewrite Qfloor_Z in H.
  destruct (np_round_floor_or_next q) as [-> | ->]; lia.
Qed.

Lemma np_round_le (q : Q) (n : Z) : (q <= inject_Z n)%Q -> np_round q <= n.
Proof.
  intros H. pose proof (Qfloor_resp_le _ _ H) as Hf. rewrite Qfloor_Z in Hf.
  destruct (Z.eq_dec (Qfloor q) n) as [E | Hne].
  - assert (Eq : (q == inject_Z n)%Q).
    { apply Qle_antisym; [exact H |]. rewrite <- E. apply Qfloor_le. }
    unfold np_round. cbv zeta. rewrite E.
    assert (Ed : (q - inject_Z n == 0)%Q) by (rewrite Eq; ring).
    assert (E1 : Qle_bool (q - inject_Z n) (1 # 2) = true).
    { apply Qle_bool_iff. rewrite Ed. discriminate. }
    assert (E2 : Qle_bool (1 # 2) (q - inject_Z n) = false).
    { destruct (Qle_bool (1 # 2) _) eqn:H'; [| reflexivity].
      apply Qle_bool_iff in H'. rewrite Ed in H'. exfalso. lra. }
    rewrite E1, E2. lia.
  - destruct (np_round_floor_or_next q) as [-> | ->]; lia.
Qed.

Lemma astype_uint8_inject_Z (n : Z) : 0 <= n <= 255 -> astype_uint8 (inject_Z n) = n.
Proof.
  intros H. unfold astype_uint8, astype_int, inject_Z. cbn [Qnum Qden].
  rewrite Z.quot_1_r. apply Z.mod_small. lia.
Qed.

Section FilterFacts.
Variable cv2_GaussianBlur : list (list Z) -> Z * Z -> Q -> list (list Z).
Variable cv2_bilateralFilter : list (list Z) -> Z -> Q -> Q -> list (list Z).

(** The sharpened value of one pixel, before the threshold is applied. *)
Lemma sharpened_pixel (amount : Q) (v b : Z) :
  (0 <= amount)%Q -> 0 <= v <= 255 ->
  let s := ((amount + 1) * inject_Z v - amount * inject_Z b)%Q in
  let s := if Qle_bool 0 s then s else 0%Q in
  let s := if Qle_bool s 255 then s else 255%Q in
  let o := astype_uint8 (inject_Z (np_round s)) in
  0 <= o <= 255 /\ (b <= v -> v <= o) /\ (v <= b -> o <= v).
Proof.
  intros Ha Hv. cbv zeta.
  set (s0 := ((amount + 1) * inject_Z v - amount * inject_Z b)%Q).
  assert (Hv0 : (0 <= inject_Z v)%Q) by (change 0%Q with (inject_Z 0); rewrite <- Zle_Qle; lia).
  assert (Hv1 : (inject_Z v <= 255)%Q)
    by (change 255%Q with (inject_Z 255); rewrite <- Zle_Qle; lia).
  assert (Hup : b <= v -> (inject_Z v <= s0)%Q).
  { intros Hbv. assert ((inject_Z b <= inject_Z v)%Q) by (rewrite <- Zle_Qle; lia).
    unfold s0. nra. }
  assert (Hdown : v <= b -> (s0 <= inject_Z v)%Q).
  { intros Hvb. assert ((inject_Z v <= inject_Z b)%Q) by (rewrite <- Zle_Qle; lia).
    unfold s0. nra. }
  set (s1 := if Qle_bool 0 s0 then s0 else 0%Q).
  assert (H1 : (0 <= s1)%Q /\ ((inject_Z v <= s0)%Q -> (inject_Z v <= s1)%Q)
               /\ ((s0 <= inject_Z v)%Q -> (s1 <= inject_Z v)%Q)).
  { unfold s1. destruct (Qle_bool 0 s0) eqn:E.
    - apply Qle_bool_iff in E. tauto.
    - assert (H : ~ (0 <= s0)%Q) by (intros H; apply Qle_bool_iff in H; congruence).
      apply Qnot_le_lt in H. repeat split; intros; lra. }
  destruct H1 as (P1 & U1 & D1).
  set (s2 := if Qle_bool s1 255 then s1 else 255%Q).
  assert (H2 : (0 <= s2 <= 255)%Q /\ ((inject_Z v <= s1)%Q -> (inject_Z v <= s2)%Q)
               /\ ((s1 <= inject_Z v)%Q -> (s2 <= inject_Z v)%Q)).
  { unfold s2. destruct (Qle_bool s1 255) eqn:E.
    - apply Qle_bool_iff in E. repeat split; intros; lra.
    - assert (H : ~ (s1 <= 255)%Q) by (intros H; apply Qle_bool_iff in H; congruence).
      apply Qnot_le_lt in H. repeat split; intros; lra. }
  destruct H2 as ([P2 Q2] & U2 & D2).
  assert (Hr : 0 <= np_round s2 <= 255).
  { split; [apply np_round_ge; exact P2 | apply np_round_le; exact Q2]. }
  rewrite astype_uint8_inject_Z by exact Hr.
  split; [exact Hr |]. split.
  - intros Hbv. apply np_round_ge. auto.
  - intros Hvb. apply np_round_le. auto.
Qed.

Lemma unsharp_mask_pixel (image : list (list Z)) (kernel_size : Z * Z)
    (sigma amount threshold : Q) (y x : nat) (v b : Z) :
  (0 <= amount)%Q -> 0 <= v <= 255 ->
  image !! y ≫= (.!! x) = Some v ->
  cv2_GaussianBlur image kernel_size sigma !! y ≫= (.!! x) = Some b ->
  exists o,
    unsharp_mask cv2_GaussianBlur image kernel_size sigma amount threshold
      !! y ≫= (.!! x) = Some o
    /\ 0 <= o <= 255 /\ (b <= v -> v <= o) /\ (v <= b -> o <= v).
Proof.
  intros Ha Hv Hi Hb.
  pose proof (sharpened_pixel amount v b Ha Hv) as Hs. cbv zeta in Hs.
  apply pixel_inv in Hi as (ri & Hi & Hi'). apply pixel_inv in Hb as (rb & Hb & Hb').
  unfold unsharp_mask. cbv zeta.
  destruct (negb (Qle_bool threshold 0)).
  - rewrite !lookup_zip_with, !list_lookup_fmap, !lookup_zip_with, Hi, Hb.
    cbn [mbind option_bind fmap option_fmap option_map].
    rewrite !lookup_zip_with, !list_lookup_fmap, !lookup_zip_with, Hi', Hb'.
    cbn [mbind option_bind fmap option_fmap option_map].
    destruct (negb _).
    + exists v. split; [reflexivity |]. lia.
    + eexists. split; [reflexivity |]. exact Hs.
  - rewrite !list_lookup_fmap, lookup_zip_with, Hi, Hb.
    cbn [mbind option_bind fmap option_fmap option_map].
    rewrite !list_lookup_fmap, lookup_zip_with, Hi', Hb'.
    cbn [mbind option_bind fmap option_fmap option_map].
    eexists. split; [reflexivity |]. exact Hs.
Qed.
End FilterFacts.

(** X16: with the bilateral filter off, [ImageFilter] returns the image
    itself when the unsharp amount is not positive, and otherwise moves
    every pixel of an 8-bit image away from its blurred value without
    leaving the 8-bit range: a pixel at least as bright as its blur does
    not get darker, one at most as bright does not get brighter, so a
    pixel equal to its blur is unchanged. *)
Theorem image_filter_sharpens
    (cv2_GaussianBlur : list (list Z) -> Z * Z -> Q -> list (list Z))
    (cv2_bilateralFilter : list (list Z) -> Z -> Q -> Q -> list (list Z))
    (self : ImageFilter) (img : list (list Z)) (y x : nat) (v b : Z) :
  (bilateral_filter_sigma self == 0)%Q ->
  0 <= v <= 255 ->
  img !! y ≫= (.!! x) = Some v ->
  cv2_GaussianBlur img (5, 5) (unsharp_mask_sigma self) !! y ≫= (.!! x) = Some b ->
  let out := ImageFilter__call__ cv2_GaussianBlur cv2_bilateralFilter self img in
  ((unsharp_mask_amount self <= 0)%Q -> out = img)
  /\ exists o, out !! y ≫= (.!! x) = Some o
               /\ 0 <= o <= 255 /\ (b <= v -> v <= o) /\ (v <= b -> o <= v).
Proof.
  intros Hsig Hv Hi Hb out. subst out. unfold ImageFilter__call__. cbv zeta.
  apply Qeq_bool_iff in Hsig. rewrite Hsig. cbn [negb].
  destruct (Qle_bool (unsharp_mask_amount self) 0) eqn:Ea; cbn [negb].
  - split; [reflexivity |]. exists v. split; [exact Hi |]. lia.
  - assert (Hn : ~ (unsharp_mask_amount self <= 0)%Q)
      by (intros H; apply Qle_bool_iff in H; congruence).
    split; [intros H; contradiction |].
    apply unsharp_mask_pixel with (b := b); try assumption.
    apply Qnot_le_lt in Hn. lra.
Qed.

Lemma image_filter_sharpens_witness :
  let blur := fun (img : list (list Z)) (_ : Z * Z) (_ : Q) =>
                map (map (fun _ => 100)) img in
  let self := {| unsharp_mask_amount := 1 # 2; unsharp_mask_sigma := 1;
                 bilateral_filter_sigma := 0 |} in
  let img := [[90; 120]; [100; 250]] in
  let out := ImageFilter__call__ blur (fun img _ _ _ => img) self img in
  ((unsharp_mask_amount self <= 0)%Q -> out = img)
  /\ exists o, out !! 0%nat ≫= (.!! 1%nat) = Some o
               /\ 0 <= o <= 255 /\ (100 <= 120 -> 120 <= o) /\ (120 <= 100 -> o <= 120).
Proof.
  intros blur self img.
  apply (image_filter_sharpens blur (fun img _ _ _ => img) self img 0 1 120 100).
  - reflexivity.
  - lia.
  - reflexivity.
  - reflexivity.
Defined.

(** X17: the threshold of [unsharp_mask] works on one side only.  The
    difference [image - blurred] is taken in 8-bit arithmetic, so on an
    8-bit image a pixel brighter than its blur by less than the
    threshold keeps its value, while a pixel darker than its blur by [d]
    is sharpened all the same, as its difference wraps to [256 - d] (for
    a threshold of at most [256 - d]). *)
Theorem unsharp_threshold_is_one_sided
    (cv2_GaussianBlur : list (list Z) -> Z * Z -> Q -> list (list Z))
    (image : list (list Z)) (kernel_size : Z * Z)
    (sigma amount threshold : Q) (y x : nat) (v b : Z) :
  (0 < threshold)%Q -> 0 <= v <= 255 -> 0 <= b <= 255 ->
  image !! y ≫= (.!! x) = Some v ->
  cv2_GaussianBlur image kernel_size sigma !! y ≫= (.!! x) = Some b ->
  let held := unsharp_mask cv2_GaussianBlur image kernel_size sigma amount threshold in
  let free := unsharp_mask cv2_GaussianBlur image kernel_size sigma amount 0 in
  (b <= v -> (inject_Z (v - b) < threshold)%Q -> held !! y ≫= (.!! x) = Some v)
  /\ (v < b -> (threshold <= inject_Z (256 - (b - v)))%Q ->
      held !! y ≫= (.!! x) = free !! y ≫= (.!! x)).
Proof.
  intros Ht Hv Hbr Hi Hb held free. subst held free.
  apply pixel_inv in Hi as (ri & Hi & Hi'). apply pixel_inv in Hb as (rb & Hb & Hb').
  unfold unsharp_mask. cbv zeta.
  assert (Et : Qle_bool threshold 0 = false).
  { destruct (Qle_bool threshold 0) eqn:E; [| reflexivity].
    apply Qle_bool_iff in E. exfalso. lra. }
  rewrite Et. change (Qle_bool 0 0) with true. cbn [negb].
  rewrite !lookup_zip_with, !list_lookup_fmap, !lookup_zip_with, Hi, Hb.
  cbn [mbind option_bind fmap option_fmap option_map].
  rewrite !lookup_zip_with, !list_lookup_fmap, !lookup_zip_with, Hi', Hb'.
  cbn [mbind option_bind fmap option_fmap option_map].
  split.
  - intros Hbv Hlt. rewrite Z.mod_small by lia.
    destruct (Qle_bool threshold (inject_Z (v - b))) eqn:E; [| reflexivity].
    apply Qle_bool_iff in E. exfalso. lra.
  - intros Hvb Hle.
    replace ((v - b) mod 256) with (256 - (b - v)).
    + apply Qle_bool_iff in Hle. rewrite Hle. reflexivity.
    + replace (v - b) with (256 - (b - v) + (-1) * 256) by lia.
      rewrite Z.mod_add by lia. rewrite Z.mod_small by lia. reflexivity.
Qed.

Lemma unsharp_threshold_is_one_sided_witness :
  let blur := fun (img : list (list Z)) (_ : Z * Z) (_ : Q) =>
                map (map (fun _ => 100)) img in
  let image := [[98; 102]] in
  let held := unsharp_mask blur image (5, 5) 1 1 5 in
  let free := unsharp_mask blur image (5, 5) 1 1 0 in
  (100 <= 98 -> (inject_Z (98 - 100) < 5)%Q -> held !! 0%nat ≫= (.!! 0%nat) = Some 98)
  /\ (98 < 100 -> (5 <= inject_Z (256 - (100 - 98)))%Q ->
      held !! 0%nat ≫= (.!! 0%nat) = free !! 0%nat ≫= (.!! 0%nat)).
Proof.
  intros blur image.
  apply (unsharp_threshold_is_one_sided blur image (5, 5) 1 1 5 0 0 98 100).
  - reflexivity.
  - lia.
  - lia.
  - reflexivity.
  - reflexivity.
Defined.

(** ** Channel compositor: missing channels *)

(** X18: when one of the five channels is missing the compositor raises
    [AssertionError] before any upsampling: the caller's mapping is left
    as it was. *)
Theorem merge_channels_missing_key
    (cv2_resize : image -> image)
    (cv2_cvtColor : conversion_code -> list (list (bgr Z)) -> list (list (bgr Z)))
    (channels : gmap string image) :
  channels !! "R" = None \/ channels !! "G" = None \/ channels !! "W" = None
  \/ channels !! "B" = None \/ channels !! "grayscale" = None ->
  merge_channels_into_color_image cv2_resize cv2_cvtColor channels
  = (channels, inl AssertionError).
Proof.
  intros H. unfold merge_channels_into_color_image.
  destruct (channels !! "R") as [r |] eqn:ER; [| reflexivity].
  destruct (channels !! "G") as [g |] eqn:EG; [| reflexivity].
  destruct (channels !! "W") as [w |] eqn:EW; [| reflexivity].
  destruct (channels !! "B") as [b |] eqn:EB; [| reflexivity].
  destruct (channels !! "grayscale") as [gray |] eqn:Egray; [| reflexivity].
  exfalso. destruct H as [H | [H | [H | [H | H]]]]; discriminate.
Qed.

Lemma merge_channels_missing_key_witness :
  let channels : gmap string image :=
    <["R" := [[1 # 2]]%Q]> (<["G" := [[1 # 4]]%Q]> (<["B" := [[1 # 8]]%Q]>
      (<["grayscale" := [[3 # 8; 1]; [0; 1 # 2]]%Q]> ∅))) in
  merge_channels_into_color_image pixel_doubling (fun _ img => img) channels
  = (channels, inl AssertionError).
Proof.
  intros channels.
  apply (merge_channels_missing_key pixel_doubling (fun _ img => img) channels).
  right. right. left. vm_compute. reflexivity.
Defined.

(** ** Event preprocessor *)

Lemma py_index_in_range (n : nat) (i : Z) :
  index_in_range n i ->
  py_index (Z.of_nat n) i = Some (wrap_index n i) /\ (wrap_index n i < n)%nat.
Proof.
  unfold index_in_range, py_index, wrap_index. intros Hi.
  replace ((- Z.of_nat n <=? i) && (i <? Z.of_nat n)) with true
    by (symmetry; apply andb_true_iff; split; [apply Z.leb_le | apply Z.ltb_lt]; lia).
  split; [reflexivity |]. destruct (Z.ltb_spec i 0); lia.
Qed.

Lemma py_index_out_of_range (n : nat) (i : Z) :
  ~ index_in_range n i -> py_index (Z.of_nat n) i = None.
Proof.
  unfold index_in_range, py_index. intros Hi.
  destruct (Z.leb_spec (- Z.of_nat n) i); [| reflexivity].
  destruct (Z.ltb_spec i (Z.of_nat n)); [lia | reflexivity].
Qed.

Lemma insert_as_alter {A} (f : A -> A) (l : list A) (i : nat) (a : A) :
  l !! i = Some a -> <[i := f a]> l = alter f i l.
Proof.
  revert i. induction l as [| b l IH]; intros [| i] Hl; try discriminate.
  - injection Hl as ->. reflexivity.
  - cbn. f_equal. apply IH. exact Hl.
Qed.

Lemma zero_pixel_in_range (H W : nat) (plane : image) (y x : Z) :
  length plane = H -> Forall (fun row => length row = W) plane ->
  index_in_range H y -> index_in_range W x ->
  zero_pixel y x plane = Some (clear_pixel (wrap_index H y) (wrap_index W x) plane).
Proof.
  intros HH HW Hy Hx. unfold zero_pixel. rewrite HH.
  destruct (py_index_in_range H y Hy) as [-> Hlt]. cbn.
  destruct (lookup_lt_is_Some_2 plane (wrap_index H y)) as [row Hrow]; [lia |].
  rewrite Hrow. cbn.
  rewrite (Forall_lookup_1 _ _ _ _ HW Hrow).
  destruct (py_index_in_range W x Hx) as [-> _]. cbn.
  f_equal. unfold clear_pixel.
  apply (insert_as_alter (fun row => <[wrap_index W x := 0%Q]> row)). exact Hrow.
Qed.

Lemma zero_pixel_out_of_range (H W : nat) (plane : image) (y x : Z) :
  length plane = H -> Forall (fun row => length row = W) plane ->
  ~ (index_in_range H y /\ index_in_range W x) ->
  zero_pixel y x plane = None.
Proof.
  intros HH HW Hno. unfold zero_pixel. rewrite HH.
  destruct (py_index (Z.of_nat H) y) as [iy |] eqn:Ey; [| reflexivity]. cbn.
  destruct (plane !! iy) as [row |] eqn:Erow; [| reflexivity]. cbn.
  rewrite (Forall_lookup_1 _ _ _ _ HW Erow).
  rewrite py_index_out_of_range; [reflexivity |].
  intros Hx. apply Hno. split; [| exact Hx].
  unfold py_index in Ey. unfold index_in_range.
  destruct (Z.leb_spec (- Z.of_nat H) y); [| discriminate].
  destruct (Z.ltb_spec y (Z.of_nat H)); [lia | discriminate].
Qed.

Lemma mapM_total {A B} (f : A -> option B) (g : A -> B) (l : list A) :
  Forall (fun a => f a = Some (g a)) l -> mapM f l = Some (map g l).
Proof.
  intros Hl. apply mapM_Some. apply Forall2_fmap_r.
  apply Forall_Forall2_diag. exact Hl.
Qed.

Lemma clear_pixel_shape (H W y x : nat) (plane : image) :
  length plane = H /\ Forall (fun row => length row = W) plane ->
  length (clear_pixel y x plane) = H
  /\ Forall (fun row => length row = W) (clear_pixel y x plane).
Proof.
  intros [HH HW]. unfold clear_pixel. split.
  - rewrite length_alter. exact HH.
  - apply Forall_alter; [exact HW |].
    intros row _ Hrow. rewrite length_insert. exact Hrow.
Qed.

Lemma clear_tensor_shape (C H W y x : nat) (events : list (list image)) :
  tensor_shape C H W events ->
  tensor_shape C H W (map (map (clear_pixel y x)) events).
Proof.
  unfold tensor_shape. intros Hs. apply Forall_fmap.
  eapply Forall_impl; [exact Hs |]. intros sample [HC Hp]. cbn. split.
  - rewrite length_map. exact HC.
  - apply Forall_fmap. eapply Forall_impl; [exact Hp |].
    intros plane Hplane. apply clear_pixel_shape. exact Hplane.
Qed.

Lemma zero_tensor_in_range (C H W : nat) (events : list (list image)) (y x : Z) :
  tensor_shape C H W events -> index_in_range H y -> index_in_range W x ->
  mapM (mapM (zero_pixel y x)) events
  = Some (map (map (clear_pixel (wrap_index H y) (wrap_index W x))) events).
Proof.
  intros Hs Hy Hx. apply mapM_total.
  eapply Forall_impl; [exact Hs |]. intros sample [_ Hp]. cbn.
  apply mapM_total. eapply Forall_impl; [exact Hp |].
  intros plane [HH HW]. cbn. apply (zero_pixel_in_range H W); assumption.
Qed.

Lemma tensor_entry_bounds (C H W : nat) (events : list (list image))
      (n c y x : nat) (v : Q) :
  tensor_shape C H W events -> tensor_entry events n c y x = Some v ->
  (y < H)%nat /\ (x < W)%nat.
Proof.
  unfold tensor_shape, tensor_entry. intros Hs He.
  destruct (events !! n) as [sample |] eqn:En; [| discriminate]. cbn in He.
  destruct (sample !! c) as [plane |] eqn:Ec; [| discriminate]. cbn in He.
  destruct (plane !! y) as [row |] eqn:Ey; [| discriminate]. cbn in He.
  destruct (Forall_lookup_1 _ _ _ _ Hs En) as [_ Hp].
  destruct (Forall_lookup_1 _ _ _ _ Hp Ec) as [HH HW].
  pose proof (Forall_lookup_1 _ _ _ _ HW Ey) as Hrow. cbn in Hrow.
  apply lookup_lt_Some in Ey. apply lookup_lt_Some in He. lia.
Qed.

Lemma tensor_entry_clear (events : list (list image)) (a b n c y x : nat) (v : Q) :
  tensor_entry events n c y x = Some v ->
  tensor_entry (map (map (clear_pixel a b)) events) n c y x
  = Some (if Nat.eqb a y && Nat.eqb b x then 0%Q else v).
Proof.
  unfold tensor_entry. intros He.
  change (map (map (clear_pixel a b)) events) with (map (clear_pixel a b) <$> events).
  rewrite list_lookup_fmap.
  destruct (events !! n) as [sample |] eqn:En; [| discriminate]. cbn in He |- *.
  change (map (clear_pixel a b) sample) with (clear_pixel a b <$> sample).
  rewrite list_lookup_fmap.
  destruct (sample !! c) as [plane |] eqn:Ec; [| discriminate]. cbn in He |- *.
  destruct (plane !! y) as [row |] eqn:Ey; [| discriminate]. cbn in He.
  unfold clear_pixel.
  destruct (Nat.eqb_spec a y) as [-> | Hay].
  - rewrite list_lookup_alter_eq, Ey. cbn.
    destruct (Nat.eqb_spec b x) as [-> | Hbx].
    + apply list_lookup_insert_eq. apply lookup_lt_Some in He. exact He.
    + rewrite list_lookup_insert_ne by exact Hbx. exact He.
  - rewrite list_lookup_alter_ne by exact Hay. rewrite Ey. cbn. exact He.
Qed.

Lemma tensor_entry_map (f : Q -> Q) (events : list (list image)) (n c y x : nat) :
  tensor_entry (map (map (map (map f))) events) n c y x
  = f <$> tensor_entry events n c y x.
Proof.
  unfold tensor_entry.
  change (map (map (map (map f))) events) with (map (map (map f)) <$> events).
  rewrite list_lookup_fmap.
  destruct (events !! n) as [sample |]; [| reflexivity]. cbn.
  change (map (map (map f)) sample) with (map (map f) <$> sample).
  rewrite list_lookup_fmap.
  destruct (sample !! c) as [plane |]; [| reflexivity]. cbn.
  change (map (map f) plane) with (map f <$> plane).
  rewrite list_lookup_fmap.
  destruct (plane !! y) as [row |]; [| reflexivity]. cbn.
  change (map f row) with (f <$> row).
  rewrite list_lookup_fmap. reflexivity.
Qed.

Lemma tensor_entry_flip (C H W : nat) (events : list (list image)) (n c y x : nat) :
  tensor_shape C H W events -> (y < H)%nat -> (x < W)%nat ->
  tensor_entry (torch_flip events) n c (H - 1 - y) (W - 1 - x)
  = tensor_entry events n c y x.
Proof.
  unfold tensor_shape, tensor_entry, torch_flip. intros Hs Hy Hx.
  match goal with |- context [map ?g events] => change (map g events) with (g <$> events) end.
  rewrite list_lookup_fmap.
  destruct (events !! n) as [sample |] eqn:En; [| reflexivity]. cbn.
  match goal with |- context [map ?g sample] => change (map g sample) with (g <$> sample) end.
  rewrite list_lookup_fmap.
  destruct (sample !! c) as [plane |] eqn:Ec; [| reflexivity]. cbn.
  destruct (Forall_lookup_1 _ _ _ _ Hs En) as [_ Hp].
  destruct (Forall_lookup_1 _ _ _ _ Hp Ec) as [HH HW].
  rewrite reverse_lookup by (rewrite length_map; lia).
  rewrite length_map, HH.
  replace (H - S (H - 1 - y))%nat with y by lia.
  change (map reverse plane) with (reverse <$> plane).
  rewrite list_lookup_fmap.
  destruct (plane !! y) as [row |] eqn:Ey; [| reflexivity]. cbn.
  pose proof (Forall_lookup_1 _ _ _ _ HW Ey) as Hrow. cbn in Hrow.
  rewrite reverse_lookup by lia. rewrite Hrow.
  replace (W - S (W - 1 - x))%nat with x by lia. reflexivity.
Qed.

(** The loop over a list of hot pixels that are all inside the frame goes
    through, keeps the shape, and clears exactly the listed pixels. *)
Lemma zero_hot_pixels_prefix (C H W : nat) (before : list (Z * Z)) :
  Forall (fun '(x, y) => index_in_range H y /\ index_in_range W x) before ->
  forall events, tensor_shape C H W events ->
  exists cleared,
    tensor_shape C H W cleared
    /\ length cleared = length events
    /\ (forall n c y x v, tensor_entry events n c y x = Some v ->
         tensor_entry cleared n c y x
         = Some (if is_hot H W before y x then 0%Q else v))
    /\ forall rest, zero_hot_pixels (before ++ rest) events
                    = zero_hot_pixels rest cleared.
Proof.
  induction 1 as [| [hx hy] before [Hy Hx] Hbefore IH]; intros events Hs.
  - exists events. repeat split; auto.
  - destruct (IH _ (clear_tensor_shape C H W (wrap_index H hy) (wrap_index W hx)
                      events Hs)) as (cleared & Hsc & Hlen & Hent & Hrest).
    exists cleared. split; [exact Hsc |]. split; [| split].
    + rewrite Hlen, length_map. reflexivity.
    + intros n c y x v Hv.
      rewrite (Hent n c y x _ (tensor_entry_clear events _ _ n c y x v Hv)).
      change (is_hot H W ((hx, hy) :: before) y x)
        with (Nat.eqb (wrap_index H hy) y && Nat.eqb (wrap_index W hx) x
              || is_hot H W before y x).
      destruct (Nat.eqb (wrap_index H hy) y && Nat.eqb (wrap_index W hx) x);
        destruct (is_hot H W before y x); reflexivity.
    + intros rest. cbn [app zero_hot_pixels].
      rewrite (zero_tensor_in_range C H W events hy hx Hs Hy Hx). apply Hrest.
Qed.

Lemma maybe_normalize_entry (torch_std : list Q -> Q) (skip : bool)
      (events : list (list image)) (n c y x : nat) (w : Q) :
  tensor_entry events n c y x = Some w -> w = 0%Q \/ skip = true ->
  tensor_entry (if negb skip then normalize_nonzero torch_std events else events)
               n c y x = Some w.
Proof.
  intros He Hw. destruct skip; cbn [negb]; [exact He |].
  destruct Hw as [-> | Hw]; [| discriminate].
  unfold normalize_nonzero. cbv zeta. rewrite tensor_entry_map, He. reflexivity.
Qed.

(** X19: when every listed hot pixel lies inside the frame (indices in
    [[-H, H)] and [[-W, W)], negative ones counting from the end) the call
    raises nothing; each listed pixel is 0 in every plane of the caller's
    tensor and, mirrored when the tensor is flipped, in every plane of the
    returned tensor, also after the normalization.  Without normalization
    every other entry keeps its value. *)
Theorem preprocessor_clears_hot_pixels
    (torch_std : list Q -> Q) (self : EventPreprocessor)
    (C H W : nat) (events : list (list image)) :
  tensor_shape C H W events ->
  Forall (fun '(x, y) => index_in_range H y /\ index_in_range W x)
         (hot_pixel_locations self) ->
  exists caller out,
    EventPreprocessor__call__ torch_std self events = (caller, inr out)
    /\ forall n c i j v, tensor_entry events n c i j = Some v ->
       let i' := if flip self then (H - 1 - i)%nat else i in
       let j' := if flip self then (W - 1 - j)%nat else j in
       (is_hot H W (hot_pixel_locations self) i j = true ->
        tensor_entry caller n c i j = Some 0%Q
        /\ tensor_entry out n c i' j' = Some 0%Q)
       /\ (is_hot H W (hot_pixel_locations self) i j = false ->
           no_normalize self = true ->
           tensor_entry caller n c i j = Some v
           /\ tensor_entry out n c i' j' = Some v).
Proof.
  intros Hs Hhot.
  destruct (zero_hot_pixels_prefix C H W _ Hhot events Hs)
    as (cleared & Hsc & _ & Hent & Hrest).
  specialize (Hrest []). rewrite app_nil_r in Hrest. cbn in Hrest.
  unfold EventPreprocessor__call__. rewrite Hrest.
  destruct (flip self) eqn:Eflip; cbv zeta.
  - eexists. eexists. split; [reflexivity |].
    intros n c i j v Hv.
    destruct (tensor_entry_bounds C H W events n c i j v Hs Hv) as [Hi Hj].
    pose proof (Hent n c i j v Hv) as Hc.
    pose proof (tensor_entry_flip C H W cleared n c i j Hsc Hi Hj) as Hf.
    split.
    + intros Hh. rewrite Hh in Hc. split; [exact Hc |].
      apply maybe_normalize_entry; [| left; reflexivity].
      rewrite Hf. exact Hc.
    + intros Hh Hn. rewrite Hh in Hc. split; [exact Hc |].
      apply maybe_normalize_entry; [| right; exact Hn].
      rewrite Hf. exact Hc.
  - eexists. eexists. split; [reflexivity |].
    intros n c i j v Hv.
    pose proof (Hent n c i j v Hv) as Hc.
    split.
    + intros Hh. rewrite Hh in Hc.
      split; (apply maybe_normalize_entry; [exact Hc | left; reflexivity]).
    + intros Hh Hn. rewrite Hh in Hc.
      split; (apply maybe_normalize_entry; [exact Hc | right; exact Hn]).
Qed.

Lemma preprocessor_clears_hot_pixels_witness :
  let self := {| no_normalize := false;
                 hot_pixel_locations := [(1, 0); (-1, -1)];
                 flip := true |} in
  let events := [[[[1; 5; 2]; [0; 3; 4]]%Q]] in
  exists caller out,
    EventPreprocessor__call__ (fun _ => 2%Q) self events = (caller, inr out)
    /\ forall n c i j v, tensor_entry events n c i j = Some v ->
       let i' := if flip self then (2 - 1 - i)%nat else i in
       let j' := if flip self then (3 - 1 - j)%nat else j in
       (is_hot 2 3 (hot_pixel_locations self) i j = true ->
        tensor_entry caller n c i j = Some 0%Q
        /\ tensor_entry out n c i' j' = Some 0%Q)
       /\ (is_hot 2 3 (hot_pixel_locations self) i j = false ->
           no_normalize self = true ->
           tensor_entry caller n c i j = Some v
           /\ tensor_entry out n c i' j' = Some v).
Proof.
  intros self events.
  apply (preprocessor_clears_hot_pixels (fun _ => 2%Q) self 1 2 3 events).
  - subst events. repeat constructor.
  - subst self. repeat constructor; vm_compute; discriminate.
Defined.

(** X21: the first listed hot pixel that lies outside the frame makes the
    call raise [IndexError]; the hot pixels listed before it are already
    cleared in the caller's tensor, the other entries are as they were. *)
Theorem preprocessor_index_error
    (torch_std : list Q -> Q) (self : EventPreprocessor)
    (C H W : nat) (events : list (list image))
    (before after : list (Z * Z)) (x y : Z) :
  tensor_shape C H W events -> events <> [] -> (0 < C)%nat ->
  hot_pixel_locations self = before ++ (x, y) :: after ->
  Forall (fun '(x, y) => index_in_range H y /\ index_in_range W x) before ->
  ~ (index_in_range H y /\ index_in_range W x) ->
  exists caller,
    EventPreprocessor__call__ torch_std self events = (caller, inl IndexError)
    /\ forall n c i j v, tensor_entry events n c i j = Some v ->
       tensor_entry caller n c i j
       = Some (if is_hot H W before i j then 0%Q else v).
Proof.
  intros Hs Hne HC Hhot Hbefore Hout.
  destruct (zero_hot_pixels_prefix C H W _ Hbefore events Hs)
    as (cleared & Hsc & Hlen & Hent & Hrest).
  assert (Hnone : mapM (mapM (zero_pixel y x)) cleared = None).
  { apply mapM_None.
    destruct cleared as [| sample cleared].
    - destruct events; [congruence | discriminate].
    - apply Exists_cons_hd. apply mapM_None.
      apply Forall_cons in Hsc as [[Hlc Hp] _].
      destruct sample as [| plane sample]; [cbn in Hlc; lia |].
      apply Exists_cons_hd.
      apply Forall_cons in Hp as [[HH HW] _].
      apply (zero_pixel_out_of_range H W); assumption. }
  exists cleared. split; [| exact Hent].
  unfold EventPreprocessor__call__. rewrite Hhot, Hrest.
  cbn [zero_hot_pixels]. rewrite Hnone. reflexivity.
Qed.

Lemma preprocessor_index_error_witness :
  let self := {| no_normalize := false;
                 hot_pixel_locations := [(0, 0); (2, 0)];
                 flip := true |} in
  let events := [[[[1; 5]; [0; 3]]%Q]] in
  exists caller,
    EventPreprocessor__call__ (fun _ => 2%Q) self events = (caller, inl IndexError)
    /\ forall n c i j v, tensor_entry events n c i j = Some v ->
       tensor_entry caller n c i j
       = Some (if is_hot 2 2 [(0, 0)] i j then 0%Q else v).
Proof.
  intros self events.
  apply (preprocessor_index_error (fun _ => 2%Q) self 1 2 2 events
           [(0, 0)] [] 2 0).
  - subst events. repeat constructor.
  - discriminate.
  - lia.
  - reflexivity.
  - repeat constructor; vm_compute; discriminate.
  - unfold index_in_range. cbn. lia.
Defined.

(** ** Intensity rescaler *)

Lemma length_concat_uniform {A} (rows : list (list A)) (w : nat) :
  Forall (fun row => length row = w) rows ->
  length (concat rows) = (length rows * w)%nat.
Proof.
  induction 1 as [| row rows Hrow _ IH]; [reflexivity |].
  cbn [concat]. rewrite length_app, IH, Hrow. reflexivity.
Qed.

Lemma hdr_region_length (border : Z) (img : image) (h w : nat) :
  0 <= border ->
  length img = h -> Forall (fun row => length row = w) img ->
  length (hdr_region border img)
  = if border =? 0 then 0%nat
    else ((h - 2 * Z.to_nat border) * (w - 2 * Z.to_nat border))%nat.
Proof.
  intros Hb Hh Hw. unfold hdr_region.
  destruct (Z.eqb_spec border 0) as [-> | Hne].
  - change (- 0) with 0. unfold py_slice at 2, slice_bound.
    change (0 <? 0) with false. cbv iota.
    replace (Z.to_nat (Z.min 0 (Z.of_nat (length img)) - Z.min 0 (Z.of_nat (length img))))
      with 0%nat by lia.
    reflexivity.
  - destruct (border_pixel border img h w 0 0 ltac:(lia) Hh Hw) as (H1 & H2 & _).
    rewrite (length_concat_uniform _ _ H2), H1. reflexivity.
Qed.

Lemma IntensityRescaler__init___inv (options : rescaler_options) (self : IntensityRescaler) :
  IntensityRescaler__init__ options = inr self ->
  auto_hdr self = (if opt_color options then true else opt_auto_hdr options)
  /\ (0 <= auto_hdr_min_percentile self /\ auto_hdr_min_percentile self < 30)%Q
  /\ (70 <= auto_hdr_max_percentile self <= 100)%Q
  /\ 0 < auto_hdr_moving_average_size self <= 100
  /\ 0 <= auto_hdr_border self < 50
  /\ intensity_bounds self = [].
Proof.
  unfold IntensityRescaler__init__. cbv zeta.
  destruct (Qle_bool 0 (opt_auto_hdr_min_percentile options)) eqn:E1; [| discriminate].
  destruct (Qle_bool 30 (opt_auto_hdr_min_percentile options)) eqn:E2; [discriminate |].
  destruct (Qle_bool 70 (opt_auto_hdr_max_percentile options)) eqn:E3; [| discriminate].
  destruct (Qle_bool (opt_auto_hdr_max_percentile options) 100) eqn:E4; [| discriminate].
  destruct (Z.ltb_spec 0 (opt_auto_hdr_moving_average_size options)); [| discriminate].
  destruct (Z.leb_spec (opt_auto_hdr_moving_average_size options) 100); [| discriminate].
  destruct (Z.leb_spec 0 (opt_auto_hdr_border options)); [| discriminate].
  destruct (Z.ltb_spec (opt_auto_hdr_border options) 50); [| discriminate].
  cbn [negb andb]. intros [= <-]. cbn.
  apply Qle_bool_iff in E1, E3, E4.
  assert (E2' : ~ (30 <= opt_auto_hdr_min_percentile options)%Q).
  { intros H'. apply Qle_bool_iff in H'. congruence. }
  apply Qnot_le_lt in E2'.
  repeat split; try assumption; try lia; reflexivity.
Qed.

Section RescalerFacts.
Variable robust_min : list Q -> Q -> exn + Q.
Variable robust_max : list Q -> Q -> exn + Q.
Variable np_median : list Q -> Q.

(** The deque after [popleft], when the test of the call asks for it. *)
Lemma rescaler_popleft (self : IntensityRescaler) :
  0 <= auto_hdr_moving_average_size self ->
  (if auto_hdr_moving_average_size self <? Z.of_nat (length (intensity_bounds self))
   then match intensity_bounds self with
        | [] => None
        | _ :: rest => Some rest
        end
   else Some (intensity_bounds self))
  = Some (window_after_popleft self).
Proof.
  intros Hsize. unfold window_after_popleft.
  destruct (Z.ltb_spec (auto_hdr_moving_average_size self)
              (Z.of_nat (length (intensity_bounds self)))) as [Hlt | Hge];
    [| reflexivity].
  destruct (intensity_bounds self); [simpl in Hlt; lia | reflexivity].
Qed.

(** One call with [auto_hdr] on, by the outcome of [robust_min] and
    [robust_max]. *)
Lemma rescaler_call_cases (self : IntensityRescaler) (img : image) :
  auto_hdr self = true ->
  0 <= auto_hdr_moving_average_size self ->
  let region := hdr_region (auto_hdr_border self) img in
  let run := IntensityRescaler__call__ robust_min robust_max np_median self img in
  auto_hdr run.1 = auto_hdr self
  /\ auto_hdr_min_percentile run.1 = auto_hdr_min_percentile self
  /\ auto_hdr_max_percentile run.1 = auto_hdr_max_percentile self
  /\ auto_hdr_moving_average_size run.1 = auto_hdr_moving_average_size self
  /\ auto_hdr_border run.1 = auto_hdr_border self
  /\ match robust_min region (auto_hdr_min_percentile self),
           robust_max region (auto_hdr_max_percentile self) with
     | inr rmin, inr rmax =>
         intensity_bounds run.1 = window_after_popleft self ++ [(rmin, rmax)]
         /\ exists out, run.2 = inr out
     | inl e, _ | inr _, inl e =>
         intensity_bounds run.1 = window_after_popleft self /\ run.2 = inl e
     end.
Proof.
  intros Hon Hsize region run. subst run region.
  unfold IntensityRescaler__call__. rewrite Hon. cbv zeta.
  rewrite (rescaler_popleft self Hsize).
  cbn [set_intensity_bounds auto_hdr auto_hdr_min_percentile auto_hdr_max_percentile
         auto_hdr_moving_average_size auto_hdr_border intensity_bounds].
  destruct (robust_min _ _) as [e | rmin].
  - cbn. repeat split; try reflexivity; exact Hon.
  - destruct (robust_max _ _) as [e | rmax].
    + cbn. repeat split; try reflexivity; exact Hon.
    + cbn. repeat split; try reflexivity; try exact Hon. eexists. reflexivity.
Qed.

Lemma rescale_all_window (imgs : list image) (self : IntensityRescaler) :
  auto_hdr self = true ->
  0 <= auto_hdr_moving_average_size self ->
  Z.of_nat (length (intensity_bounds self)) <= auto_hdr_moving_average_size self + 1 ->
  Forall (robust_bounds_return robust_min robust_max self) imgs ->
  exists final,
    rescale_all robust_min robust_max np_median self imgs = (final, None)
    /\ Z.of_nat (length (intensity_bounds final))
       = Z.min (Z.of_nat (length (intensity_bounds self)) + Z.of_nat (length imgs))
           (auto_hdr_moving_average_size self + 1).
Proof.
  revert self. induction imgs as [| img imgs IH]; intros self Hon Hsize Hlen Hret.
  - exists self. cbn [rescale_all length]. split; [reflexivity | lia].
  - apply Forall_cons in Hret as [[(rmin & Emin) (rmax & Emax)] Hret].
    pose proof (rescaler_call_cases self img Hon Hsize) as Hcall. cbv zeta in Hcall.
    rewrite Emin, Emax in Hcall.
    destruct Hcall as (Eon & Epmin & Epmax & Esize & Eborder & Ebounds & out & Eout).
    cbn [rescale_all].
    destruct (IntensityRescaler__call__ robust_min robust_max np_median self img)
      as [self' result] eqn:Ecall.
    cbn [fst snd] in *. subst result.
    assert (Hpop : Z.of_nat (length (intensity_bounds self'))
                   = Z.min (Z.of_nat (length (intensity_bounds self)) + 1)
                       (auto_hdr_moving_average_size self + 1)).
    { rewrite Ebounds, length_app. cbn [length]. unfold window_after_popleft.
      destruct (Z.ltb_spec (auto_hdr_moving_average_size self)
                  (Z.of_nat (length (intensity_bounds self)))) as [Hlt | Hge].
      - destruct (intensity_bounds self) as [| p l]; cbn [length tail] in *; lia.
      - lia. }
    destruct (IH self') as (final & Efinal & Flen).
    + congruence.
    + lia.
    + lia.
    + eapply Forall_impl; [exact Hret |]. intros img'.
      unfold robust_bounds_return. rewrite Eborder, Epmin, Epmax. tauto.
    + exists final. split; [exact Efinal |]. rewrite Flen, Esize, Hpop.
      cbn [length]. lia.
Qed.

Lemma rescale_all_off (imgs : list image) (self : IntensityRescaler) :
  auto_hdr self = false ->
  rescale_all robust_min robust_max np_median self imgs = (self, None).
Proof.
  intros Hoff. induction imgs as [| img imgs IH]; [reflexivity |].
  cbn [rescale_all]. unfold IntensityRescaler__call__. rewrite Hoff. exact IH.
Qed.
End RescalerFacts.

(** X13: on an [IntensityRescaler] built by [__init__], color
    reconstruction forces [auto_hdr] on and the window size lies in
    (0, 100].  With [auto_hdr] on, over a sequence of calls in which
    every call of [robust_min] and of [robust_max] returns, no exception
    is raised ([popleft] never meets an empty deque) and the window of
    bounds grows by one entry per call up to
    [auto_hdr_moving_average_size + 1] entries, one more than the
    configured size, and stays there; with [auto_hdr] off no call fails
    and the window stays empty. *)
Theorem rescaler_window_size
    (robust_min robust_max : list Q -> Q -> exn + Q) (np_median : list Q -> Q)
    (options : rescaler_options) (self : IntensityRescaler) (imgs : list image) :
  IntensityRescaler__init__ options = inr self ->
  (auto_hdr self = true ->
   Forall (robust_bounds_return robust_min robust_max self) imgs) ->
  exists final,
    rescale_all robust_min robust_max np_median self imgs = (final, None)
    /\ (opt_color options = true -> auto_hdr self = true)
    /\ 0 < auto_hdr_moving_average_size self <= 100
    /\ Z.of_nat (length (intensity_bounds final))
       = (if auto_hdr self
          then Z.min (Z.of_nat (length imgs)) (auto_hdr_moving_average_size self + 1)
          else 0).
Proof.
  intros Hinit Hret.
  destruct (IntensityRescaler__init___inv options self Hinit)
    as (Hon & _ & _ & Hsize & _ & Hempty).
  assert (Hcolor : opt_color options = true -> auto_hdr self = true).
  { intros Hc. rewrite Hon, Hc. reflexivity. }
  destruct (auto_hdr self) eqn:Eon.
  - destruct (rescale_all_window robust_min robust_max np_median imgs self)
      as (final & Efinal & Elen); try (rewrite ?Hempty; simpl; auto; lia).
    exists final. split; [exact Efinal |]. split; [exact Hcolor |].
    split; [exact Hsize |]. rewrite Elen, Hempty. reflexivity.
  - exists self. split; [apply rescale_all_off; exact Eon |].
    split; [exact Hcolor |]. split; [exact Hsize |]. rewrite Hempty. reflexivity.
Qed.

Lemma rescaler_window_size_witness :
  let options := {| opt_auto_hdr := false; opt_color := true;
                    opt_auto_hdr_min_percentile := 1;
                    opt_auto_hdr_max_percentile := 99;
                    opt_auto_hdr_moving_average_size := 2;
                    opt_auto_hdr_border := 1 |} in
  let self := {| auto_hdr := true; auto_hdr_min_percentile := 1;
                 auto_hdr_max_percentile := 99;
                 auto_hdr_moving_average_size := 2; auto_hdr_border := 1;
                 intensity_bounds := [] |} in
  let img (v : Q) : image := [[0; 0; 0]; [0; v; 0]; [0; 0; 0]]%Q in
  let imgs := [img 0; img 1; img 0; img 1; img 0]%Q in
  exists final,
    rescale_all first_pixel first_pixel Qsum self imgs = (final, None)
    /\ (opt_color options = true -> auto_hdr self = true)
    /\ 0 < auto_hdr_moving_average_size self <= 100
    /\ Z.of_nat (length (intensity_bounds final))
       = (if auto_hdr self
          then Z.min (Z.of_nat (length imgs)) (auto_hdr_moving_average_size self + 1)
          else 0).
Proof.
  intros options self img imgs.
  apply (rescaler_window_size first_pixel first_pixel Qsum options self imgs).
  - reflexivity.
  - intros _. subst imgs. repeat constructor; vm_compute; eexists; reflexivity.
Defined.

(** X14: with [auto_hdr] on, a call passes to [robust_min] and
    [robust_max] the image without an outer frame of [auto_hdr_border]
    pixels.  With a border of 0, which [__init__] accepts, the slice
    [img[0:-0, 0:-0]] is empty, whatever the image is.  When both
    functions return, their results are appended as one entry to the
    window, from which the oldest entry has been dropped if it held more
    than [auto_hdr_moving_average_size] entries; when one of them raises,
    the call raises the same exception and nothing is appended. *)
Theorem rescaler_region_of_bounds
    (robust_min robust_max : list Q -> Q -> exn + Q) (np_median : list Q -> Q)
    (self : IntensityRescaler) (img : image) (h w : nat) :
  auto_hdr self = true ->
  0 <= auto_hdr_moving_average_size self -> 0 <= auto_hdr_border self ->
  length img = h -> Forall (fun row => length row = w) img ->
  let region := hdr_region (auto_hdr_border self) img in
  let run := IntensityRescaler__call__ robust_min robust_max np_median self img in
  length region
  = (if auto_hdr_border self =? 0 then 0%nat
     else ((h - 2 * Z.to_nat (auto_hdr_border self))
           * (w - 2 * Z.to_nat (auto_hdr_border self)))%nat)
  /\ match robust_min region (auto_hdr_min_percentile self),
           robust_max region (auto_hdr_max_percentile self) with
     | inr rmin, inr rmax =>
         intensity_bounds run.1 = window_after_popleft self ++ [(rmin, rmax)]
         /\ exists out, run.2 = inr out
     | inl e, _ | inr _, inl e =>
         intensity_bounds run.1 = window_after_popleft self /\ run.2 = inl e
     end.
Proof.
  intros Hon Hsize Hborder Hh Hw region run.
  split; [apply hdr_region_length; assumption |].
  apply (rescaler_call_cases robust_min robust_max np_median self img Hon Hsize).
Qed.

Lemma rescaler_region_of_bounds_witness :
  let self := {| auto_hdr := true; auto_hdr_min_percentile := 1;
                 auto_hdr_max_percentile := 99;
                 auto_hdr_moving_average_size := 2; auto_hdr_border := 0;
                 intensity_bounds := [(0, 1)]%Q |} in
  let img := [[1; 2]; [3; 4]]%Q in
  let run := IntensityRescaler__call__ first_pixel first_pixel Qsum self img in
  hdr_region 0 img = []
  /\ length (hdr_region (auto_hdr_border self) img)
     = (if auto_hdr_border self =? 0 then 0%nat
        else ((2 - 2 * Z.to_nat (auto_hdr_border self))
              * (2 - 2 * Z.to_nat (auto_hdr_border self)))%nat)
  /\ intensity_bounds run.1 = [(0, 1)]%Q /\ run.2 = inl IndexError.
Proof.
  intros self img run. split; [reflexivity |].
  apply (rescaler_region_of_bounds first_pixel first_pixel Qsum self img 2 2).
  - reflexivity.
  - simpl. lia.
  - simpl. lia.
  - reflexivity.
  - repeat constructor.
Defined.

(** * Properties of the IEEE embedding *)

(** ** Rounding of integers *)

Section IEEEArithmetic.
Import IEEE.

Lemma digits2_pos_log2 (p : positive) :
  Z.pos (digits2_pos p) = Z.log2 (Z.pos p) + 1.
Proof.
  induction p as [p IH | p IH |]; cbn [digits2_pos].
  - rewrite Pos2Z.inj_succ, IH. change (Z.pos p~1) with (2 * Z.pos p + 1).
    rewrite Z.log2_succ_double by lia. lia.
  - rewrite Pos2Z.inj_succ, IH. change (Z.pos p~0) with (2 * Z.pos p).
    rewrite Z.log2_double by lia. lia.
  - reflexivity.
Qed.

Lemma iter_xO_Z (m k : positive) :
  Z.pos (Pos.iter xO m k) = Z.pos m * 2 ^ Z.pos k.
Proof.
  change (Pos.iter xO m k) with (shift_pos k m).
  rewrite shift_pos_correct. change (Z.pow_pos 2 k) with (2 ^ Z.pos k). ring.
Qed.

Lemma iter_pos_eq {A} (f : A -> A) (p : positive) (x : A) :
  SpecFloat.iter_pos f p x = Pos.iter f x p.
Proof.
  revert x. induction p as [p IH | p IH |]; intros x; cbn [SpecFloat.iter_pos Pos.iter].
  - rewrite !IH, !Pos.iter_swap. reflexivity.
  - rewrite !IH. reflexivity.
  - reflexivity.
Qed.

Lemma shr_exact (m k : positive) :
  SpecFloat.iter_pos shr_1 k {| shr_m := Z.pos (Pos.iter xO m k); shr_r := false; shr_s := false |}
  = {| shr_m := Z.pos m; shr_r := false; shr_s := false |}.
Proof.
  rewrite iter_pos_eq. induction k as [| k IH] using Pos.peano_ind.
  - reflexivity.
  - rewrite !Pos.iter_succ, <- Pos.iter_swap.
    cbn [shr_1 orb]. exact IH.
Qed.

Section Rounding.
Variables prec emax : Z.

Lemma round_aux_bounded (s : bool) (m : positive) (e : Z) :
  bounded prec emax m e = true ->
  binary_round_aux prec emax s (Z.pos m) e loc_Exact = S754_finite s m e.
Proof.
  unfold bounded, canonical_mantissa. intros [Hc He]%andb_prop.
  apply Z.eqb_eq in Hc.
  unfold binary_round_aux, shr_fexp. cbn [Zdigits2 shr_record_of_loc].
  rewrite Hc, Z.sub_diag. cbn [shr shr_m loc_of_shr_record round_nearest_even Zdigits2].
  rewrite Hc, Z.sub_diag. cbn [shr shr_m]. rewrite He. reflexivity.
Qed.

Lemma round_aux_shift (s : bool) (m q : positive) (e : Z) :
  bounded prec emax m (e + Z.pos q) = true ->
  binary_round_aux prec emax s (Z.pos (Pos.iter xO m q)) e loc_Exact
  = S754_finite s m (e + Z.pos q).
Proof.
  intros Hb. pose proof Hb as Hb'. unfold bounded, canonical_mantissa in Hb'.
  apply andb_prop in Hb' as [Hc He]. apply Z.eqb_eq in Hc.
  unfold binary_round_aux, shr_fexp at 1. cbn [Zdigits2 shr_record_of_loc].
  assert (Hd : Z.pos (digits2_pos (Pos.iter xO m q)) + e
               = Z.pos (digits2_pos m) + (e + Z.pos q)).
  { rewrite !digits2_pos_log2, iter_xO_Z, Z.log2_mul_pow2 by lia. lia. }
  rewrite Hd, Hc. replace (e + Z.pos q - e) with (Z.pos q) by lia.
  cbn [shr]. rewrite shr_exact.
  cbn [shr_m loc_of_shr_record round_nearest_even].
  unfold shr_fexp. cbn [Zdigits2 shr_record_of_loc].
  rewrite Hc, Z.sub_diag. cbn [shr shr_m]. rewrite He. reflexivity.
Qed.
End Rounding.

(** ** Integers in float64 *)

Lemma canon64_bounded (n : Z) :
  0 < n < 2 ^ 53 ->
  bounded 53 1024 (Z.to_pos (n * 2 ^ (52 - Z.log2 n))) (Z.log2 n - 52) = true.
Proof.
  intros Hn.
  assert (Hl : 0 <= Z.log2 n < 53).
  { split; [apply Z.log2_nonneg | apply Z.log2_lt_pow2; lia]. }
  assert (Hp : 0 < n * 2 ^ (52 - Z.log2 n)).
  { apply Z.mul_pos_pos; [lia | apply Z.pow_pos_nonneg; lia]. }
  unfold bounded, canonical_mantissa. apply andb_true_intro. split.
  - apply Z.eqb_eq. rewrite digits2_pos_log2, Z2Pos.id by exact Hp.
    rewrite Z.log2_mul_pow2 by lia. unfold fexp, emin. lia.
  - apply Z.leb_le. lia.
Qed.

Lemma binary_round_scaled (P : positive) (k n : Z) :
  0 < n < 2 ^ 53 -> 0 <= k -> Z.pos P = n * 2 ^ k ->
  binary_round 53 1024 false P (- k) = canon64 n.
Proof.
  intros Hn Hk HP.
  assert (Hl : 0 <= Z.log2 n < 53).
  { split; [apply Z.log2_nonneg | apply Z.log2_lt_pow2; lia]. }
  pose proof (canon64_bounded n Hn) as Hb.
  assert (Hp : 0 < n * 2 ^ (52 - Z.log2 n)).
  { apply Z.mul_pos_pos; [lia | apply Z.pow_pos_nonneg; lia]. }
  unfold binary_round.
  assert (Hf : fexp 53 1024 (Z.pos (digits2_pos P) + - k) = Z.log2 n - 52).
  { rewrite digits2_pos_log2, HP, Z.log2_mul_pow2 by lia. unfold fexp, emin. lia. }
  rewrite Hf. unfold shl_align.
  destruct (Z.log2 n - 52 - - k) as [| q | q] eqn:Ej.
  - (* no shift *)
    replace (- k) with (Z.log2 n - 52) by lia.
    replace P with (Z.to_pos (n * 2 ^ (52 - Z.log2 n))).
    + apply round_aux_bounded, Hb.
    + apply Pos2Z.inj. rewrite Z2Pos.id by exact Hp. rewrite HP. f_equal. f_equal. lia.
  - (* the rounding shifts right, exactly *)
    replace P with (Pos.iter xO (Z.to_pos (n * 2 ^ (52 - Z.log2 n))) q).
    + rewrite round_aux_shift; replace (- k + Z.pos q) with (Z.log2 n - 52) by lia;
        [reflexivity | exact Hb].
    + apply Pos2Z.inj. rewrite iter_xO_Z, Z2Pos.id by exact Hp. rewrite HP.
      rewrite <- Z.mul_assoc, <- Z.pow_add_r by lia. f_equal. f_equal. lia.
  - (* the alignment shifts left *)
    replace (Pos.iter xO P q) with (Z.to_pos (n * 2 ^ (52 - Z.log2 n))).
    + apply round_aux_bounded, Hb.
    + apply Pos2Z.inj. rewrite iter_xO_Z, Z2Pos.id by exact Hp. rewrite HP.
      rewrite <- Z.mul_assoc, <- Z.pow_add_r by lia. f_equal. f_equal. lia.
Qed.

Lemma of_Z64_canon (n : Z) : 0 < n < 2 ^ 53 -> of_Z64 n = canon64 n.
Proof.
  intros Hn. destruct n as [| p | p]; try lia.
  unfold of_Z64, binary_normalize.
  apply (binary_round_scaled p 0 (Z.pos p)); [exact Hn | lia | lia].
Qed.

Lemma add64_of_Z64_one (b : Z) :
  0 < b -> b + 1 < 2 ^ 53 -> add64 (of_Z64 b) one64 = of_Z64 (b + 1).
Proof.
  intros Hb Hb1. rewrite !of_Z64_canon by lia.
  assert (Hl : 0 <= Z.log2 b < 53).
  { split; [apply Z.log2_nonneg | apply Z.log2_lt_pow2; lia]. }
  assert (Hp : 0 < b * 2 ^ (52 - Z.log2 b)).
  { apply Z.mul_pos_pos; [lia | apply Z.pow_pos_nonneg; lia]. }
  change one64 with (S754_finite false 4503599627370496 (-52)).
  unfold canon64 at 1. unfold add64, SFadd.
  replace (Z.min (Z.log2 b - 52) (-52)) with (- 52) by lia.
  assert (E1 : Z.pos (fst (shl_align (Z.to_pos (b * 2 ^ (52 - Z.log2 b)))
                             (Z.log2 b - 52) (- 52))) = b * 2 ^ 52).
  { unfold shl_align. destruct (- 52 - (Z.log2 b - 52)) as [| q | q] eqn:Ej; cbn [fst].
    - rewrite Z2Pos.id by exact Hp. f_equal. f_equal. lia.
    - lia.
    - rewrite iter_xO_Z, Z2Pos.id by exact Hp.
      rewrite <- Z.mul_assoc, <- Z.pow_add_r by lia. f_equal. f_equal. lia. }
  cbn [cond_Zopp]. rewrite E1.
  change (Z.pos (fst (shl_align 4503599627370496 (-52) (-52)))) with (2 ^ 52).
  destruct (b * 2 ^ 52 + 2 ^ 52) as [| P | P] eqn:EP; try lia.
  cbn [binary_normalize].
  apply (binary_round_scaled P 52 (b + 1)); lia.
Qed.

Lemma log2_bounds (n : Z) : 0 < n < 2 ^ 53 -> 0 <= Z.log2 n < 53.
Proof.
  intros Hn. split; [apply Z.log2_nonneg | apply Z.log2_lt_pow2; lia].
Qed.

Lemma canon64_mantissa (n : Z) :
  0 < n < 2 ^ 53 ->
  Z.pos (Z.to_pos (n * 2 ^ (52 - Z.log2 n))) = n * 2 ^ (52 - Z.log2 n).
Proof.
  intros Hn. pose proof (log2_bounds n Hn).
  apply Z2Pos.id, Z.mul_pos_pos; [lia | apply Z.pow_pos_nonneg; lia].
Qed.

Lemma truncate_canon64 (n : Z) : 0 < n < 2 ^ 53 -> truncate (canon64 n) = Some n.
Proof.
  intros Hn. pose proof (log2_bounds n Hn) as Hl.
  unfold truncate, canon64. cbn [cond_Zopp]. f_equal.
  rewrite canon64_mantissa by exact Hn.
  destruct (Z.log2 n - 52) as [| q | q] eqn:E; try lia.
  - replace (52 - Z.log2 n) with 0 by lia. lia.
  - replace (52 - Z.log2 n) with (Z.pos q) by lia.
    apply Z.div_mul. apply Z.pow_nonzero; lia.
Qed.

Lemma astype_int_of_Z64 (n : Z) : 0 <= n < 2 ^ 53 -> astype_int (of_Z64 n) = n.
Proof.
  intros Hn. destruct (Z.eq_dec n 0) as [-> | Hne]; [reflexivity |].
  rewrite of_Z64_canon by lia. unfold astype_int.
  rewrite truncate_canon64 by lia. unfold int64_min.
  destruct (Z.leb_spec (- 2 ^ 63) n); [| lia].
  destruct (Z.ltb_spec n (2 ^ 63)); [reflexivity | lia].
Qed.

Lemma SFcompare_canon64 (a b : Z) :
  0 < a < 2 ^ 53 -> 0 < b < 2 ^ 53 ->
  SFcompare (canon64 a) (canon64 b) = Some (a ?= b).
Proof.
  intros Ha Hb. pose proof (log2_bounds a Ha) as Hla. pose proof (log2_bounds b Hb) as Hlb.
  pose proof (Z.log2_spec a ltac:(lia)) as Sa.
  pose proof (Z.log2_spec b ltac:(lia)) as Sb.
  unfold canon64, SFcompare. f_equal.
  destruct (Z.compare_spec (Z.log2 a - 52) (Z.log2 b - 52)) as [E | E | E].
  - assert (El : Z.log2 a = Z.log2 b) by lia.
    rewrite El. change (Pos.compare_cont Eq ?x ?y) with (Z.pos x ?= Z.pos y).
    assert (Hp : 0 < 2 ^ (52 - Z.log2 b)) by (apply Z.pow_pos_nonneg; lia).
    rewrite !Z2Pos.id by (apply Z.mul_pos_pos; lia).
    destruct (Z.compare_spec a b) as [Eab | Lab | Lab].
    + subst a. apply Z.compare_refl.
    + apply Z.compare_lt_iff. nia.
    + apply Z.compare_gt_iff. nia.
  - symmetry. apply Z.compare_lt_iff.
    assert (2 ^ Z.succ (Z.log2 a) <= 2 ^ Z.log2 b) by (apply Z.pow_le_mono_r; lia).
    lia.
  - symmetry. apply Z.compare_gt_iff.
    assert (2 ^ Z.succ (Z.log2 b) <= 2 ^ Z.log2 a) by (apply Z.pow_le_mono_r; lia).
    lia.
Qed.

Lemma SFltb_of_Z64 (a b : Z) :
  0 <= a < 2 ^ 53 -> 0 < b < 2 ^ 53 -> SFltb (of_Z64 a) (of_Z64 b) = (a <? b).
Proof.
  intros Ha Hb. rewrite (of_Z64_canon b) by exact Hb.
  destruct (Z.eq_dec a 0) as [-> | Hne].
  - change (of_Z64 0) with (S754_zero false). unfold canon64, SFltb, SFcompare.
    symmetry. apply Z.ltb_lt. lia.
  - rewrite of_Z64_canon by lia. unfold SFltb.
    rewrite SFcompare_canon64 by lia. unfold Z.ltb.
    destruct (a ?= b); reflexivity.
Qed.

Lemma SFleb_zero_of_Z64 (a : Z) : 0 <= a < 2 ^ 53 -> SFleb zero (of_Z64 a) = true.
Proof.
  intros Ha. destruct (Z.eq_dec a 0) as [-> | Hne]; [reflexivity |].
  rewrite of_Z64_canon by lia. reflexivity.
Qed.

(** ** Subtraction of a value from itself *)

Lemma shl_align_same (m : positive) (e : Z) : shl_align m e e = (m, e).
Proof. unfold shl_align. rewrite Z.sub_diag. reflexivity. Qed.

Lemma sub64_diag (t : spec_float) :
  match t with S754_zero _ | S754_finite _ _ _ => True | _ => False end ->
  sub64 t t = zero.
Proof.
  destruct t as [s | s | | s m e]; intros H; try contradiction.
  - destruct s; reflexivity.
  - unfold sub64, SFsub. rewrite Z.min_id, shl_align_same. cbn [fst].
    rewrite Z.sub_diag. reflexivity.
Qed.

(** ** Multiplication by one *)

Lemma mul64_one (p : spec_float) :
  valid_binary 53 1024 p = true -> mul64 p one64 = p.
Proof.
  change one64 with (S754_finite false 4503599627370496 (-52)).
  destruct p as [s | s | | s m e]; intros Hv.
  - destruct s; reflexivity.
  - destruct s; reflexivity.
  - reflexivity.
  - cbn [valid_binary] in Hv. unfold mul64, SFmul.
    rewrite xorb_false_r.
    replace (Z.pos (m * 4503599627370496)) with (Z.pos (Pos.iter xO m 52)).
    + rewrite round_aux_shift; replace (e + -52 + 52) with e by lia; [reflexivity | exact Hv].
    + rewrite iter_xO_Z. reflexivity.
Qed.

(** ** Truncation and floor *)

Lemma truncate_nonneg (x : spec_float) :
  nonneg_finite x = true -> truncate x = Some (floorZ x) /\ 0 <= floorZ x.
Proof.
  destruct x as [s | s | | s m e]; cbn [nonneg_finite]; try discriminate.
  - intros _. split; [reflexivity | cbn; lia].
  - destruct s; [discriminate |]. intros _. cbn [truncate floorZ cond_Zopp].
    destruct e as [| q | q].
    + split; [reflexivity | lia].
    + split; [reflexivity |]. apply Z.mul_nonneg_nonneg; [lia |]. apply Z.pow_nonneg. lia.
    + split; [reflexivity |]. apply Z.div_pos; [lia |]. apply Z.pow_pos_nonneg; lia.
Qed.

Lemma astype_int_nonneg (x : spec_float) :
  nonneg_finite x = true -> floorZ x < 2 ^ 63 -> astype_int x = floorZ x.
Proof.
  intros Hx Hlt. destruct (truncate_nonneg x Hx) as [E H0].
  unfold astype_int. rewrite E. unfold int64_min.
  destruct (Z.leb_spec (- 2 ^ 63) (floorZ x)); [| lia].
  destruct (Z.ltb_spec (floorZ x) (2 ^ 63)); [reflexivity | lia].
Qed.

(** What the PyTorch builder computes from a position that is finite and
    not negative. *)
Lemma torch_floor_nonneg (x : spec_float) (num_bins : Z) :
  nonneg_finite x = true -> floorZ x + 1 < 2 ^ 53 -> 0 < num_bins < 2 ^ 53 ->
  let ti := torch_floor x in
  astype_int ti = floorZ x
  /\ SFltb ti (of_Z64 num_bins) && SFleb zero ti = (floorZ x <? num_bins)
  /\ SFltb (add64 ti one64) (of_Z64 num_bins) && SFleb zero ti
     = (floorZ x + 1 <? num_bins).
Proof.
  intros Hx Hlt Hn ti. destruct (truncate_nonneg x Hx) as [_ H0].
  destruct x as [s | s | | s m e]; cbn [nonneg_finite] in Hx; try discriminate.
  - (* a zero is its own floor *)
    subst ti. cbn [torch_floor floorZ].
    rewrite (of_Z64_canon num_bins) by exact Hn.
    split; [destruct s; reflexivity |]. split.
    + destruct s; cbn; symmetry; apply Z.ltb_lt; lia.
    + replace (add64 (S754_zero s) one64) with (of_Z64 1) by (destruct s; reflexivity).
      rewrite <- (of_Z64_canon num_bins) by exact Hn.
      rewrite SFltb_of_Z64 by lia. destruct s; cbn; rewrite andb_true_r; reflexivity.
  - subst ti. cbn [torch_floor]. set (k := floorZ (S754_finite s m e)) in *.
    split; [apply astype_int_of_Z64; lia |]. split.
    + rewrite SFltb_of_Z64, SFleb_zero_of_Z64 by lia. apply andb_true_r.
    + rewrite SFleb_zero_of_Z64, andb_true_r by lia.
      destruct (Z.eq_dec k 0) as [E0 | Hne].
      * rewrite E0. change (add64 (of_Z64 0) one64) with (of_Z64 1).
        apply SFltb_of_Z64; lia.
      * rewrite add64_of_Z64_one by lia. apply SFltb_of_Z64; lia.
Qed.

(** ** Scatter-add on floats *)

Lemma mask_filter {A} (v : A -> bool) (l : list A) :
  mask (map v l) l = List.filter v l.
Proof.
  induction l as [| x l IH]; simpl; [reflexivity |].
  destruct (v x); rewrite IH; reflexivity.
Qed.

Lemma IEEE_np_add_at_cons (a : list spec_float) (i : Z) (idx : list Z)
      (v : spec_float) (vals : list spec_float) :
  IEEE.np_add_at a (i :: idx) (v :: vals)
  = if (- Z.of_nat (length a) <=? i) && (i <? Z.of_nat (length a))
    then IEEE.np_add_at
           (alter (fun c => add_at_cell c v)
              (Z.to_nat (if i <? 0 then i + Z.of_nat (length a) else i)) a)
           idx vals
    else None.
Proof.
  unfold IEEE.np_add_at. simpl. destruct (_ && _); [reflexivity |].
  apply foldl_option_None. intros [j u]. reflexivity.
Qed.

Lemma IEEE_index_add_cons (a : list spec_float) (i : Z) (idx : list Z)
      (v : spec_float) (vals : list spec_float) :
  IEEE.index_add_ a (i :: idx) (v :: vals)
  = if (0 <=? i) && (i <? Z.of_nat (length a))
    then IEEE.index_add_ (alter (fun c => add32 c v) (Z.to_nat i) a) idx vals
    else None.
Proof.
  unfold IEEE.index_add_. simpl. destruct (_ && _); [reflexivity |].
  apply foldl_option_None. intros [j u]. reflexivity.
Qed.

Lemma length_accumulate (upd : spec_float -> spec_float -> spec_float)
      (a : list spec_float) (updates : list (Z * spec_float)) :
  length (accumulate upd a updates) = length a.
Proof.
  revert a. induction updates as [| [i v] updates IH]; intros a; [reflexivity |].
  unfold accumulate in *. cbn [foldl]. rewrite IH, length_alter. reflexivity.
Qed.

Lemma IEEE_add_in_range (a : list spec_float) (idx : list Z) (vals : list spec_float) :
  Forall (fun i => 0 <= i < Z.of_nat (length a)) idx ->
  IEEE.np_add_at a idx vals = Some (accumulate add_at_cell a (zip idx vals))
  /\ IEEE.index_add_ a idx vals = Some (accumulate add32 a (zip idx vals)).
Proof.
  revert a vals. induction idx as [| i idx IH]; intros a vals Hidx.
  - split; reflexivity.
  - destruct vals as [| v vals]; [split; reflexivity |].
    apply Forall_cons in Hidx as [Hi Hidx].
    rewrite IEEE_np_add_at_cons, IEEE_index_add_cons.
    destruct (Z.leb_spec (- Z.of_nat (length a)) i); [| lia].
    destruct (Z.leb_spec 0 i); [| lia].
    destruct (Z.ltb_spec i (Z.of_nat (length a))); [| lia].
    destruct (Z.ltb_spec i 0); [lia |].
    cbn [andb zip zip_with]. unfold accumulate. cbn [foldl].
    split; apply IH; rewrite length_alter; exact Hidx.
Qed.

(** The value of a cell after an accumulation: the updates aimed at it,
    applied in turn. *)
Lemma accumulate_lookup (upd : spec_float -> spec_float -> spec_float)
      (a : list spec_float) (updates : list (Z * spec_float)) (j : Z) (c0 : spec_float) :
  0 <= j -> Forall (fun u => 0 <= u.1) updates -> a !! Z.to_nat j = Some c0 ->
  accumulate upd a updates !! Z.to_nat j
  = Some (foldl upd c0 (map snd (List.filter (fun u => u.1 =? j) updates))).
Proof.
  intros Hj. revert a c0. induction updates as [| [i v] updates IH]; intros a c0 Hu Ha.
  - exact Ha.
  - apply Forall_cons in Hu as [Hi Hu]. cbn [fst] in Hi.
    unfold accumulate in *. cbn [foldl List.filter fst].
    destruct (Z.eqb_spec i j) as [-> | Hne].
    + cbn [map snd foldl]. apply IH; [exact Hu |].
      rewrite list_lookup_alter_eq, Ha. reflexivity.
    + apply IH; [exact Hu |]. rewrite list_lookup_alter_ne by lia. exact Ha.
Qed.

Lemma wrap64_small (n : Z) : - 2 ^ 63 <= n < 2 ^ 63 -> wrap64 n = n.
Proof. intros H. unfold wrap64. rewrite Z.mod_small by lia. lia. Qed.

Lemma index_in_grid64 (x y b num_bins width height : Z) :
  0 <= x < width -> 0 <= y < height -> 0 <= b < num_bins ->
  0 <= x + y * width + b * width * height < num_bins * height * width.
Proof.
  intros Hx Hy Hb.
  assert (0 < width * height) by (apply Z.mul_pos_pos; lia).
  replace (num_bins * height * width) with (num_bins * (width * height)) by ring.
  replace (b * width * height) with (b * (width * height)) by ring.
  assert (0 <= y * width <= (height - 1) * width) by nia.
  assert (0 <= b * (width * height) <= (num_bins - 1) * (width * height)) by nia.
  lia.
Qed.

(** ** The builders, event by event *)

Section IEEEBuilders.
Variable events : list IEEE.event.
Variables num_bins width height : Z.
Hypothesis Hn : 0 < num_bins.
Hypothesis Hw : 0 < width.
Hypothesis Hh : 0 < height.
Hypothesis Hne : events <> [].

Let zeros := replicate (Z.to_nat (num_bins * height * width)) IEEE.zero.
Let pos := position num_bins events.

Lemma IEEE_numpy_unfold :
  IEEE.events_to_voxel_grid events num_bins width height
  = (rewritten64 num_bins events,
     grid_of64 num_bins width height
       (let vl e := IEEE.astype_int (pos e) <? num_bins in
        let vr e := IEEE.astype_int (pos e) + 1 <? num_bins in
        g ← IEEE.np_add_at zeros
              (map (fun e => wrap64 (cell_index width height e (IEEE.astype_int (pos e))))
                 (mask (map vl events) events))
              (map (numpy_left num_bins events) (mask (map vl events) events));
        IEEE.np_add_at g
          (map (fun e => wrap64 (cell_index width height e (IEEE.astype_int (pos e) + 1)))
             (mask (map vr events) events))
          (map (numpy_right num_bins events) (mask (map vr events) events)))).
Proof using Hn Hw Hh Hne.
  unfold IEEE.events_to_voxel_grid.
  destruct (Z.ltb_spec 0 num_bins); [| lia].
  destruct (Z.ltb_spec 0 width); [| lia].
  destruct (Z.ltb_spec 0 height); [| lia].
  cbn [negb].
  destruct (last events) as [e1 |] eqn:Hlast.
  2:{ apply last_None in Hlast. contradiction. }
  destruct (head events) as [e0 |] eqn:Hhead.
  2:{ apply head_None in Hhead. contradiction. }
  cbv zeta. unfold pos, rewritten64, numpy_left, numpy_right, numpy_fraction,
    position, cell_index, IEEE.flat_indices.
  rewrite Hlast, Hhead. cbn [from_option].
  rewrite !map_map, !zip_with_map_same, !mask_map, !map_map, !flat_indices_map.
  cbn [IEEE.ev_t IEEE.ev_x IEEE.ev_y IEEE.ev_p IEEE.set_ev_t IEEE.set_ev_p].
  rewrite !map_map.
  destruct (IEEE.np_add_at _ _ _) as [g |]; [| reflexivity].
  cbn [mbind option_bind].
  match goal with
  | |- match ?r with Some _ => _ | None => (?es, _) end = _ =>
      transitivity (es, grid_of64 num_bins width height r);
        [destruct r; reflexivity |]
  end.
  reflexivity.
Qed.

Lemma IEEE_pytorch_unfold (dev : device) :
  (IEEE.events_to_voxel_grid_pytorch events num_bins width height dev).2
  = grid_of64 num_bins width height
      (let ti e := IEEE.torch_floor (pos e) in
       let vl e := SFltb (ti e) (IEEE.of_Z64 num_bins) && SFleb IEEE.zero (ti e) in
       let vr e := SFltb (IEEE.add64 (ti e) IEEE.one64) (IEEE.of_Z64 num_bins)
                   && SFleb IEEE.zero (ti e) in
       g ← IEEE.index_add_ zeros
             (map (fun e => wrap64 (cell_index width height e (IEEE.astype_int (ti e))))
                (mask (map vl events) events))
             (map (torch_left num_bins events) (mask (map vl events) events));
       IEEE.index_add_ g
         (map (fun e => wrap64 (cell_index width height e (IEEE.astype_int (ti e) + 1)))
            (mask (map vr events) events))
         (map (torch_right num_bins events) (mask (map vr events) events))).
Proof using Hn Hw Hh Hne.
  unfold IEEE.events_to_voxel_grid_pytorch.
  destruct (Z.ltb_spec 0 num_bins); [| lia].
  destruct (Z.ltb_spec 0 width); [| lia].
  destruct (Z.ltb_spec 0 height); [| lia].
  cbn [negb].
  destruct (last events) as [e1 |] eqn:Hlast.
  2:{ apply last_None in Hlast. contradiction. }
  destruct (head events) as [e0 |] eqn:Hhead.
  2:{ apply head_None in Hhead. contradiction. }
  cbv zeta. unfold pos, torch_left, torch_right, torch_fraction,
    position, cell_index, IEEE.flat_indices.
  rewrite Hlast, Hhead. cbn [from_option].
  rewrite !map_map, !zip_with_map_same, !mask_map, !map_map, !flat_indices_map.
  cbn [IEEE.ev_t IEEE.ev_x IEEE.ev_y IEEE.ev_p IEEE.set_ev_t IEEE.set_ev_p].
  rewrite !map_map.
  destruct (IEEE.index_add_ _ _ _) as [g |]; [| reflexivity].
  cbn [mbind option_bind].
  match goal with
  | |- (match ?r with Some _ => _ | None => (?es, _) end).2 = _ =>
      transitivity (es, grid_of64 num_bins width height r).2;
        [destruct r; reflexivity |]
  end.
  reflexivity.
Qed.
End IEEEBuilders.

Lemma IEEE_two_adds (a : list spec_float) (li ri : list Z) (lv rv : list spec_float) :
  Forall (fun i => 0 <= i < Z.of_nat (length a)) li ->
  Forall (fun i => 0 <= i < Z.of_nat (length a)) ri ->
  (g ← IEEE.np_add_at a li lv; IEEE.np_add_at g ri rv)
    = Some (accumulate add_at_cell (accumulate add_at_cell a (zip li lv)) (zip ri rv))
  /\ (g ← IEEE.index_add_ a li lv; IEEE.index_add_ g ri rv)
    = Some (accumulate add32 (accumulate add32 a (zip li lv)) (zip ri rv)).
Proof.
  intros HL HR.
  destruct (IEEE_add_in_range a li lv HL) as [E1 E2].
  rewrite E1, E2. cbn [mbind option_bind]. split.
  - apply IEEE_add_in_range. rewrite length_accumulate. exact HR.
  - apply IEEE_add_in_range. rewrite length_accumulate. exact HR.
Qed.

Lemma mask_congr {A} (v1 v2 : A -> bool) (l : list A) :
  Forall (fun e => v1 e = v2 e) l -> mask (map v1 l) l = mask (map v2 l) l.
Proof.
  induction 1 as [| e l Hv _ IH]; simpl; [reflexivity |].
  rewrite Hv, IH. reflexivity.
Qed.

Lemma Forall_filter_bool {A} (P : A -> Prop) (v : A -> bool) (l : list A) :
  Forall P l -> Forall (fun e => P e /\ v e = true) (List.filter v l).
Proof.
  induction 1 as [| e l HP _ IH]; simpl; [constructor |].
  destruct (v e) eqn:Hv; [constructor; auto | exact IH].
Qed.

Lemma Forall_conj {A} (P Q : A -> Prop) (l : list A) :
  Forall P l -> Forall Q l -> Forall (fun x => P x /\ Q x) l.
Proof. intros HP HQ. apply Forall_and. split; assumption. Qed.

Section IEEEInRange.
Variable events : list IEEE.event.
Variables num_bins width height : Z.
Hypothesis Hn : 0 < num_bins.
Hypothesis Hw : 0 < width.
Hypothesis Hh : 0 < height.
Hypothesis Hsize : num_bins * height * width < 2 ^ 63.
Hypothesis Hne : events <> [].
Hypothesis Hframe : in_frame64 width height events.
Hypothesis Hpos :
  Forall (fun e => nonneg_finite (position num_bins events e) = true
                   /\ floor_bin num_bins events e < num_bins) events.

Let zeros := replicate (Z.to_nat (num_bins * height * width)) IEEE.zero.
Let bin := floor_bin num_bins events.
Let upper := List.filter (fun e => bin e + 1 <? num_bins) events.
Let left := map (fun e => cell_index width height e (bin e)) events.
Let right := map (fun e => cell_index width height e (bin e + 1)) upper.

Lemma IEEE_num_bins_small : num_bins < 2 ^ 63.
Proof using Hn Hw Hh Hsize.
  assert (num_bins * 1 <= num_bins * (height * width)) by (apply Z.mul_le_mono_nonneg_l; nia).
  nia.
Qed.

Lemma IEEE_batch_facts :
  Forall (fun e => (0 <= IEEE.astype_int (IEEE.ev_x e) < width
                    /\ 0 <= IEEE.astype_int (IEEE.ev_y e) < height)
                   /\ nonneg_finite (position num_bins events e) = true
                   /\ 0 <= bin e < num_bins
                   /\ IEEE.astype_int (position num_bins events e) = bin e) events.
Proof using Hn Hw Hh Hsize Hframe Hpos.
  unfold in_frame64 in Hframe.
  pose proof IEEE_num_bins_small as Hs.
  assert (H : Forall (fun e =>
              (0 <= IEEE.astype_int (IEEE.ev_x e) < width
               /\ 0 <= IEEE.astype_int (IEEE.ev_y e) < height)
              /\ nonneg_finite (position num_bins events e) = true
                 /\ floor_bin num_bins events e < num_bins) events)
    by (apply Forall_and; split; assumption).
  eapply Forall_impl; [exact H |]. intros e [Hxy [Hp Hb]]. cbv beta.
  destruct (truncate_nonneg _ Hp) as [_ H0].
  split; [exact Hxy |]. split; [exact Hp |]. unfold bin, floor_bin.
  split; [unfold floor_bin in Hb; lia |].
  apply astype_int_nonneg; [exact Hp | unfold floor_bin in Hb; lia].
Qed.

Lemma IEEE_left_in_range :
  Forall (fun i => 0 <= i < Z.of_nat (length zeros)) left.
Proof using Hn Hw Hh Hsize Hframe Hpos.
  unfold left, zeros. rewrite length_replicate. apply Forall_fmap.
  eapply Forall_impl; [exact IEEE_batch_facts |].
  intros e ([Hx Hy] & _ & Hb & _). unfold compose, cell_index.
  pose proof (index_in_grid64 _ _ _ _ _ _ Hx Hy Hb). lia.
Qed.

Lemma IEEE_right_in_range :
  Forall (fun i => 0 <= i < Z.of_nat (length zeros)) right.
Proof using Hn Hw Hh Hsize Hframe Hpos.
  unfold right, zeros, upper. rewrite length_replicate. apply Forall_fmap.
  eapply Forall_impl;
    [exact (Forall_filter_bool _ (fun e => bin e + 1 <? num_bins) _ IEEE_batch_facts) |].
  intros e [([Hx Hy] & _ & Hb & _) Hv]. unfold compose, cell_index.
  apply Z.ltb_lt in Hv.
  assert (Hb1 : 0 <= bin e + 1 < num_bins) by lia.
  pose proof (index_in_grid64 _ _ _ _ _ _ Hx Hy Hb1). lia.
Qed.

(** The NumPy builder on a batch whose positions are finite, not
    negative and below [num_bins]. *)
Lemma IEEE_numpy_grid :
  IEEE.events_to_voxel_grid events num_bins width height
  = (rewritten64 num_bins events,
     inr {| IEEE.shape := (num_bins, height, width);
            IEEE.data :=
              accumulate add_at_cell
                (accumulate add_at_cell zeros
                   (zip left (map (numpy_left num_bins events) events)))
                (zip right (map (numpy_right num_bins events) upper)) |}).
Proof using Hn Hw Hh Hsize Hne Hframe Hpos.
  rewrite IEEE_numpy_unfold by assumption. f_equal. cbv zeta.
  pose proof IEEE_batch_facts as Hfacts.
  rewrite (mask_all (fun e => IEEE.astype_int (position num_bins events e) <? num_bins)).
  2:{ eapply Forall_impl; [exact Hfacts |]. intros e (_ & _ & Hb & Eb). cbv beta.
      rewrite Eb. apply Z.ltb_lt. lia. }
  rewrite (mask_congr (fun e => IEEE.astype_int (position num_bins events e) + 1 <? num_bins)
                      (fun e => bin e + 1 <? num_bins)).
  2:{ eapply Forall_impl; [exact Hfacts |]. intros e (_ & _ & _ & Eb). cbv beta.
      rewrite Eb. reflexivity. }
  rewrite mask_filter. fold upper.
  assert (EL : map (fun e => wrap64 (cell_index width height e
                       (IEEE.astype_int (position num_bins events e)))) events = left).
  { unfold left. apply Forall_fmap_ext_1.
    pose proof IEEE_left_in_range as HL. unfold left, zeros in HL.
    rewrite length_replicate in HL. apply Forall_fmap in HL.
    eapply Forall_impl; [exact (Forall_conj _ _ _ Hfacts HL) |].
    intros e [(_ & _ & _ & Eb) Hi]. unfold compose in Hi. cbv beta.
    rewrite Eb. apply wrap64_small. lia. }
  assert (ER : map (fun e => wrap64 (cell_index width height e
                       (IEEE.astype_int (position num_bins events e) + 1))) upper = right).
  { unfold right. apply Forall_fmap_ext_1.
    pose proof IEEE_right_in_range as HR. unfold right, zeros in HR.
    rewrite length_replicate in HR. apply Forall_fmap in HR.
    pose proof (Forall_filter_bool _ (fun e => bin e + 1 <? num_bins) _ Hfacts) as HF.
    fold upper in HF.
    eapply Forall_impl; [exact (Forall_conj _ _ _ HF HR) |].
    intros e [[(_ & _ & _ & Eb) _] Hi]. unfold compose in Hi. cbv beta.
    rewrite Eb. apply wrap64_small. lia. }
  rewrite EL, ER.
  destruct (IEEE_two_adds zeros left right (map (numpy_left num_bins events) events)
              (map (numpy_right num_bins events) upper)
              IEEE_left_in_range IEEE_right_in_range) as [E _].
  fold zeros. rewrite E. reflexivity.
Qed.

Hypothesis H53 : num_bins < 2 ^ 53.

Lemma IEEE_torch_facts :
  Forall (fun e =>
    let ti := IEEE.torch_floor (position num_bins events e) in
    IEEE.astype_int ti = bin e
    /\ SFltb ti (IEEE.of_Z64 num_bins) && SFleb IEEE.zero ti = true
    /\ SFltb (IEEE.add64 ti IEEE.one64) (IEEE.of_Z64 num_bins) && SFleb IEEE.zero ti
       = (bin e + 1 <? num_bins)) events.
Proof using Hn Hw Hh Hsize Hframe Hpos H53.
  eapply Forall_impl; [exact IEEE_batch_facts |].
  intros e (_ & Hp & Hb & _). cbv zeta.
  destruct (torch_floor_nonneg (position num_bins events e) num_bins Hp) as (E1 & E2 & E3);
    [unfold bin, floor_bin in Hb; lia | lia |].
  fold (floor_bin num_bins events e) in E1, E2, E3. fold (bin e) in E1, E2, E3.
  split; [exact E1 |]. split; [| exact E3].
  rewrite E2. apply Z.ltb_lt. lia.
Qed.

(** The PyTorch builder on the same batches. *)
Lemma IEEE_pytorch_grid (dev : device) :
  (IEEE.events_to_voxel_grid_pytorch events num_bins width height dev).2
  = inr {| IEEE.shape := (num_bins, height, width);
           IEEE.data :=
             accumulate add32
               (accumulate add32 zeros
                  (zip left (map (torch_left num_bins events) events)))
               (zip right (map (torch_right num_bins events) upper)) |}.
Proof using Hn Hw Hh Hsize Hne Hframe Hpos H53.
  rewrite IEEE_pytorch_unfold by assumption. cbv zeta.
  pose proof IEEE_batch_facts as Hfacts.
  pose proof IEEE_torch_facts as Htorch.
  rewrite (mask_all (fun e =>
             SFltb (IEEE.torch_floor (position num_bins events e)) (IEEE.of_Z64 num_bins)
             && SFleb IEEE.zero (IEEE.torch_floor (position num_bins events e)))).
  2:{ eapply Forall_impl; [exact Htorch |]. intros e (_ & E & _). exact E. }
  rewrite (mask_congr
             (fun e =>
                SFltb (IEEE.add64 (IEEE.torch_floor (position num_bins events e)) IEEE.one64)
                  (IEEE.of_Z64 num_bins)
                && SFleb IEEE.zero (IEEE.torch_floor (position num_bins events e)))
             (fun e => bin e + 1 <? num_bins)).
  2:{ eapply Forall_impl; [exact Htorch |]. intros e (_ & _ & E). exact E. }
  rewrite mask_filter. fold upper.
  assert (EL : map (fun e => wrap64 (cell_index width height e
                       (IEEE.astype_int (IEEE.torch_floor (position num_bins events e)))))
                 events = left).
  { unfold left. apply Forall_fmap_ext_1.
    pose proof IEEE_left_in_range as HL. unfold left, zeros in HL.
    rewrite length_replicate in HL. apply Forall_fmap in HL.
    eapply Forall_impl; [exact (Forall_conj _ _ _ Htorch HL) |].
    intros e [(Eb & _) Hi]. unfold compose in Hi. cbv beta.
    rewrite Eb. apply wrap64_small. lia. }
  assert (ER : map (fun e => wrap64 (cell_index width height e
                       (IEEE.astype_int (IEEE.torch_floor (position num_bins events e)) + 1)))
                 upper = right).
  { unfold right. apply Forall_fmap_ext_1.
    pose proof IEEE_right_in_range as HR. unfold right, zeros in HR.
    rewrite length_replicate in HR. apply Forall_fmap in HR.
    pose proof (Forall_filter_bool _ (fun e => bin e + 1 <? num_bins) _ Htorch) as HF.
    fold upper in HF.
    eapply Forall_impl; [exact (Forall_conj _ _ _ HF HR) |].
    intros e [[(Eb & _) _] Hi]. unfold compose in Hi. cbv beta.
    rewrite Eb. apply wrap64_small. lia. }
  rewrite EL, ER.
  destruct (IEEE_two_adds zeros left right (map (torch_left num_bins events) events)
              (map (torch_right num_bins events) upper)
              IEEE_left_in_range IEEE_right_in_range) as [_ E].
  fold zeros. rewrite E. reflexivity.
Qed.
End IEEEInRange.

(** ** The value of a cell *)

Lemma filter_zip_map {A} (f : A -> Z) (g : A -> spec_float) (j : Z) (l : list A) :
  map snd (List.filter (fun u : Z * spec_float => u.1 =? j) (zip (map f l) (map g l)))
  = map g (List.filter (fun e => f e =? j) l).
Proof.
  induction l as [| e l IH]; [reflexivity |].
  cbn [map zip zip_with List.filter fst]. destruct (f e =? j); cbn [map snd]; rewrite IH;
    reflexivity.
Qed.

Lemma filter_congr {A} (v1 v2 : A -> bool) (l : list A) :
  Forall (fun e => v1 e = v2 e) l -> List.filter v1 l = List.filter v2 l.
Proof.
  induction 1 as [| e l Hv _ IH]; simpl; [reflexivity |].
  rewrite Hv, IH. reflexivity.
Qed.

Lemma filter_filter_bool {A} (v1 v2 : A -> bool) (l : list A) :
  List.filter v1 (List.filter v2 l) = List.filter (fun e => v2 e && v1 e) l.
Proof.
  induction l as [| e l IH]; [reflexivity |]. cbn [List.filter].
  destruct (v2 e); cbn [List.filter andb]; [destruct (v1 e) |]; rewrite IH; reflexivity.
Qed.

Section IEEECell.
Variable events : list IEEE.event.
Variables num_bins width height : Z.
Hypothesis Hn : 0 < num_bins.
Hypothesis Hw : 0 < width.
Hypothesis Hh : 0 < height.
Hypothesis Hsize : num_bins * height * width < 2 ^ 63.
Hypothesis Hne : events <> [].
Hypothesis Hframe : in_frame64 width height events.
Hypothesis Hpos :
  Forall (fun e => nonneg_finite (position num_bins events e) = true
                   /\ floor_bin num_bins events e < num_bins) events.
Variables b y x : Z.
Hypothesis Hb : 0 <= b < num_bins.
Hypothesis Hy : 0 <= y < height.
Hypothesis Hx : 0 <= x < width.

Let bin := floor_bin num_bins events.

Lemma IEEE_cell_of_accumulation (upd : spec_float -> spec_float -> spec_float)
      (wl wr : IEEE.event -> spec_float) :
  let zeros := replicate (Z.to_nat (num_bins * height * width)) IEEE.zero in
  let upper := List.filter (fun e => bin e + 1 <? num_bins) events in
  let left := map (fun e => cell_index width height e (bin e)) events in
  let right := map (fun e => cell_index width height e (bin e + 1)) upper in
  accumulate upd (accumulate upd zeros (zip left (map wl events))) (zip right (map wr upper))
    !! Z.to_nat (x + y * width + b * width * height)
  = Some (foldl upd
            (foldl upd IEEE.zero
               (map wl (List.filter (fun e => at_pixel x y e && (bin e =? b)) events)))
            (map wr (List.filter (fun e => at_pixel x y e && (bin e + 1 =? b)) events))).
Proof using Hn Hw Hh Hsize Hframe Hpos Hb Hy Hx.
  intros zeros upper left right.
  pose proof (IEEE_batch_facts events num_bins width height Hn Hw Hh Hsize Hframe Hpos)
    as Hfacts. fold bin in Hfacts.
  pose proof (IEEE_left_in_range events num_bins width height Hn Hw Hh Hsize Hframe Hpos)
    as HL.
  pose proof (IEEE_right_in_range events num_bins width height Hn Hw Hh Hsize Hframe Hpos)
    as HR.
  fold bin in HL, HR. fold zeros in HL, HR. fold upper in HR. fold left in HL.
  fold right in HR.
  pose proof (index_in_grid64 x y b num_bins width height Hx Hy Hb) as Hj.
  set (j := x + y * width + b * width * height) in *.
  assert (Hz : zeros !! Z.to_nat j = Some IEEE.zero).
  { apply lookup_replicate_2. lia. }
  rewrite (accumulate_lookup upd _ _ j
             (foldl upd IEEE.zero
                (map wl (List.filter (fun e => at_pixel x y e && (bin e =? b)) events)))).
  - f_equal. f_equal. unfold right. rewrite filter_zip_map. f_equal.
    unfold upper. rewrite filter_filter_bool. apply filter_congr.
    eapply Forall_impl; [exact Hfacts |].
    intros e ([Hex Hey] & _ & Hbe & _). cbv beta. unfold at_pixel, cell_index, j.
    destruct (Z.eqb_spec (IEEE.astype_int (IEEE.ev_x e) + IEEE.astype_int (IEEE.ev_y e) * width
                          + (bin e + 1) * width * height)
                (x + y * width + b * width * height)) as [Eq | Ne].
    + apply flat_index_unique in Eq as (E1 & E2 & E3); lia.
    + destruct (Z.eqb_spec (IEEE.astype_int (IEEE.ev_x e)) x) as [E1 |];
        [| rewrite andb_false_r; reflexivity].
      destruct (Z.eqb_spec (IEEE.astype_int (IEEE.ev_y e)) y) as [E2 |];
        [| rewrite andb_false_r; reflexivity].
      destruct (Z.eqb_spec (bin e + 1) b) as [E3 |]; [| rewrite andb_false_r; reflexivity].
      exfalso. apply Ne. rewrite E1, E2, E3. reflexivity.
  - lia.
  - apply Forall_forall. intros [i v] Hin. cbn [fst].
    apply elem_of_zip_l in Hin. cbn [fst] in Hin.
    pose proof (proj1 (Forall_forall _ _) HR i Hin) as Hi. cbv beta in Hi. lia.
  - rewrite (accumulate_lookup upd _ _ j IEEE.zero).
    + f_equal. f_equal. unfold left. rewrite filter_zip_map. f_equal.
      apply filter_congr.
      eapply Forall_impl; [exact Hfacts |].
      intros e ([Hex Hey] & _ & Hbe & _). cbv beta. unfold at_pixel, cell_index, j.
      destruct (Z.eqb_spec (IEEE.astype_int (IEEE.ev_x e)
                            + IEEE.astype_int (IEEE.ev_y e) * width
                            + bin e * width * height)
                  (x + y * width + b * width * height)) as [Eq | Ne].
      * apply flat_index_unique in Eq as (E1 & E2 & E3); lia.
      * destruct (Z.eqb_spec (IEEE.astype_int (IEEE.ev_x e)) x) as [E1 |]; [| reflexivity].
        destruct (Z.eqb_spec (IEEE.astype_int (IEEE.ev_y e)) y) as [E2 |]; [| reflexivity].
        destruct (Z.eqb_spec (bin e) b) as [E3 |]; [| reflexivity].
        exfalso. apply Ne. rewrite E1, E2, E3. reflexivity.
    + lia.
    + apply Forall_forall. intros [i v] Hin. cbn [fst].
      apply elem_of_zip_l in Hin. cbn [fst] in Hin.
      pose proof (proj1 (Forall_forall _ _) HL i Hin) as Hi. cbv beta in Hi. lia.
    + exact Hz.
Qed.
End IEEECell.

Lemma filter_all {A} (v : A -> bool) (l : list A) :
  Forall (fun e => v e = true) l -> List.filter v l = l.
Proof.
  induction 1 as [| e l Hv _ IH]; simpl; [reflexivity |].
  rewrite Hv, IH. reflexivity.
Qed.

(** ** Batches with a single timestamp *)

Lemma scaled_zero (n : Z) :
  0 <= n < 2 ^ 53 -> div64 (mul64 (of_Z64 n) IEEE.zero) one64 = IEEE.zero.
Proof.
  intros Hn. destruct (Z.eq_dec n 0) as [-> | Hne]; [reflexivity |].
  rewrite of_Z64_canon by lia. reflexivity.
Qed.

Lemma fix_polarity_valid (p : spec_float) :
  is_finite p = true -> valid_binary 53 1024 p = true ->
  valid_binary 53 1024 (fix_polarity p) = true
  /\ exists s m e, fix_polarity p = S754_finite s m e.
Proof.
  intros Hf Hv. destruct p as [s | s | | s m e]; try discriminate.
  - split; [reflexivity |]. destruct s; repeat eexists.
  - unfold fix_polarity.
    replace (SFeqb (S754_finite s m e) IEEE.zero) with false by (destruct s; reflexivity).
    split; [exact Hv | repeat eexists].
Qed.

Lemma add_at_cell_zeros (l : list spec_float) :
  Forall (fun v => exists s, v = S754_zero s) l ->
  foldl add_at_cell IEEE.zero l = IEEE.zero.
Proof.
  induction 1 as [| v l [s ->] _ IH]; [reflexivity |].
  cbn [foldl]. replace (add_at_cell IEEE.zero (S754_zero s)) with IEEE.zero
    by (destruct s; reflexivity).
  exact IH.
Qed.

Section SingleTimestamp64.
Variable events : list IEEE.event.
Variable num_bins : Z.
Variable t : spec_float.
Hypothesis Hn : 0 < num_bins <= 2 ^ 53.
Hypothesis Hne : events <> [].
Hypothesis Ht : is_finite t = true.
Hypothesis Hev :
  Forall (fun e => IEEE.ev_t e = t /\ is_finite (IEEE.ev_p e) = true
                   /\ valid_binary 53 1024 (IEEE.ev_p e) = true) events.

Lemma single_position (e : IEEE.event) :
  IEEE.ev_t e = t -> position num_bins events e = IEEE.zero.
Proof using Hn Hne Ht Hev.
  intros Et. unfold position.
  destruct (head events) as [e0 |] eqn:Hhead.
  2:{ apply head_None in Hhead. contradiction. }
  destruct (last events) as [e1 |] eqn:Hlast.
  2:{ apply last_None in Hlast. contradiction. }
  assert (E0 : IEEE.ev_t e0 = t).
  { apply head_Some_elem_of in Hhead.
    exact (proj1 (proj1 (Forall_forall _ _) Hev e0 Hhead)). }
  assert (E1 : IEEE.ev_t e1 = t).
  { apply last_Some_elem_of in Hlast.
    exact (proj1 (proj1 (Forall_forall _ _) Hev e1 Hlast)). }
  cbn [from_option]. rewrite E0, E1, Et. cbv zeta.
  assert (Hd : sub64 t t = IEEE.zero).
  { apply sub64_diag. destruct t; try discriminate; exact I. }
  rewrite Hd. cbn [SFeqb SFcompare IEEE.zero]. change (S754_zero false) with IEEE.zero.
  unfold normalize_stamp. rewrite Hd. apply scaled_zero. lia.
Qed.

Lemma single_facts :
  Forall (fun e => position num_bins events e = IEEE.zero
                   /\ floor_bin num_bins events e = 0
                   /\ numpy_left num_bins events e = fix_polarity (IEEE.ev_p e)
                   /\ exists s, numpy_right num_bins events e = S754_zero s) events.
Proof using Hn Hne Ht Hev.
  eapply Forall_impl; [exact Hev |]. intros e (Et & Hf & Hv).
  pose proof (single_position e Et) as Ep.
  destruct (fix_polarity_valid _ Hf Hv) as [Hvp (s & m & ex & Efix)].
  split; [exact Ep |]. split; [unfold floor_bin; rewrite Ep; reflexivity |].
  unfold numpy_left, numpy_right, numpy_fraction. rewrite Ep. cbv zeta.
  change (sub64 IEEE.zero (of_Z64 (astype_int IEEE.zero))) with IEEE.zero.
  change (sub64 one64 IEEE.zero) with one64. split.
  - apply mul64_one, Hvp.
  - rewrite Efix. eexists. reflexivity.
Qed.
End SingleTimestamp64.

End IEEEArithmetic.

(** ** Channel compositor: conversion to 8 bits *)

Section IEEECompositorFacts.
Variables prec emax : Z.
Variable cv2_resize : list (list spec_float) -> list (list spec_float).
Variable cv2_cvtColor : conversion_code -> list (list (bgr Z)) -> list (list (bgr Z)).
Variable channels : gmap string (list (list spec_float)).
Variables r g w b gray : list (list spec_float).
Hypothesis HR : channels !! "R" = Some r.
Hypothesis HG : channels !! "G" = Some g.
Hypothesis HW : channels !! "W" = Some w.
Hypothesis HB : channels !! "B" = Some b.
Hypothesis Hgray : channels !! "grayscale" = Some gray.

Lemma IEEE_compositor_result :
  (IEEE.merge_channels_into_color_image prec emax cv2_resize cv2_cvtColor
     channels).2
  = inr (upsample_color_image cv2_cvtColor
           (IEEE.reconstruction_grayscale prec emax gray)
           (IEEE.reconstruction_bgr prec emax
              (IEEE.shift_image (cv2_resize b) 1 1)
              (IEEE.shift_image (cv2_resize g) 1 0)
              (IEEE.shift_image (cv2_resize w) 0 1) (cv2_resize r))
           LAB).
Proof using HR HG HW HB Hgray.
  unfold IEEE.merge_channels_into_color_image.
  rewrite HR, HG, HW, HB, Hgray.
  rewrite !bool_decide_eq_true_2 by (eexists; reflexivity).
  cbn [negb foldl snd].
  set (final := alter _ "W" _).
  assert (ER : final !! "R" = Some (cv2_resize r)).
  { subst final.
    repeat (rewrite lookup_alter_eq || rewrite lookup_alter_ne by discriminate).
    rewrite HR. reflexivity. }
  assert (EG : final !! "G" = Some (IEEE.shift_image (cv2_resize g) 1 0)).
  { subst final.
    repeat (rewrite lookup_alter_eq || rewrite lookup_alter_ne by discriminate).
    rewrite HG. reflexivity. }
  assert (EW : final !! "W" = Some (IEEE.shift_image (cv2_resize w) 0 1)).
  { subst final.
    repeat (rewrite lookup_alter_eq || rewrite lookup_alter_ne by discriminate).
    rewrite HW. reflexivity. }
  assert (EB : final !! "B" = Some (IEEE.shift_image (cv2_resize b) 1 1)).
  { subst final.
    repeat (rewrite lookup_alter_eq || rewrite lookup_alter_ne by discriminate).
    rewrite HB. reflexivity. }
  assert (Egr : final !! "grayscale" = Some gray).
  { subst final.
    repeat (rewrite lookup_alter_eq || rewrite lookup_alter_ne by discriminate).
    exact Hgray. }
  rewrite (lookup_total_correct _ _ _ ER), (lookup_total_correct _ _ _ EG),
    (lookup_total_correct _ _ _ EW), (lookup_total_correct _ _ _ EB),
    (lookup_total_correct _ _ _ Egr).
  reflexivity.
Qed.
End IEEECompositorFacts.

Lemma IEEE_compositor_bgr_pixel (prec emax : Z) (B G W R : list (list spec_float))
      (y x : nat) (vb vg vw vr : spec_float) :
  B !! y ≫= (.!! x) = Some vb -> G !! y ≫= (.!! x) = Some vg ->
  W !! y ≫= (.!! x) = Some vw -> R !! y ≫= (.!! x) = Some vr ->
  IEEE.reconstruction_bgr prec emax B G W R !! y ≫= (.!! x)
  = Some (IEEE.astype_uint8 (IEEE.scale_255 prec emax vb),
          IEEE.astype_uint8
            (IEEE.scale_255 prec emax
               (SFmul prec emax (IEEE.half prec emax) (SFadd prec emax vg vw))),
          IEEE.astype_uint8 (IEEE.scale_255 prec emax vr)).
Proof.
  intros (rb & Hb & Hb')%pixel_inv (rg & Hg & Hg')%pixel_inv
         (rw & Hw & Hw')%pixel_inv (rr & Hr & Hr')%pixel_inv.
  unfold IEEE.reconstruction_bgr, dstack, IEEE.green_estimate.
  rewrite list_lookup_fmap, !lookup_zip_with, Hb, Hg, Hw, Hr. simpl.
  rewrite list_lookup_fmap, lookup_zip_with, Hb'. simpl.
  rewrite lookup_zip_with, lookup_zip_with, Hg', Hw', Hr'. reflexivity.
Qed.

Lemma IEEE_compositor_grayscale_pixel (prec emax : Z) (gray : list (list spec_float))
      (y x : nat) (v : spec_float) :
  gray !! y ≫= (.!! x) = Some v ->
  IEEE.reconstruction_grayscale prec emax gray !! y ≫= (.!! x)
  = Some (IEEE.astype_uint8 (IEEE.scale_255 prec emax v)).
Proof.
  intros (row & Hrow & Hv)%pixel_inv. unfold IEEE.reconstruction_grayscale.
  rewrite list_lookup_fmap, Hrow. simpl. rewrite list_lookup_fmap, Hv. reflexivity.
Qed.

Lemma astype_uint8_in_range (x : spec_float) :
  in_8bit_range x = true -> IEEE.astype_uint8 x = IEEE.floorZ x.
Proof.
  unfold in_8bit_range. intros [Hx Hlt]%andb_prop. apply Z.ltb_lt in Hlt.
  destruct (truncate_nonneg x Hx) as [E H0].
  unfold IEEE.astype_uint8. rewrite E. apply Z.mod_small. lia.
Qed.

(** C8 (amended): the channel compositor builds its low-frequency BGR
    estimate with B_channel = B, G_channel = 0.5 * (G + W), R_channel = R
    (the upsampled and shifted channels) and converts this estimate and
    the full-resolution grayscale channel to 8 bits by [astype(np.uint8)]
    of the floating point product [255.0 * v]: where that product is
    finite, not negative and below 256, the 8-bit value is its integer
    part, the largest integer not above the rounded product. *)
Theorem reconstruction_truncates
    (prec emax : Z)
    (cv2_resize : list (list spec_float) -> list (list spec_float))
    (cv2_cvtColor : conversion_code -> list (list (bgr Z)) -> list (list (bgr Z)))
    (channels : gmap string (list (list spec_float)))
    (r g w b gray : list (list spec_float))
    (y x : nat) (vb vg vw vr v : spec_float) :
  channels !! "R" = Some r -> channels !! "G" = Some g ->
  channels !! "W" = Some w -> channels !! "B" = Some b ->
  channels !! "grayscale" = Some gray ->
  let B := IEEE.shift_image (cv2_resize b) 1 1 in
  let G := IEEE.shift_image (cv2_resize g) 1 0 in
  let W := IEEE.shift_image (cv2_resize w) 0 1 in
  let R := cv2_resize r in
  B !! y ≫= (.!! x) = Some vb -> G !! y ≫= (.!! x) = Some vg ->
  W !! y ≫= (.!! x) = Some vw -> R !! y ≫= (.!! x) = Some vr ->
  gray !! y ≫= (.!! x) = Some v ->
  let scaled := IEEE.scale_255 prec emax in
  let green := SFmul prec emax (IEEE.half prec emax) (SFadd prec emax vg vw) in
  in_8bit_range (scaled vb) = true -> in_8bit_range (scaled green) = true ->
  in_8bit_range (scaled vr) = true -> in_8bit_range (scaled v) = true ->
  (IEEE.merge_channels_into_color_image prec emax cv2_resize cv2_cvtColor
     channels).2
    = inr (upsample_color_image cv2_cvtColor
             (IEEE.reconstruction_grayscale prec emax gray)
             (IEEE.reconstruction_bgr prec emax B G W R) LAB)
  /\ IEEE.reconstruction_bgr prec emax B G W R !! y ≫= (.!! x)
     = Some (IEEE.floorZ (scaled vb), IEEE.floorZ (scaled green), IEEE.floorZ (scaled vr))
  /\ IEEE.reconstruction_grayscale prec emax gray !! y ≫= (.!! x)
     = Some (IEEE.floorZ (scaled v)).
Proof.
  intros HR HG HW HB Hgray B G W R Hb Hg Hw Hr Hv scaled green Rb Rg Rr Rv.
  split; [apply IEEE_compositor_result; assumption |]. split.
  - rewrite (IEEE_compositor_bgr_pixel prec emax B G W R y x vb vg vw vr) by assumption.
    fold green. fold scaled.
    rewrite !astype_uint8_in_range by assumption. reflexivity.
  - rewrite (IEEE_compositor_grayscale_pixel prec emax gray y x v) by assumption.
    fold scaled. rewrite astype_uint8_in_range by assumption. reflexivity.
Qed.

Lemma reconstruction_truncates_witness :
  let channels : gmap string (list (list spec_float)) :=
    <["R" := [[f32 1 2]]]> (<["G" := [[f32 1 4]]]> (<["W" := [[f32 3 4]]]>
      (<["B" := [[f32 1 8]]]> (<["grayscale" := [[f32 3 8; f32 1 1]; [f32 0 1; f32 1 255]]]> ∅)))) in
  let B := IEEE.shift_image (pixel_doubling64 [[f32 1 8]]) 1 1 in
  let G := IEEE.shift_image (pixel_doubling64 [[f32 1 4]]) 1 0 in
  let W := IEEE.shift_image (pixel_doubling64 [[f32 3 4]]) 0 1 in
  let R := pixel_doubling64 [[f32 1 2]] in
  let gray := [[f32 3 8; f32 1 1]; [f32 0 1; f32 1 255]] in
  let scaled := IEEE.scale_255 24 128 in
  let green := SFmul 24 128 (IEEE.half 24 128) (SFadd 24 128 (f32 1 4) (f32 3 4)) in
  (IEEE.merge_channels_into_color_image 24 128 pixel_doubling64 (fun _ img => img)
     channels).2
    = inr (upsample_color_image (fun _ img => img)
             (IEEE.reconstruction_grayscale 24 128 gray)
             (IEEE.reconstruction_bgr 24 128 B G W R) LAB)
  /\ IEEE.reconstruction_bgr 24 128 B G W R !! 1%nat ≫= (.!! 1%nat)
     = Some (IEEE.floorZ (scaled (f32 1 8)), IEEE.floorZ (scaled green),
             IEEE.floorZ (scaled (f32 1 2)))
  /\ IEEE.reconstruction_grayscale 24 128 gray !! 1%nat ≫= (.!! 1%nat)
     = Some (IEEE.floorZ (scaled (f32 1 255))).
Proof.
  intros channels.
  apply (reconstruction_truncates 24 128 pixel_doubling64 (fun _ img => img) channels
           [[f32 1 2]] [[f32 1 4]] [[f32 3 4]] [[f32 1 8]]
           [[f32 3 8; f32 1 1]; [f32 0 1; f32 1 255]] 1 1
           (f32 1 8) (f32 1 4) (f32 3 4) (f32 1 2) (f32 1 255)).
  1-5: vm_compute; reflexivity.
  1-5: vm_compute; reflexivity.
  all: vm_compute; reflexivity.
Defined.

(** C8, counterexample: the pixel 0.375 becomes 95, in float32 and in
    float64, where rounding 255 * 0.375 = 95.625 to the nearest integer
    gives 96. *)
Lemma conversion_does_not_round :
  let v := f32 3 8 in
  let gray := [[v]] in
  (to_Q v == 3 # 8)%Q
  /\ IEEE.reconstruction_grayscale 24 128 gray = [[95]]
  /\ IEEE.reconstruction_bgr 24 128 gray gray gray gray = [[(95, 95, 95)]]
  /\ IEEE.reconstruction_grayscale 53 1024 [[float64_of_ratio 3 8]] = [[95]]
  /\ round_to_nearest (255 * to_Q v) = 96
  /\ IEEE.reconstruction_grayscale 24 128 gray <> [[round_to_nearest (255 * to_Q v)]].
Proof.
  split; [vm_compute; reflexivity |]. split; [vm_compute; reflexivity |].
  split; [vm_compute; reflexivity |]. split; [vm_compute; reflexivity |].
  split; [vm_compute; reflexivity |]. vm_compute. discriminate.
Qed.

(** ** Voxel-grid builders: the values of the grid *)

(** X9: on a non-empty batch inside the frame whose bin positions are
    finite, not negative and of floor bin below [num_bins], the NumPy
    builder raises nothing and cell (b, y, x) of its grid is the running
    sum, from zero and in batch order, of the left weights of the events
    at pixel (x, y) with floor bin [b], followed by the right weights of
    those with floor bin [b - 1]; the weights are float64 values and
    each addition is rounded to float32. *)
Theorem voxel_is_running_sum
    (events : list IEEE.event) (num_bins width height : Z) (b y x : Z) :
  0 < num_bins -> 0 < width -> 0 < height ->
  num_bins * height * width < 2 ^ 63 ->
  events <> [] -> in_frame64 width height events ->
  Forall (fun e => nonneg_finite (position num_bins events e) = true
                   /\ floor_bin num_bins events e < num_bins) events ->
  0 <= b < num_bins -> 0 <= y < height -> 0 <= x < width ->
  let bin := floor_bin num_bins events in
  exists grid,
    (IEEE.events_to_voxel_grid events num_bins width height).2 = inr grid
    /\ IEEE.voxel grid b y x
       = Some (foldl IEEE.add_at_cell
                 (foldl IEEE.add_at_cell IEEE.zero
                    (map (numpy_left num_bins events)
                       (List.filter (fun e => at_pixel x y e && (bin e =? b)) events)))
                 (map (numpy_right num_bins events)
                    (List.filter (fun e => at_pixel x y e && (bin e + 1 =? b)) events))).
Proof.
  intros Hn Hw Hh Hsize Hne Hframe Hpos Hb Hy Hx bin.
  rewrite (IEEE_numpy_grid events num_bins width height) by assumption.
  eexists. split; [reflexivity |].
  unfold IEEE.voxel. cbn [IEEE.shape IEEE.data].
  apply (IEEE_cell_of_accumulation events num_bins width height); assumption.
Qed.

Lemma voxel_is_running_sum_witness :
  let events := [ev64 IEEE.zero 0 0 1; ev64 (float64_of_ratio 1 10) 0 0 0;
                 ev64 (float64_of_ratio 2 10) 0 0 1; ev64 (float64_of_ratio 3 10) 0 0 1] in
  let bin := floor_bin 3 events in
  exists grid,
    (IEEE.events_to_voxel_grid events 3 1 1).2 = inr grid
    /\ IEEE.voxel grid 1 0 0
       = Some (foldl IEEE.add_at_cell
                 (foldl IEEE.add_at_cell IEEE.zero
                    (map (numpy_left 3 events)
                       (List.filter (fun e => at_pixel 0 0 e && (bin e =? 1)) events)))
                 (map (numpy_right 3 events)
                    (List.filter (fun e => at_pixel 0 0 e && (bin e + 1 =? 1)) events))).
Proof.
  intros events.
  apply (voxel_is_running_sum events 3 1 1 1 0 0).
  - lia.
  - lia.
  - lia.
  - lia.
  - discriminate.
  - subst events. repeat constructor; vm_compute; discriminate.
  - subst events. repeat constructor; vm_compute; reflexivity.
  - lia.
  - lia.
  - lia.
Defined.

(** X6: on a non-empty batch inside the frame whose bin positions are
    finite, not negative and of floor bin below [num_bins], the PyTorch
    builder on the CPU raises nothing and cell (b, y, x) of its grid is
    the running float32 sum, from zero and in batch order, of the left
    weights of the events at pixel (x, y) with floor bin [b], followed by
    the right weights of those with floor bin [b - 1]; the weights are
    float32 values. *)
Theorem pytorch_voxel_is_running_sum
    (events : list IEEE.event) (num_bins width height : Z) (b y x : Z) :
  0 < num_bins < 2 ^ 53 -> 0 < width -> 0 < height ->
  num_bins * height * width < 2 ^ 63 ->
  events <> [] -> in_frame64 width height events ->
  Forall (fun e => nonneg_finite (position num_bins events e) = true
                   /\ floor_bin num_bins events e < num_bins) events ->
  0 <= b < num_bins -> 0 <= y < height -> 0 <= x < width ->
  let bin := floor_bin num_bins events in
  exists grid,
    (IEEE.events_to_voxel_grid_pytorch events num_bins width height cpu).2 = inr grid
    /\ IEEE.voxel grid b y x
       = Some (foldl IEEE.add32
                 (foldl IEEE.add32 IEEE.zero
                    (map (torch_left num_bins events)
                       (List.filter (fun e => at_pixel x y e && (bin e =? b)) events)))
                 (map (torch_right num_bins events)
                    (List.filter (fun e => at_pixel x y e && (bin e + 1 =? b)) events))).
Proof.
  intros [Hn H53] Hw Hh Hsize Hne Hframe Hpos Hb Hy Hx bin.
  rewrite (IEEE_pytorch_grid events num_bins width height) by assumption.
  eexists. split; [reflexivity |].
  unfold IEEE.voxel. cbn [IEEE.shape IEEE.data].
  apply (IEEE_cell_of_accumulation events num_bins width height); assumption.
Qed.

Lemma pytorch_voxel_is_running_sum_witness :
  let events := [ev64 IEEE.zero 0 0 1; ev64 (float64_of_ratio 1 10) 0 0 0;
                 ev64 (float64_of_ratio 2 10) 0 0 1; ev64 (float64_of_ratio 3 10) 0 0 1] in
  let bin := floor_bin 3 events in
  exists grid,
    (IEEE.events_to_voxel_grid_pytorch events 3 1 1 cpu).2 = inr grid
    /\ IEEE.voxel grid 1 0 0
       = Some (foldl IEEE.add32
                 (foldl IEEE.add32 IEEE.zero
                    (map (torch_left 3 events)
                       (List.filter (fun e => at_pixel 0 0 e && (bin e =? 1)) events)))
                 (map (torch_right 3 events)
                    (List.filter (fun e => at_pixel 0 0 e && (bin e + 1 =? 1)) events))).
Proof.
  intros events.
  apply (pytorch_voxel_is_running_sum events 3 1 1 1 0 0).
  - lia.
  - lia.
  - lia.
  - lia.
  - discriminate.
  - subst events. repeat constructor; vm_compute; discriminate.
  - subst events. repeat constructor; vm_compute; reflexivity.
  - lia.
  - lia.
  - lia.
Defined.






(** C10 (amended): on a non-empty batch inside the frame whose bin
    positions are finite, not negative and of floor bin below
    [num_bins], both builders return a grid of shape
    (num_bins, height, width), and they add to the same cells in the
    same order: the left weight of every event to the cell of its floor
    bin [b], then the right weight of every event with [b + 1 < num_bins]
    to the cell of bin [b + 1].  The weights and the additions differ:
    float64 weights, each addition rounded to float32, in the NumPy
    builder; float32 weights and float32 additions in the PyTorch
    builder. *)
Theorem builders_agree_on_cells
    (events : list IEEE.event) (num_bins width height : Z) :
  0 < num_bins < 2 ^ 53 -> 0 < width -> 0 < height ->
  num_bins * height * width < 2 ^ 63 ->
  events <> [] -> in_frame64 width height events ->
  Forall (fun e => nonneg_finite (position num_bins events e) = true
                   /\ floor_bin num_bins events e < num_bins) events ->
  let zeros := replicate (Z.to_nat (num_bins * height * width)) IEEE.zero in
  let bin := floor_bin num_bins events in
  let upper := List.filter (fun e => bin e + 1 <? num_bins) events in
  let left := map (fun e => cell_index width height e (bin e)) events in
  let right := map (fun e => cell_index width height e (bin e + 1)) upper in
  (IEEE.events_to_voxel_grid events num_bins width height).2
  = inr {| IEEE.shape := (num_bins, height, width);
           IEEE.data :=
             accumulate IEEE.add_at_cell
               (accumulate IEEE.add_at_cell zeros
                  (zip left (map (numpy_left num_bins events) events)))
               (zip right (map (numpy_right num_bins events) upper)) |}
  /\ (IEEE.events_to_voxel_grid_pytorch events num_bins width height cpu).2
     = inr {| IEEE.shape := (num_bins, height, width);
              IEEE.data :=
                accumulate IEEE.add32
                  (accumulate IEEE.add32 zeros
                     (zip left (map (torch_left num_bins events) events)))
                  (zip right (map (torch_right num_bins events) upper)) |}.
Proof.
  intros [Hn H53] Hw Hh Hsize Hne Hframe Hpos zeros bin upper left right. split.
  - rewrite (IEEE_numpy_grid events num_bins width height) by assumption. reflexivity.
  - apply (IEEE_pytorch_grid events num_bins width height); assumption.
Qed.

Lemma builders_agree_on_cells_witness :
  let events := [ev64 IEEE.zero 0 0 1; ev64 (float64_of_ratio 1 10) 0 0 1;
                 ev64 (float64_of_ratio 3 10) 0 0 1] in
  let zeros := replicate (Z.to_nat (5 * 1 * 1)) IEEE.zero in
  let bin := floor_bin 5 events in
  let upper := List.filter (fun e => bin e + 1 <? 5) events in
  let left := map (fun e => cell_index 1 1 e (bin e)) events in
  let right := map (fun e => cell_index 1 1 e (bin e + 1)) upper in
  (IEEE.events_to_voxel_grid events 5 1 1).2
  = inr {| IEEE.shape := (5, 1, 1);
           IEEE.data :=
             accumulate IEEE.add_at_cell
               (accumulate IEEE.add_at_cell zeros
                  (zip left (map (numpy_left 5 events) events)))
               (zip right (map (numpy_right 5 events) upper)) |}
  /\ (IEEE.events_to_voxel_grid_pytorch events 5 1 1 cpu).2
     = inr {| IEEE.shape := (5, 1, 1);
              IEEE.data :=
                accumulate IEEE.add32
                  (accumulate IEEE.add32 zeros
                     (zip left (map (torch_left 5 events) events)))
                  (zip right (map (torch_right 5 events) upper)) |}.
Proof.
  intros events.
  apply (builders_agree_on_cells events 5 1 1).
  - lia.
  - lia.
  - lia.
  - lia.
  - discriminate.
  - subst events. repeat constructor; vm_compute; discriminate.
  - subst events. repeat constructor; vm_compute; reflexivity.
Defined.

(** C10, counterexample: on the ascending batch of timestamps 0, 0.1,
    0.3 at one pixel with five bins, the floor bins are 0, 1 and 4 and
    both builders return a grid of shape (5, 1, 1), but bin 1 holds
    [11184811 * 2^-24] in the NumPy grid and [11184810 * 2^-24] in the
    PyTorch grid. *)
Lemma builders_differ_in_last_bit :
  let events := [ev64 IEEE.zero 0 0 1; ev64 (float64_of_ratio 1 10) 0 0 1;
                 ev64 (float64_of_ratio 3 10) 0 0 1] in
  SFltb IEEE.zero (float64_of_ratio 1 10) = true
  /\ SFltb (float64_of_ratio 1 10) (float64_of_ratio 3 10) = true
  /\ map (floor_bin 5 events) events = [0; 1; 4]
  /\ exists numpy_grid torch_grid,
       (IEEE.events_to_voxel_grid events 5 1 1).2 = inr numpy_grid
       /\ (IEEE.events_to_voxel_grid_pytorch events 5 1 1 cpu).2 = inr torch_grid
       /\ IEEE.shape numpy_grid = IEEE.shape torch_grid
       /\ IEEE.voxel numpy_grid 1 0 0 = Some (S754_finite false 11184811 (-24))
       /\ IEEE.voxel torch_grid 1 0 0 = Some (S754_finite false 11184810 (-24))
       /\ numpy_grid <> torch_grid.
Proof.
  split; [vm_compute; reflexivity |]. split; [vm_compute; reflexivity |].
  split; [vm_compute; reflexivity |].
  eexists. eexists. split; [vm_compute; reflexivity |].
  split; [vm_compute; reflexivity |]. split; [reflexivity |].
  split; [vm_compute; reflexivity |]. split; [vm_compute; reflexivity |].
  discriminate.
Qed.
